(** * Expressions: scanner, recursive-descent parser and evaluator of main.cpp

    A shallow embedding of [src/main.cpp].  The program keeps one global
    [Scanner s], writes diagnostics with [printf] and allocates tree nodes
    with [new]; the embedding threads one [World] value that holds the global
    scanner, the lines written to standard output and the number of tree
    nodes that are currently allocated. *)

From Stdlib Require Import String Ascii ZArith List Bool Lia.
From Stdlib Require DecimalString.
Import ListNotations.
Local Open Scope Z_scope.

(** ** Characters and strings *)

(** [std::string] is a list of bytes; [str] reads a literal. *)
Definition str (x : string) : list ascii := list_ascii_of_string x.

(** [typedef int Character].  [buffer[i]] is a [char]; it is widened the way
    a platform with signed [char] (x86-64) does it.  The class tests below
    are false for every byte above 127 under either signedness. *)
Definition Character := Z.

Definition charToInt (a : ascii) : Character :=
  let n := Z.of_N (N_of_ascii a) in
  if n <? 128 then n else n - 256.

(** The narrowing done by [t.name += c] and [t.name = c]. *)
Definition intToChar (c : Character) : ascii :=
  ascii_of_N (Z.to_N (c mod 256)).

Definition code (a : ascii) : Character := Z.of_N (N_of_ascii a).

Definition beginsWithName (c : Character) : bool :=
  ((code "a" <=? c) && (c <=? code "z"))
  || ((code "A" <=? c) && (c <=? code "Z"))
  || (c =? code "_").

Definition beginsWithDigit (c : Character) : bool :=
  (code "0" <=? c) && (c <=? code "9").

Definition isIdentifier (c : Character) : bool :=
  beginsWithName c || beginsWithDigit c.

(** [std::isprint] and [std::isspace] in the "C" locale (the program never
    calls [setlocale]): the printable characters are 0x20..0x7e, the space
    characters are ' ' and '\t' '\n' '\v' '\f' '\r' (9..13). *)
Definition isprint (c : Character) : bool := (32 <=? c) && (c <=? 126).

Definition isspace (c : Character) : bool :=
  (c =? 32) || ((9 <=? c) && (c <=? 13)).

(** ** Tokens *)

Inductive TokenType :=
| TOKEN_TYPE_NULL
| TOKEN_TYPE_INTEGER
| TOKEN_TYPE_ADD
| TOKEN_TYPE_MINUS
| TOKEN_TYPE_MUL
| TOKEN_TYPE_LPAREN
| TOKEN_TYPE_RPAREN.

(** The enumerators' values, used where a [TokenType] is stored in an [int]. *)
Definition TokenType_to_int (ty : TokenType) : Z :=
  match ty with
  | TOKEN_TYPE_NULL => 0
  | TOKEN_TYPE_INTEGER => 1
  | TOKEN_TYPE_ADD => 2
  | TOKEN_TYPE_MINUS => 3
  | TOKEN_TYPE_MUL => 4
  | TOKEN_TYPE_LPAREN => 5
  | TOKEN_TYPE_RPAREN => 6
  end.

Definition TokenType_eqb (a b : TokenType) : bool :=
  TokenType_to_int a =? TokenType_to_int b.

Record Token := mkToken { name : list ascii; type : TokenType }.

(** ** The scanner *)

(** The indices are [size_t]; they are only ever incremented while they are
    below [buffer.length()], so they never wrap and are kept as [nat]. *)
Record Scanner := mkScanner {
  buffer : list ascii;
  currentCharacterIndex : nat;
  nextCharacterIndex : nat
}.

Definition getCharacter (sc : Scanner) : Character :=
  if (length (buffer sc) <=? currentCharacterIndex sc)%nat then 0
  else match nth_error (buffer sc) (currentCharacterIndex sc) with
       | Some a => charToInt a
       | None => 0
       end.

Definition incrementPosition (amount : nat) (sc : Scanner) : Scanner :=
  mkScanner (buffer sc) (currentCharacterIndex sc + amount) (nextCharacterIndex sc).

Definition Scanner_setBuffer (buf : list ascii) (sc : Scanner) : Scanner :=
  mkScanner buf 0 (nextCharacterIndex sc).

Definition Scanner_nextToken (sc : Scanner) : Scanner :=
  mkScanner (buffer sc) (nextCharacterIndex sc) (nextCharacterIndex sc).

(** A [while (cond) body] loop over its local state.  [fuel] bounds the
    number of iterations; [while_exit] below shows that the fuel handed to
    the three loops of [peekToken] lets each of them run until its condition
    is false. *)
Fixpoint while {St : Type} (cond : St -> bool) (body : St -> St)
         (fuel : nat) (st : St) : St :=
  match fuel with
  | O => st
  | S fuel' => if cond st then while cond body fuel' (body st) else st
  end.

(** The local state of [peekToken]: the token [t], the character [c] and the
    scanner (whose [currentCharacterIndex] the loops move). *)
Record Locals := mkLocals { l_t : Token; l_c : Character; l_s : Scanner }.

(** [incrementPosition(); c = getCharacter();] *)
Definition advanceChar (st : Locals) : Locals :=
  let sc := incrementPosition 1 (l_s st) in
  mkLocals (l_t st) (getCharacter sc) sc.

(** [t.name += c; incrementPosition(); c = getCharacter();] *)
Definition appendDigit (st : Locals) : Locals :=
  let t := mkToken (name (l_t st) ++ [intToChar (l_c st)]) (type (l_t st)) in
  advanceChar (mkLocals t (l_c st) (l_s st)).

Definition isTrailing (c : Character) : bool :=
  isIdentifier c || (c =? code ".").

(** ** Standard output *)

Definition nl : list ascii := ["010"%char].

Definition msgBadStream : list ascii :=
  str "Bad lexical analysis stream (no such printable character)" ++ nl.
Definition msgSkipping : list ascii :=
  str "skipping trailing characters for integer" ++ nl.
Definition msgUnexpected (c : Character) : list ascii :=
  str "Unexpected lexical analysis character " ++ [intToChar c] ++ nl.
Definition msgExpectedRParen : list ascii :=
  str "Expected right parantheses match" ++ nl.

(** [c_str()] read by [%s] or [atoll]: the bytes before the first NUL. *)
Fixpoint c_str (x : list ascii) : list ascii :=
  match x with
  | [] => []
  | a :: r => if (code a =? 0) then [] else a :: c_str r
  end.

Definition msgSyntaxError (nm : list ascii) : list ascii :=
  str "Syntax error in " ++ c_str nm ++ nl.

(** ** Trees *)

(** [Tree *]: a null pointer or an owned node.  Every node is made by one of
    the three [create...] functions, which set [treeType] to the tag of the
    struct they allocate, so the tag is the constructor and the [default]
    branches on [treeType] (TREE_TYPE_NONE) are not reachable. *)
Inductive Tree :=
| nullptr
| LiteralTree (token : Token)
| UnaryExpressionTree (operatorType : TokenType) (child : Tree)
| BinaryExpressionTree (operatorType : Z) (left right : Tree).

(** ** The state of the program *)

Record World := mkWorld {
  s : Scanner;                 (* the global [Scanner s] *)
  stdout : list (list ascii);  (* one entry per [printf], oldest first *)
  liveNodes : Z                (* [new]s minus [delete]s so far *)
}.

Definition M (A : Type) : Type := World -> A * World.

Definition ret {A} (a : A) : M A := fun w => (a, w).
Definition bind {A B} (m : M A) (k : A -> M B) : M B :=
  fun w => let (a, w') := m w in k a w'.

Definition printf (line : list ascii) : M unit :=
  fun w => (tt, mkWorld (s w) (stdout w ++ [line]) (liveNodes w)).
Definition new_node : M unit :=
  fun w => (tt, mkWorld (s w) (stdout w) (liveNodes w + 1)).
Definition delete_node : M unit :=
  fun w => (tt, mkWorld (s w) (stdout w) (liveNodes w - 1)).
Definition withScanner (f : Scanner -> Scanner) : M unit :=
  fun w => (tt, mkWorld (f (s w)) (stdout w) (liveNodes w)).

Definition setBuffer (buf : list ascii) : M unit :=
  withScanner (Scanner_setBuffer buf).
Definition nextToken : M unit := withScanner Scanner_nextToken.

(** [Scanner::peekToken]: the token, the scanner afterwards and the lines
    the call prints.  [Token t] starts with an empty name; its type is
    assigned on every path before [t] is returned. *)
Definition Scanner_peekToken (sc : Scanner)
  : Token * Scanner * list (list ascii) :=
  let previousCharacterIndex := currentCharacterIndex sc in
  let c := getCharacter sc in
  if c =? 0 then (mkToken [] TOKEN_TYPE_NULL, sc, [])
  else if negb (isprint c) then
    (mkToken [] TOKEN_TYPE_NULL, sc, [msgBadStream])
  else
    let fuel := length (buffer sc) in
    let st := while (fun st => isspace (l_c st)) advanceChar fuel
                    (mkLocals (mkToken [] TOKEN_TYPE_NULL) c sc) in
    let '(st, lines) :=
      if beginsWithDigit (l_c st) then
        let st := mkLocals (mkToken (name (l_t st)) TOKEN_TYPE_INTEGER)
                           (l_c st) (l_s st) in
        let st := while (fun st => beginsWithDigit (l_c st)) appendDigit fuel st in
        if isTrailing (l_c st) then
          (while (fun st => isTrailing (l_c st)) advanceChar fuel st,
           [msgSkipping])
        else (st, [])
      else
        let c := l_c st in
        let nm := [intToChar c] in
        let consume ty :=
          (mkLocals (mkToken nm ty) c (incrementPosition 1 (l_s st)), []) in
        if c =? code "+" then consume TOKEN_TYPE_ADD
        else if c =? code "-" then consume TOKEN_TYPE_MINUS
        else if c =? code "*" then consume TOKEN_TYPE_MUL
        else if c =? code "(" then consume TOKEN_TYPE_LPAREN
        else if c =? code ")" then consume TOKEN_TYPE_RPAREN
        else (mkLocals (mkToken nm TOKEN_TYPE_NULL) c (l_s st),
              [msgUnexpected c]) in
    (l_t st,
     mkScanner (buffer (l_s st)) previousCharacterIndex
               (currentCharacterIndex (l_s st)),
     lines).

(** [s.peekToken()] on the global scanner. *)
Definition peekToken : M Token := fun w =>
  let '(t, sc, lines) := Scanner_peekToken (s w) in
  (t, mkWorld sc (stdout w ++ lines) (liveNodes w)).

(** ** Node construction and destruction *)

Definition createLiteralTree (token : Token) : M Tree :=
  bind new_node (fun _ => ret (LiteralTree token)).

Definition createUnaryExpressionTree (operatorType : TokenType) (child : Tree)
  : M Tree :=
  bind new_node (fun _ => ret (UnaryExpressionTree operatorType child)).

Definition createBinaryExpressionTree (operatorType : Z) (left right : Tree)
  : M Tree :=
  bind new_node (fun _ => ret (BinaryExpressionTree operatorType left right)).

Fixpoint destroyExpressionTreeWithChildren (expr : Tree) : M unit :=
  match expr with
  | nullptr => ret tt
  | BinaryExpressionTree _ l r =>
      bind (destroyExpressionTreeWithChildren l) (fun _ =>
      bind (destroyExpressionTreeWithChildren r) (fun _ =>
      delete_node))
  | LiteralTree _ => delete_node
  | UnaryExpressionTree _ c =>
      bind (destroyExpressionTreeWithChildren c) (fun _ => delete_node)
  end.

Definition matchToken (t : Token) (ty : TokenType) : bool :=
  TokenType_eqb (type t) ty.

Definition matchTerm (t : Token) : bool :=
  TokenType_eqb (type t) TOKEN_TYPE_ADD || TokenType_eqb (type t) TOKEN_TYPE_MINUS.

Definition matchFactor (t : Token) : bool :=
  TokenType_eqb (type t) TOKEN_TYPE_MUL.

(** ** The parser *)

(** The four parsing functions call each other; every call spends one unit
    of [fuel], and [None] means that the fuel ran out ([parse_total] shows
    that it does not for the fuel [parseFuel] gives, [parse_fuel_enough]
    that more fuel gives the same result). *)
Definition P (A : Type) : Type := World -> option (A * World).

Definition pret {A} (a : A) : P A := fun w => Some (a, w).
Definition pbind {A B} (m : P A) (k : A -> P B) : P B :=
  fun w => match m w with
           | Some (a, w') => k a w'
           | None => None
           end.
Definition lift {A} (m : M A) : P A := fun w => Some (m w).

Declare Scope parser_scope.
Delimit Scope parser_scope with parser.
Notation "x <- m ;; k" := (pbind m (fun x => k))
  (at level 61, m at next level, right associativity) : parser_scope.
Notation "m ;;; k" := (pbind m (fun _ => k))
  (at level 61, right associativity) : parser_scope.
Local Open Scope parser_scope.

Fixpoint parsePrimary (fuel : nat) : P Tree :=
  match fuel with
  | O => fun _ => None
  | S fuel =>
      t <- lift peekToken ;;
      if matchToken t TOKEN_TYPE_INTEGER then
        lift nextToken ;;;
        lift (createLiteralTree t)
      else if matchToken t TOKEN_TYPE_LPAREN then
        lift nextToken ;;;
        tree <- parseExpression fuel ;;
        t <- lift peekToken ;;
        if negb (TokenType_eqb (type t) TOKEN_TYPE_RPAREN) then
          lift (printf msgExpectedRParen) ;;;
          lift (destroyExpressionTreeWithChildren tree) ;;;
          pret nullptr
        else
          lift nextToken ;;;
          pret tree
      else
        lift (printf (msgSyntaxError (name t))) ;;;
        pret nullptr
  end

with parseMultiplicativeExpression (fuel : nat) : P Tree :=
  match fuel with
  | O => fun _ => None
  | S fuel =>
      a <- parsePrimary fuel ;;
      tok <- lift peekToken ;;
      if matchFactor tok then
        lift nextToken ;;;
        b <- parsePrimary fuel ;;
        a <- lift (createBinaryExpressionTree (TokenType_to_int (type tok)) a b) ;;
        tok <- lift peekToken ;;
        if matchFactor tok then
          lift nextToken ;;;
          b <- parseMultiplicativeExpression fuel ;;
          lift (createBinaryExpressionTree (TokenType_to_int (type tok)) a b)
        else pret a
      else pret a
  end

with parseAdditiveExpression (fuel : nat) : P Tree :=
  match fuel with
  | O => fun _ => None
  | S fuel =>
      a <- parseMultiplicativeExpression fuel ;;
      tok <- lift peekToken ;;
      if matchTerm tok then
        lift nextToken ;;;
        b <- parseMultiplicativeExpression fuel ;;
        a <- lift (createBinaryExpressionTree (TokenType_to_int (type tok)) a b) ;;
        tok <- lift peekToken ;;
        if matchTerm tok then
          lift nextToken ;;;
          b <- parseAdditiveExpression fuel ;;
          lift (createBinaryExpressionTree (TokenType_to_int (type tok)) a b)
        else pret a
      else pret a
  end

with parseExpression (fuel : nat) : P Tree :=
  match fuel with
  | O => fun _ => None
  | S fuel => parseAdditiveExpression fuel
  end.

(** ** The evaluator *)

Definition u64 (z : Z) : Z := z mod 2 ^ 64.

Definition LLONG_MAX : Z := 2 ^ 63 - 1.
Definition LLONG_MIN : Z := - 2 ^ 63.

Fixpoint dropSpaces (x : list ascii) : list ascii :=
  match x with
  | a :: r => if isspace (charToInt a) then dropSpaces r else x
  | [] => []
  end.

(** The value of the leading run of decimal digits of [x], after [acc]. *)
Fixpoint digitsValue (acc : Z) (x : list ascii) : Z :=
  match x with
  | a :: r => if beginsWithDigit (charToInt a)
              then digitsValue (10 * acc + (charToInt a - code "0")) r
              else acc
  | [] => acc
  end.

(** [std::atoll] of the C library: leading white space, an optional sign,
    then decimal digits.  ISO C leaves a value that [long long] cannot hold
    undefined; glibc (like the BSD and Microsoft libraries) implements
    [atoll] as [strtoll(nptr, NULL, 10)], which clamps to LLONG_MIN and
    LLONG_MAX, and that is what is modelled. *)
Definition atoll (x : list ascii) : Z :=
  let x := dropSpaces x in
  let '(neg, x) :=
    match x with
    | a :: r => if code a =? code "-" then (true, r)
                else if code a =? code "+" then (false, r)
                else (false, x)
    | [] => (false, x)
    end in
  let v := digitsValue 0 x in
  let v := if neg then - v else v in
  Z.max LLONG_MIN (Z.min LLONG_MAX v).

Fixpoint evaluateConstantExpressionTree (expr : Tree) : Z :=
  match expr with
  | nullptr => 0
  | BinaryExpressionTree op l r =>
      let a := evaluateConstantExpressionTree l in
      let b := evaluateConstantExpressionTree r in
      if op =? TokenType_to_int TOKEN_TYPE_ADD then u64 (a + b)
      else if op =? TokenType_to_int TOKEN_TYPE_MINUS then u64 (a - b)
      else if op =? TokenType_to_int TOKEN_TYPE_MUL then u64 (a * b)
      else 0
  | LiteralTree tok => u64 (atoll (c_str (name tok)))
  | UnaryExpressionTree op c =>
      let result := evaluateConstantExpressionTree c in
      match op with
      | TOKEN_TYPE_MINUS => u64 (- result)
      | _ => result
      end
  end.

(** ** The driver: [testExpressions] on one buffer *)

(** The program at start-up: the global scanner is zero-initialised. *)
Definition initialWorld : World := mkWorld (mkScanner [] 0 0) [] 0.

(** Enough fuel for a buffer with [remaining] unread characters. *)
Definition parseFuel (remaining : nat) : nat := 4 * remaining + 4.

(** [s.setBuffer(buf); Tree *tree = parseExpression();] *)
Definition parse (buf : list ascii) : option (Tree * World) :=
  let w := snd (setBuffer buf initialWorld) in
  parseExpression (parseFuel (length buf)) w.

(** [... result = evaluateConstantExpressionTree(tree);] *)
Definition evaluate (buf : list ascii) : option Z :=
  match parse buf with
  | Some (tree, _) => Some (evaluateConstantExpressionTree tree)
  | None => None
  end.

Definition lit (digits : string) : Tree :=
  LiteralTree (mkToken (str digits) TOKEN_TYPE_INTEGER).
Definition bin (op : TokenType) (l r : Tree) : Tree :=
  BinaryExpressionTree (TokenType_to_int op) l r.

(** ** Well-formed expression texts

    The texts that the grammar of the parser derives, as syntax trees of the
    source text: a primary is an integer literal or a parenthesised
    expression, a multiplicative chain is primaries joined by '*', an
    additive chain is multiplicative chains joined by '+' or '-'.  Every
    token carries the white space written before it. *)

Inductive AddOp := OpAdd | OpSub.

Inductive Prim :=
| PInt (ws : list ascii) (digits : list ascii)
| PParen (ws1 : list ascii) (e : AddE) (ws2 : list ascii)
with MulE :=
| MOne (p : Prim)
| MCons (p : Prim) (ws : list ascii) (rest : MulE)
with AddE :=
| AOne (m : MulE)
| ACons (m : MulE) (ws : list ascii) (op : AddOp) (rest : AddE).

Scheme Prim_mut := Induction for Prim Sort Prop
  with MulE_mut := Induction for MulE Sort Prop
  with AddE_mut := Induction for AddE Sort Prop.
Combined Scheme Expr_mutind from Prim_mut, MulE_mut, AddE_mut.

Definition addOpChar (op : AddOp) : ascii :=
  match op with OpAdd => "+"%char | OpSub => "-"%char end.

Definition addOpType (op : AddOp) : TokenType :=
  match op with OpAdd => TOKEN_TYPE_ADD | OpSub => TOKEN_TYPE_MINUS end.

(** The text of an expression. *)
Fixpoint renderP (p : Prim) : list ascii :=
  match p with
  | PInt ws ds => ws ++ ds
  | PParen ws1 e ws2 => ws1 ++ "("%char :: renderA e ++ ws2 ++ [")"%char]
  end
with renderM (m : MulE) : list ascii :=
  match m with
  | MOne p => renderP p
  | MCons p ws rest => renderP p ++ ws ++ "*"%char :: renderM rest
  end
with renderA (e : AddE) : list ascii :=
  match e with
  | AOne m => renderM m
  | ACons m ws op rest => renderM m ++ ws ++ addOpChar op :: renderA rest
  end.

(** White space that [peekToken] skips: nothing, or a space followed by any
    space characters (a first character that is not printable ends the
    scan before the skipping loop). *)
Definition blank (ws : list ascii) : bool :=
  match ws with
  | [] => true
  | a :: r => (charToInt a =? 32) && forallb (fun b => isspace (charToInt b)) r
  end.

Definition isDigits (ds : list ascii) : bool :=
  match ds with
  | [] => false
  | _ => forallb (fun a => beginsWithDigit (charToInt a)) ds
  end.

Fixpoint wfP (p : Prim) : bool :=
  match p with
  | PInt ws ds => blank ws && isDigits ds
  | PParen ws1 e ws2 => blank ws1 && wfA e && blank ws2
  end
with wfM (m : MulE) : bool :=
  match m with
  | MOne p => wfP p
  | MCons p ws rest => wfP p && blank ws && wfM rest
  end
with wfA (e : AddE) : bool :=
  match e with
  | AOne m => wfM m
  | ACons m ws _ rest => wfM m && blank ws && wfA rest
  end.

(** The number read by a run of decimal digits. *)
Definition decimal (ds : list ascii) : Z :=
  fold_left (fun acc a => 10 * acc + (code a - code "0")) ds 0.

Definition applyOp (op : AddOp) (a b : Z) : Z :=
  match op with OpAdd => a + b | OpSub => a - b end.

(** The value of an expression in the integers: '*' before '+' and '-', and
    every chain from left to right ([mulFrom acc] and [addFrom acc op]
    continue a chain whose operands so far have the value [acc]). *)
Fixpoint valP (p : Prim) : Z :=
  match p with
  | PInt _ ds => decimal ds
  | PParen _ e _ => valA e
  end
with valM (m : MulE) : Z :=
  match m with
  | MOne p => valP p
  | MCons p _ rest => mulFrom (valP p) rest
  end
with mulFrom (acc : Z) (m : MulE) : Z :=
  match m with
  | MOne p => acc * valP p
  | MCons p _ rest => mulFrom (acc * valP p) rest
  end
with valA (e : AddE) : Z :=
  match e with
  | AOne m => valM m
  | ACons m _ op rest => addFrom (valM m) op rest
  end
with addFrom (acc : Z) (op : AddOp) (e : AddE) : Z :=
  match e with
  | AOne m => applyOp op acc (valM m)
  | ACons m _ op' rest => addFrom (applyOp op acc (valM m)) op' rest
  end.

(** Every literal is at most LLONG_MAX, the largest value of [atoll]. *)
Fixpoint litsP (p : Prim) : bool :=
  match p with
  | PInt _ ds => decimal ds <=? LLONG_MAX
  | PParen _ e _ => litsA e
  end
with litsM (m : MulE) : bool :=
  match m with
  | MOne p => litsP p
  | MCons p _ rest => litsP p && litsM rest
  end
with litsA (e : AddE) : bool :=
  match e with
  | AOne m => litsM m
  | ACons m _ _ rest => litsM m && litsA rest
  end.

Fixpoint operatorsM (m : MulE) : nat :=
  match m with MOne _ => 0 | MCons _ _ rest => S (operatorsM rest) end.
Fixpoint operatorsA (e : AddE) : nat :=
  match e with AOne _ => 0 | ACons _ _ _ rest => S (operatorsA rest) end.

(** No chain, at either level and at any depth of parentheses, joins its
    operands with more than two operators. *)
Fixpoint shortP (p : Prim) : bool :=
  match p with
  | PInt _ _ => true
  | PParen _ e _ => (operatorsA e <=? 2)%nat && shortTerms e
  end
with shortPrims (m : MulE) : bool :=
  match m with
  | MOne p => shortP p
  | MCons p _ rest => shortP p && shortPrims rest
  end
with shortTerms (e : AddE) : bool :=
  match e with
  | AOne m => (operatorsM m <=? 2)%nat && shortPrims m
  | ACons m _ _ rest =>
      (operatorsM m <=? 2)%nat && shortPrims m && shortTerms rest
  end.

Definition shortM (m : MulE) : bool := (operatorsM m <=? 2)%nat && shortPrims m.
Definition shortA (e : AddE) : bool := (operatorsA e <=? 2)%nat && shortTerms e.

(** The grouping of the parser: the first two operands of a chain form a
    pair, and a third operand onwards is the chain that the same function
    parses from there. *)
Fixpoint treeP (p : Prim) : Tree :=
  match p with
  | PInt _ ds => LiteralTree (mkToken ds TOKEN_TYPE_INTEGER)
  | PParen _ e _ => treeA e
  end
with treeM (m : MulE) : Tree :=
  match m with
  | MOne p => treeP p
  | MCons p1 _ (MOne p2) => bin TOKEN_TYPE_MUL (treeP p1) (treeP p2)
  | MCons p1 _ (MCons p2 _ rest) =>
      bin TOKEN_TYPE_MUL (bin TOKEN_TYPE_MUL (treeP p1) (treeP p2)) (treeM rest)
  end
with treeA (e : AddE) : Tree :=
  match e with
  | AOne m => treeM m
  | ACons m1 _ op (AOne m2) => bin (addOpType op) (treeM m1) (treeM m2)
  | ACons m1 _ op1 (ACons m2 _ op2 rest) =>
      bin (addOpType op2) (bin (addOpType op1) (treeM m1) (treeM m2)) (treeA rest)
  end.

(** The token that [peekToken] returns at index [i] of [buf]. *)
Definition tokenAt (buf : list ascii) (i : nat) : Token :=
  fst (fst (Scanner_peekToken (mkScanner buf i 0))).

(** The global scanner reads [buf] at index [i]. *)
Definition atPos (buf : list ascii) (i : nat) (w : World) : Prop :=
  buffer (s w) = buf /\ currentCharacterIndex (s w) = i.

Definition setNext (nx : nat) (sc : Scanner) : Scanner :=
  mkScanner (buffer sc) (currentCharacterIndex sc) nx.
Definition liftNext (nx : nat) (st : Locals) : Locals :=
  mkLocals (l_t st) (l_c st) (setNext nx (l_s st)).

(** The character that [getCharacter] reads in front of the text [post]. *)
Definition headChar (post : list ascii) : Character :=
  match post with
  | [] => 0
  | a :: _ => charToInt a
  end.

(** The text after a literal does not continue it. *)
Definition delimited (post : list ascii) : bool :=
  negb (isTrailing (headChar post)).

(** The five one-character tokens. *)
Definition symbolType (a : ascii) : option TokenType :=
  let c := charToInt a in
  if c =? code "+" then Some TOKEN_TYPE_ADD
  else if c =? code "-" then Some TOKEN_TYPE_MINUS
  else if c =? code "*" then Some TOKEN_TYPE_MUL
  else if c =? code "(" then Some TOKEN_TYPE_LPAREN
  else if c =? code ")" then Some TOKEN_TYPE_RPAREN
  else None.

(** The invariant of the three loops: [c] is the character under the cursor. *)
Definition inSync (st : Locals) : Prop := l_c st = getCharacter (l_s st).

(** ** Statements about the parser *)

(** What a parsing function does on the text of a well-formed expression
    that starts at index [i] of the buffer: it returns the tree with the
    grouping above and leaves the cursor after the text.  [post] is the rest
    of the buffer; for a chain the token that follows must not continue it. *)
Definition soundP (fuel : nat) : Prop :=
  forall p pre post buf i w r,
    wfP p = true -> delimited post = true ->
    buf = pre ++ renderP p ++ post -> i = length pre -> atPos buf i w ->
    parsePrimary fuel w = Some r ->
    fst r = treeP p /\ atPos buf (i + length (renderP p)) (snd r).

Definition soundM (fuel : nat) : Prop :=
  forall m pre post buf i w r,
    wfM m = true -> delimited post = true ->
    matchFactor (tokenAt buf (i + length (renderM m))) = false ->
    buf = pre ++ renderM m ++ post -> i = length pre -> atPos buf i w ->
    parseMultiplicativeExpression fuel w = Some r ->
    fst r = treeM m /\ atPos buf (i + length (renderM m)) (snd r).

Definition soundA (fuel : nat) : Prop :=
  forall e pre post buf i w r,
    wfA e = true -> delimited post = true ->
    matchFactor (tokenAt buf (i + length (renderA e))) = false ->
    matchTerm (tokenAt buf (i + length (renderA e))) = false ->
    buf = pre ++ renderA e ++ post -> i = length pre -> atPos buf i w ->
    parseAdditiveExpression fuel w = Some r ->
    fst r = treeA e /\ atPos buf (i + length (renderA e)) (snd r).

Definition soundE (fuel : nat) : Prop :=
  forall e pre post buf i w r,
    wfA e = true -> delimited post = true ->
    matchFactor (tokenAt buf (i + length (renderA e))) = false ->
    matchTerm (tokenAt buf (i + length (renderA e))) = false ->
    buf = pre ++ renderA e ++ post -> i = length pre -> atPos buf i w ->
    parseExpression fuel w = Some r ->
    fst r = treeA e /\ atPos buf (i + length (renderA e)) (snd r).

(** The characters not yet consumed. *)
Definition remaining (w : World) : nat :=
  length (buffer (s w)) - currentCharacterIndex (s w).

(** [w'] is [w] after parsing: same buffer, cursor not moved back. *)
Definition advanced (w w' : World) : Prop :=
  buffer (s w') = buffer (s w) /\
  (currentCharacterIndex (s w) <= currentCharacterIndex (s w'))%nat.

Definition totalOn (parser : nat -> P Tree) (k fuel : nat) : Prop :=
  forall w, (4 * remaining w + k <= fuel)%nat ->
            exists r, parser fuel w = Some r /\ advanced w (snd r).

(** One more unit of fuel does not change a result. *)
Definition fuelMono (parser : nat -> P Tree) (f : nat) : Prop :=
  forall w r, parser f w = Some r -> parser (S f) w = Some r.

(** ** Definitions used by the statements below *)

(** The tree of a primary evaluates to the value of the primary modulo
    2^64; [primsEval] and [termsEval] say so of every operand of a chain. *)
Definition evalOK (p : Prim) : Prop :=
  evaluateConstantExpressionTree (treeP p) = u64 (valP p).

Fixpoint primsEval (m : MulE) : Prop :=
  match m with
  | MOne p => evalOK p
  | MCons p _ rest => evalOK p /\ primsEval rest
  end.

Fixpoint termsEval (e : AddE) : Prop :=
  match e with
  | AOne m => evaluateConstantExpressionTree (treeM m) = u64 (valM m)
  | ACons m _ _ rest =>
      evaluateConstantExpressionTree (treeM m) = u64 (valM m) /\ termsEval rest
  end.

(** A character that starts no token and is not skipped: not white space,
    not a digit and none of the five symbols (0, the end of the buffer, is
    one). *)
Definition unrecognized (c : Character) : bool :=
  negb (isspace c) && negb (beginsWithDigit c) &&
  negb ((c =? code "+") || (c =? code "-") || (c =? code "*")
        || (c =? code "(") || (c =? code ")")).

(** A text of white space only. *)
Definition allSpaces (x : list ascii) : bool :=
  forallb (fun a => isspace (charToInt a)) x.

(** The tree that [parse] returns. *)
Definition parsedTree (buf : list ascii) : option Tree :=
  option_map fst (parse buf).

(** A literal, and a literal written after one space. *)
Definition num (d : string) : Prim := PInt [] (str d).
Definition num_ (d : string) : Prim := PInt (str " ") (str d).

(** The text "(4 + 3 * 8) + 8 * 8 + (4 * 4)" of the program's own test. *)
Definition exprTest3 : AddE :=
  ACons (MOne (PParen []
                 (ACons (MOne (num "4")) (str " ") OpAdd
                        (AOne (MCons (num_ "3") (str " ") (MOne (num_ "8")))))
                 []))
        (str " ") OpAdd
        (ACons (MCons (num_ "8") (str " ") (MOne (num_ "8"))) (str " ") OpAdd
               (AOne (MOne (PParen (str " ")
                              (AOne (MCons (num "4") (str " ") (MOne (num_ "4"))))
                              [])))).

(** '\t' and '\n'. *)
Definition tab : ascii := "009"%char.
Definition newline : ascii := "010"%char.

(** The program after [s.setBuffer(buf)]. *)
Definition loaded (buf : list ascii) : World := snd (setBuffer buf initialWorld).

(** The number of nodes of a tree. *)
Fixpoint nodes (t : Tree) : Z :=
  match t with
  | nullptr => 0
  | LiteralTree _ => 1
  | UnaryExpressionTree _ c => 1 + nodes c
  | BinaryExpressionTree _ l r => 1 + nodes l + nodes r
  end.

(** The program after [s.setBuffer("(4 + 3")], [peekToken] and [nextToken]:
    the left parenthesis is consumed. *)
Definition afterLParen : World :=
  snd (nextToken (snd (peekToken (loaded (str "(4 + 3"))))).

(** The call returns the null tree with the cursor still at [i], having
    printed [msg]. *)
Definition failsAt (buf : list ascii) (i : nat) (msg : list ascii)
           (r : option (Tree * World)) : Prop :=
  exists w, r = Some (nullptr, w) /\ atPos buf i w /\ In msg (stdout w).

(** ** The self-test: [evaluations], [testExpressions] and [main] *)

(** [struct ExpressionEvaluationTester]. *)
Module ExpressionEvaluationTester.
Record t := mk { buffer : list ascii; result : Z }.
End ExpressionEvaluationTester.
Definition Tester : Type := ExpressionEvaluationTester.t.

(** The table [evaluations]: the compiler computes each expected value in
    [int] and converts it to [std::uint64_t]. *)
Definition evaluations : list Tester :=
  [ ExpressionEvaluationTester.mk (str "4 + 3 * 8") (u64 (4 + 3 * 8));
    ExpressionEvaluationTester.mk (str "(4 + 3) * 8") (u64 ((4 + 3) * 8));
    ExpressionEvaluationTester.mk (str "(4 + 3 * 8) + 8 * 8 + (4 * 4)")
                                  (u64 ((4 + 3 * 8) + 8 * 8 + (4 * 4))) ].

(** [(std::int64_t) x] for a 64-bit unsigned [x]. *)
Definition int64 (x : Z) : Z := if x <? 2 ^ 63 then x else x - 2 ^ 64.

(** What [%ld] prints. *)
Definition showLong (x : Z) : list ascii :=
  list_ascii_of_string (DecimalString.NilZero.string_of_int (Z.to_int x)).

(** The line of [testExpressions]:
    "Test %s %s :: (my result: %ld) == (compilers result: %ld)\n". *)
Definition testLine (i : Tester) (result : Z) : list ascii :=
  str "Test "
  ++ (if result =? ExpressionEvaluationTester.result i
      then str "passed" else str "failed")
  ++ str " " ++ c_str (ExpressionEvaluationTester.buffer i)
  ++ str " :: (my result: " ++ showLong (int64 result)
  ++ str ") == (compilers result: "
  ++ showLong (int64 (ExpressionEvaluationTester.result i))
  ++ str ")" ++ nl.

(** The body of the loop of [testExpressions] for the entry [i]. *)
Definition testEntry (i : Tester) : P unit :=
  let buf := ExpressionEvaluationTester.buffer i in
  lift (setBuffer buf) ;;;
  tree <- parseExpression (parseFuel (length buf)) ;;
  let result := evaluateConstantExpressionTree tree in
  lift (printf (testLine i result)) ;;;
  lift (destroyExpressionTreeWithChildren tree).

(** [for (auto& i : table) ...] *)
Fixpoint testTable (table : list Tester) : P unit :=
  match table with
  | [] => pret tt
  | i :: rest => testEntry i ;;; testTable rest
  end.

Definition testExpressions : P unit := testTable evaluations.

(** [main]: the exit status. *)
Definition main : P Z := testExpressions ;;; pret 0.

(** What the entry [i] adds to the output: the lines of the parse, then the
    verdict. *)
Definition report (i : Tester) : list (list ascii) :=
  match parse (ExpressionEvaluationTester.buffer i) with
  | Some (tree, w) =>
      stdout w ++ [testLine i (evaluateConstantExpressionTree tree)]
  | None => []
  end.

(** ** Definitions used by the further statements *)

(** Both indices of the scanner are within the buffer. *)
Definition inBounds (w : World) : Prop :=
  (currentCharacterIndex (s w) <= length (buffer (s w)))%nat /\
  (nextCharacterIndex (s w) <= length (buffer (s w)))%nat.

(** What a parsing call keeps: every node it allocated and did not delete
    is in the tree it returns, and the indices stay within the buffer. *)
Definition keeps (parser : nat -> P Tree) (fuel : nat) : Prop :=
  forall w r, parser fuel w = Some r ->
              liveNodes (snd r) = liveNodes w + nodes (fst r) /\
              (inBounds w -> inBounds (snd r)).

(** The world [w] with [out] printed before and [live] more nodes
    allocated. *)
Definition shift (out : list (list ascii)) (live : Z) (w : World) : World :=
  mkWorld (s w) (out ++ stdout w) (live + liveNodes w).

(** A computation that treats what was printed and allocated before it as
    a frame. *)
Definition Mframed {A : Type} (m : M A) : Prop :=
  forall out live w,
    m (shift out live w) = (fst (m w), shift out live (snd (m w))).

Definition Pframed {A : Type} (p : P A) : Prop :=
  forall out live w,
    p (shift out live w)
    = option_map (fun r => (fst r, shift out live (snd r))) (p w).

(** The world [w] with a different [nextCharacterIndex]. *)
Definition staleNext (nx : nat) (w : World) : World :=
  mkWorld (setNext nx (s w)) (stdout w) (liveNodes w).

(** Two results that agree up to [nextCharacterIndex]. *)
Definition agree {A : Type} (nx : nat) (r1 r2 : option (A * World)) : Prop :=
  match r1, r2 with
  | Some (a1, w1), Some (a2, w2) =>
      a1 = a2 /\ (w2 = w1 \/ w2 = staleNext nx w1)
  | None, None => True
  | _, _ => False
  end.

Definition Mstale {A : Type} (m : M A) : Prop :=
  forall nx w, m (staleNext nx w) = (fst (m w), staleNext nx (snd (m w))).

Definition Pstale {A : Type} (p : P A) : Prop :=
  forall nx w, agree nx (p w) (p (staleNext nx w)).


(** The tree of a chain whose first operand has the tree [a] and whose
    other operands are [rest]. *)
Definition treeMwith (a : Tree) (rest : MulE) : Tree :=
  match rest with
  | MOne p2 => bin TOKEN_TYPE_MUL a (treeP p2)
  | MCons p2 _ rest' =>
      bin TOKEN_TYPE_MUL (bin TOKEN_TYPE_MUL a (treeP p2)) (treeM rest')
  end.

Definition treeAwith (a : Tree) (op : AddOp) (rest : AddE) : Tree :=
  match rest with
  | AOne m2 => bin (addOpType op) a (treeM m2)
  | ACons m2 _ op2 rest' =>
      bin (addOpType op2) (bin (addOpType op) a (treeM m2)) (treeA rest')
  end.

Definition isAdd (op : AddOp) : bool :=
  match op with OpAdd => true | OpSub => false end.

Definition isLast (e : AddE) : bool :=
  match e with AOne _ => true | ACons _ _ _ _ => false end.

(** The chains whose grouping by the parser does not change the value:
    every multiplicative chain, and the additive chains in which every
    operator at an even place (the second, the fourth, ...) is '+' or is
    the last operator of the chain; at every depth of parentheses.
    [regularTail e] is the condition on [e] as what follows the first
    operand of a chain. *)
Fixpoint regularP (p : Prim) : bool :=
  match p with
  | PInt _ _ => true
  | PParen _ e _ => regularA e
  end
with regularM (m : MulE) : bool :=
  match m with
  | MOne p => regularP p
  | MCons p _ rest => regularP p && regularM rest
  end
with regularA (e : AddE) : bool :=
  match e with
  | AOne m => regularM m
  | ACons m _ _ rest => regularM m && regularTail rest
  end
with regularTail (e : AddE) : bool :=
  match e with
  | AOne m => regularM m
  | ACons m _ op2 rest' =>
      regularM m && (isAdd op2 || isLast rest') && regularA rest'
  end.

(** The text "2 * 3 * 4 * 5 - 1 + 2 + 3 - 4". *)
Definition exprLongChains : AddE :=
  ACons (MCons (num "2") (str " ")
               (MCons (num_ "3") (str " ")
                      (MCons (num_ "4") (str " ") (MOne (num_ "5")))))
        (str " ") OpSub
        (ACons (MOne (num_ "1")) (str " ") OpAdd
               (ACons (MOne (num_ "2")) (str " ") OpAdd
                      (ACons (MOne (num_ "3")) (str " ") OpSub
                             (AOne (MOne (num_ "4")))))).

(** The trees that the parser builds: null children, Literal nodes with an
    Integer token whose text is a run of digits, Binary nodes tagged '+',
    '-' or '*', and no Unary node. *)
Fixpoint fromParser (t : Tree) : bool :=
  match t with
  | nullptr => true
  | LiteralTree tok =>
      TokenType_eqb (type tok) TOKEN_TYPE_INTEGER && isDigits (name tok)
  | UnaryExpressionTree _ _ => false
  | BinaryExpressionTree op l r =>
      ((op =? TokenType_to_int TOKEN_TYPE_ADD)
       || (op =? TokenType_to_int TOKEN_TYPE_MINUS)
       || (op =? TokenType_to_int TOKEN_TYPE_MUL))
      && fromParser l && fromParser r
  end.

Definition shaped (parser : nat -> P Tree) (fuel : nat) : Prop :=
  forall w r, parser fuel w = Some r -> fromParser (fst r) = true.

(** The expression written without any blank space. *)
Fixpoint stripP (p : Prim) : Prim :=
  match p with
  | PInt _ ds => PInt [] ds
  | PParen _ e _ => PParen [] (stripA e) []
  end
with stripM (m : MulE) : MulE :=
  match m with
  | MOne p => MOne (stripP p)
  | MCons p _ rest => MCons (stripP p) [] (stripM rest)
  end
with stripA (e : AddE) : AddE :=
  match e with
  | AOne m => AOne (stripM m)
  | ACons m _ op rest => ACons (stripM m) [] op (stripA rest)
  end.

(** The lines that [peekToken] prints at index [i] of [buf]. *)
Definition linesAt (buf : list ascii) (i : nat) : list (list ascii) :=
  snd (Scanner_peekToken (mkScanner buf i 0)).

(** A parsing function prints nothing on the text of a well-formed
    expression, when the peek at the token after the text prints nothing. *)
Definition quietP (fuel : nat) : Prop :=
  forall p pre post buf i w r,
    wfP p = true -> delimited post = true ->
    buf = pre ++ renderP p ++ post -> i = length pre -> atPos buf i w ->
    parsePrimary fuel w = Some r ->
    stdout (snd r) = stdout w.

Definition quietM (fuel : nat) : Prop :=
  forall m pre post buf i w r,
    wfM m = true -> delimited post = true ->
    matchFactor (tokenAt buf (i + length (renderM m))) = false ->
    linesAt buf (i + length (renderM m)) = [] ->
    buf = pre ++ renderM m ++ post -> i = length pre -> atPos buf i w ->
    parseMultiplicativeExpression fuel w = Some r ->
    stdout (snd r) = stdout w.

Definition quietA (fuel : nat) : Prop :=
  forall e pre post buf i w r,
    wfA e = true -> delimited post = true ->
    matchFactor (tokenAt buf (i + length (renderA e))) = false ->
    matchTerm (tokenAt buf (i + length (renderA e))) = false ->
    linesAt buf (i + length (renderA e)) = [] ->
    buf = pre ++ renderA e ++ post -> i = length pre -> atPos buf i w ->
    parseAdditiveExpression fuel w = Some r ->
    stdout (snd r) = stdout w.

Definition quietE (fuel : nat) : Prop :=
  forall e pre post buf i w r,
    wfA e = true -> delimited post = true ->
    matchFactor (tokenAt buf (i + length (renderA e))) = false ->
    matchTerm (tokenAt buf (i + length (renderA e))) = false ->
    linesAt buf (i + length (renderA e)) = [] ->
    buf = pre ++ renderA e ++ post -> i = length pre -> atPos buf i w ->
    parseExpression fuel w = Some r ->
    stdout (snd r) = stdout w.

(** * Properties *)

(** ** Characters *)

Lemma intToChar_charToInt (a : ascii) : intToChar (charToInt a) = a.
Proof. destruct a as [[] [] [] [] [] [] [] []]; reflexivity. Qed.

Lemma charToInt_code (a : ascii) : 0 <= charToInt a -> charToInt a = code a.
Proof. destruct a as [[] [] [] [] [] [] [] []]; vm_compute; congruence. Qed.

Lemma digit_code (a : ascii) :
  beginsWithDigit (charToInt a) = true -> charToInt a = code a.
Proof.
  intros H. apply charToInt_code.
  unfold beginsWithDigit in H. apply andb_prop in H as [H _].
  apply Z.leb_le in H. change (code "0") with 48 in H. lia.
Qed.

(** ** Reading characters *)

Lemma getCharacter_app (pre post : list ascii) (nx : nat) :
  getCharacter (mkScanner (pre ++ post) (length pre) nx) = headChar post.
Proof.
  unfold getCharacter; cbn [buffer currentCharacterIndex].
  rewrite length_app.
  destruct post as [|a post]; cbn [length headChar].
  - rewrite Nat.add_0_r, Nat.leb_refl. reflexivity.
  - destruct (Nat.leb_spec (length pre + S (length post)) (length pre)); [lia|].
    rewrite nth_error_app2, Nat.sub_diag by lia. reflexivity.
Qed.

Lemma getCharacter_end (sc : Scanner) :
  (length (buffer sc) <= currentCharacterIndex sc)%nat -> getCharacter sc = 0.
Proof.
  intros H. unfold getCharacter.
  destruct (Nat.leb_spec (length (buffer sc)) (currentCharacterIndex sc));
    [reflexivity | lia].
Qed.

Lemma getCharacter_inside (sc : Scanner) :
  getCharacter sc <> 0 -> (currentCharacterIndex sc < length (buffer sc))%nat.
Proof.
  intros H.
  destruct (Nat.lt_ge_cases (currentCharacterIndex sc) (length (buffer sc)))
    as [Hlt | Hge]; [exact Hlt | now rewrite getCharacter_end in H].
Qed.

(** ** The loops of [peekToken] *)

Lemma advanceChar_inSync (st : Locals) : inSync (advanceChar st).
Proof. reflexivity. Qed.

Lemma appendDigit_inSync (st : Locals) : inSync (appendDigit st).
Proof. reflexivity. Qed.

(** With as much fuel as there are unread characters a loop stops because
    its condition is false, not because the fuel is spent. *)
Lemma while_exit (cond : Character -> bool) (body : Locals -> Locals) :
  cond 0 = false ->
  (forall st, inSync (body st)) ->
  (forall st, buffer (l_s (body st)) = buffer (l_s st)) ->
  (forall st, currentCharacterIndex (l_s (body st))
              = S (currentCharacterIndex (l_s st))) ->
  forall fuel st,
    inSync st ->
    (length (buffer (l_s st)) - currentCharacterIndex (l_s st) <= fuel)%nat ->
    cond (l_c (while (fun st => cond (l_c st)) body fuel st)) = false.
Proof.
  intros H0 Hsync Hbuf Hidx fuel.
  induction fuel as [|fuel IH]; intros st Hst Hfuel; cbn [while].
  - rewrite Hst, getCharacter_end by lia. exact H0.
  - destruct (cond (l_c st)) eqn:Hc; [|exact Hc].
    assert (Hin : (currentCharacterIndex (l_s st) < length (buffer (l_s st)))%nat).
    { apply getCharacter_inside. rewrite <- Hst. intros E. congruence. }
    apply IH; [apply Hsync|]. rewrite Hbuf, Hidx. lia.
Qed.

(** The three loops of [peekToken] get [buffer.length()] as fuel, which is
    enough for each of them. *)
Lemma skip_loops_complete (cond : Character -> bool) (st : Locals) :
  cond 0 = false -> inSync st ->
  cond (l_c (while (fun st => cond (l_c st)) advanceChar
                   (length (buffer (l_s st))) st)) = false.
Proof.
  intros H0 Hst.
  apply (while_exit cond advanceChar H0 advanceChar_inSync); auto; try lia.
  intros st'. cbn. lia.
Qed.

Lemma digit_loop_complete (st : Locals) :
  inSync st ->
  beginsWithDigit
    (l_c (while (fun st => beginsWithDigit (l_c st)) appendDigit
                (length (buffer (l_s st))) st)) = false.
Proof.
  intros Hst.
  apply (while_exit beginsWithDigit appendDigit eq_refl appendDigit_inSync);
    auto; try lia.
  intros st'. cbn. lia.
Qed.

(** The loops only move the cursor forward and keep the buffer. *)
Lemma while_frame (cond : Locals -> bool) (body : Locals -> Locals) :
  (forall st, buffer (l_s (body st)) = buffer (l_s st)) ->
  (forall st, nextCharacterIndex (l_s (body st)) = nextCharacterIndex (l_s st)) ->
  (forall st, currentCharacterIndex (l_s (body st))
              = S (currentCharacterIndex (l_s st))) ->
  forall fuel st,
    buffer (l_s (while cond body fuel st)) = buffer (l_s st) /\
    nextCharacterIndex (l_s (while cond body fuel st)) = nextCharacterIndex (l_s st) /\
    (currentCharacterIndex (l_s st)
     <= currentCharacterIndex (l_s (while cond body fuel st)))%nat.
Proof.
  intros Hbuf Hnx Hidx fuel.
  induction fuel as [|fuel IH]; intros st; cbn [while].
  - auto.
  - destruct (cond st); [|auto].
    destruct (IH (body st)) as (IH1 & IH2 & IH3).
    rewrite Hbuf, Hnx, Hidx in *. repeat split; auto; lia.
Qed.

Lemma advanceChar_buffer st : buffer (l_s (advanceChar st)) = buffer (l_s st).
Proof. reflexivity. Qed.
Lemma advanceChar_next st :
  nextCharacterIndex (l_s (advanceChar st)) = nextCharacterIndex (l_s st).
Proof. reflexivity. Qed.
Lemma advanceChar_index st :
  currentCharacterIndex (l_s (advanceChar st)) = S (currentCharacterIndex (l_s st)).
Proof. cbn. lia. Qed.
Lemma appendDigit_buffer st : buffer (l_s (appendDigit st)) = buffer (l_s st).
Proof. reflexivity. Qed.
Lemma appendDigit_next st :
  nextCharacterIndex (l_s (appendDigit st)) = nextCharacterIndex (l_s st).
Proof. reflexivity. Qed.
Lemma appendDigit_index st :
  currentCharacterIndex (l_s (appendDigit st)) = S (currentCharacterIndex (l_s st)).
Proof. cbn. lia. Qed.

(** A loop over [advanceChar] skips a run of characters that satisfy its
    condition and stops in front of the first one that does not. *)
Lemma while_skip (cond : Character -> bool) :
  forall run pre post t nx fuel,
    forallb (fun a => cond (charToInt a)) run = true ->
    cond (headChar post) = false ->
    (length run <= fuel)%nat ->
    while (fun st => cond (l_c st)) advanceChar fuel
          (mkLocals t (headChar (run ++ post))
                    (mkScanner (pre ++ run ++ post) (length pre) nx))
    = mkLocals t (headChar post)
               (mkScanner (pre ++ run ++ post) (length pre + length run) nx).
Proof.
  induction run as [|a run IH]; intros pre post t nx fuel Hrun Hpost Hfuel.
  - cbn [app length]. rewrite Nat.add_0_r.
    destruct fuel; cbn [while l_c]; [reflexivity | now rewrite Hpost].
  - cbn [forallb] in Hrun. apply andb_prop in Hrun as [Ha Hrun].
    destruct fuel as [|fuel]; cbn [length] in Hfuel; [lia|].
    cbn [while l_c app headChar]. rewrite Ha.
    unfold advanceChar, incrementPosition;
      cbn [l_s l_t buffer currentCharacterIndex nextCharacterIndex].
    replace (pre ++ a :: run ++ post) with ((pre ++ [a]) ++ run ++ post)
      by now rewrite <- app_assoc.
    replace (length pre + 1)%nat with (length (pre ++ [a]))
      by (rewrite length_app; reflexivity).
    rewrite getCharacter_app.
    rewrite IH by (auto; lia).
    cbn [length]. rewrite length_app. cbn [length].
    f_equal. f_equal. lia.
Qed.

(** The digit loop appends the run of digits to the name of the token. *)
Lemma while_digits :
  forall run pre post nm ty nx fuel,
    forallb (fun a => beginsWithDigit (charToInt a)) run = true ->
    beginsWithDigit (headChar post) = false ->
    (length run <= fuel)%nat ->
    while (fun st => beginsWithDigit (l_c st)) appendDigit fuel
          (mkLocals (mkToken nm ty) (headChar (run ++ post))
                    (mkScanner (pre ++ run ++ post) (length pre) nx))
    = mkLocals (mkToken (nm ++ run) ty) (headChar post)
               (mkScanner (pre ++ run ++ post) (length pre + length run) nx).
Proof.
  induction run as [|a run IH]; intros pre post nm ty nx fuel Hrun Hpost Hfuel.
  - cbn [app length]. rewrite Nat.add_0_r, app_nil_r.
    destruct fuel; cbn [while l_c]; [reflexivity | now rewrite Hpost].
  - cbn [forallb] in Hrun. apply andb_prop in Hrun as [Ha Hrun].
    destruct fuel as [|fuel]; cbn [length] in Hfuel; [lia|].
    cbn [while l_c app headChar]. rewrite Ha.
    unfold appendDigit, advanceChar, incrementPosition;
      cbn [l_s l_t l_c name type buffer currentCharacterIndex nextCharacterIndex].
    rewrite intToChar_charToInt.
    replace (pre ++ a :: run ++ post) with ((pre ++ [a]) ++ run ++ post)
      by now rewrite <- app_assoc.
    replace (length pre + 1)%nat with (length (pre ++ [a]))
      by (rewrite length_app; reflexivity).
    rewrite getCharacter_app.
    rewrite IH by (auto; lia).
    cbn [length]. rewrite length_app, <- app_assoc. cbn [length app].
    f_equal. f_equal. lia.
Qed.

(** ** Character classes as ranges *)

Lemma beginsWithDigit_eq c : beginsWithDigit c = (48 <=? c) && (c <=? 57).
Proof. reflexivity. Qed.

Lemma isTrailing_eq c :
  isTrailing c =
  (((97 <=? c) && (c <=? 122)) || ((65 <=? c) && (c <=? 90)) || (c =? 95)
   || ((48 <=? c) && (c <=? 57))) || (c =? 46).
Proof. reflexivity. Qed.

Ltac zbools :=
  repeat match goal with
         | H : context [Z.leb _ _] |- _ => revert H
         | H : context [Z.eqb _ _] |- _ => revert H
         end;
  repeat (match goal with
          | |- context [Z.leb ?a ?b] => destruct (Z.leb_spec a b)
          | |- context [Z.eqb ?a ?b] => destruct (Z.eqb_spec a b)
          end; try lia);
  cbn [andb orb negb]; intros; try reflexivity; try discriminate; try lia.

(** From a fact about the class of [c] to the classes it excludes. *)
Ltac classes :=
  unfold delimited in *;
  rewrite ?isTrailing_eq, ?beginsWithDigit_eq in *;
  unfold isprint, isspace in *; zbools.

Lemma digit_classes c :
  beginsWithDigit c = true ->
  (c =? 0) = false /\ isprint c = true /\ isspace c = false.
Proof. intros H. repeat split; classes. Qed.

Lemma symbolType_classes a ty :
  symbolType a = Some ty ->
  (charToInt a =? 0) = false /\ isprint (charToInt a) = true /\
  isspace (charToInt a) = false /\ beginsWithDigit (charToInt a) = false.
Proof.
  unfold symbolType. change (code "+") with 43. change (code "-") with 45.
  change (code "*") with 42. change (code "(") with 40. change (code ")") with 41.
  intros H. repeat split; classes.
Qed.

Lemma blank_spaces ws :
  blank ws = true -> forallb (fun a => isspace (charToInt a)) ws = true.
Proof.
  destruct ws as [|a ws]; [reflexivity|]. cbn [blank forallb].
  intros H. apply andb_prop in H as [Ha Hws]. rewrite Hws, andb_true_r.
  classes.
Qed.

(** The first character of a token after blank space is printable and not
    the end of the buffer. *)
Lemma blank_head ws rest :
  blank ws = true ->
  (headChar rest =? 0) = false -> isprint (headChar rest) = true ->
  (headChar (ws ++ rest) =? 0) = false /\ isprint (headChar (ws ++ rest)) = true.
Proof.
  destruct ws as [|a ws]; [auto|]. cbn [blank app headChar].
  intros H _ _. apply andb_prop in H as [Ha _]. split; classes.
Qed.

Lemma isDigits_inv ds :
  isDigits ds = true ->
  forallb (fun a => beginsWithDigit (charToInt a)) ds = true /\
  beginsWithDigit (headChar ds) = true.
Proof.
  destruct ds as [|a ds]; [discriminate|]. unfold isDigits. intros H.
  split; [exact H|]. cbn [forallb] in H. now apply andb_prop in H as [Ha _].
Qed.

Lemma headChar_app ds post : ds <> [] -> headChar (ds ++ post) = headChar ds.
Proof. destruct ds; [congruence | reflexivity]. Qed.

Lemma isDigits_nonempty ds : isDigits ds = true -> ds <> [].
Proof. destruct ds; [discriminate | congruence]. Qed.

(** ** What [peekToken] returns *)

(** A literal: blank space, a run of digits, and then no letter, digit,
    underscore or '.'. *)
Lemma scan_digits pre ws ds post nx :
  blank ws = true -> isDigits ds = true -> delimited post = true ->
  Scanner_peekToken (mkScanner (pre ++ ws ++ ds ++ post) (length pre) nx)
  = (mkToken ds TOKEN_TYPE_INTEGER,
     mkScanner (pre ++ ws ++ ds ++ post) (length pre)
               (length pre + length ws + length ds),
     []).
Proof.
  intros Hws Hds Hpost.
  destruct (isDigits_inv ds Hds) as [Hall Hhd].
  pose proof (isDigits_nonempty ds Hds) as Hne.
  rewrite <- (headChar_app ds post Hne) in Hhd.
  destruct (digit_classes _ Hhd) as (Hnz & Hpr & Hsp).
  destruct (blank_head ws (ds ++ post) Hws Hnz Hpr) as [Hnz' Hpr'].
  unfold Scanner_peekToken. cbn [currentCharacterIndex buffer].
  rewrite getCharacter_app, Hnz', Hpr'. cbn [negb].
  rewrite (while_skip isspace ws pre (ds ++ post));
    [| now apply blank_spaces | exact Hsp | rewrite !length_app; lia].
  cbn [l_c l_t l_s name]. rewrite Hhd.
  replace (pre ++ ws ++ ds ++ post) with ((pre ++ ws) ++ ds ++ post)
    by now rewrite <- app_assoc.
  replace (length pre + length ws)%nat with (length (pre ++ ws))
    by now rewrite length_app.
  assert (Hd : beginsWithDigit (headChar post) = false) by classes.
  rewrite (while_digits ds (pre ++ ws) post);
    [| exact Hall | exact Hd | rewrite !length_app; lia].
  cbn [l_c l_t l_s app].
  assert (Ht : isTrailing (headChar post) = false)
    by (unfold delimited in Hpost; now destruct (isTrailing (headChar post))).
  rewrite Ht. cbn [l_t l_s buffer currentCharacterIndex].
  reflexivity.
Qed.

(** A one-character token after blank space. *)
Lemma scan_symbol pre ws a ty post nx :
  blank ws = true -> symbolType a = Some ty ->
  Scanner_peekToken (mkScanner (pre ++ ws ++ a :: post) (length pre) nx)
  = (mkToken [a] ty,
     mkScanner (pre ++ ws ++ a :: post) (length pre)
               (length pre + length ws + 1),
     []).
Proof.
  intros Hws Hty.
  destruct (symbolType_classes a ty Hty) as (Hnz & Hpr & Hsp & Hdg).
  change (charToInt a) with (headChar (a :: post)) in Hnz, Hpr, Hsp, Hdg.
  destruct (blank_head ws (a :: post) Hws Hnz Hpr) as [Hnz' Hpr'].
  unfold Scanner_peekToken. cbn [currentCharacterIndex buffer].
  rewrite getCharacter_app, Hnz', Hpr'. cbn [negb].
  rewrite (while_skip isspace ws pre (a :: post));
    [| now apply blank_spaces | exact Hsp | rewrite !length_app; lia].
  cbn [l_c l_t l_s name]. rewrite Hdg.
  cbn [headChar]. rewrite intToChar_charToInt.
  unfold symbolType in Hty.
  repeat match type of Hty with
         | (if ?b then _ else _) = _ => destruct b
         end; try discriminate; injection Hty as <-;
    cbn [l_t l_s incrementPosition buffer currentCharacterIndex
         nextCharacterIndex]; reflexivity.
Qed.

(** ** [peekToken] does not depend on [nextCharacterIndex] *)

Lemma while_commute {St : Type} (f : St -> St) (cond : St -> bool)
      (body : St -> St) :
  (forall st, cond (f st) = cond st) ->
  (forall st, body (f st) = f (body st)) ->
  forall fuel st, while cond body fuel (f st) = f (while cond body fuel st).
Proof.
  intros Hc Hb fuel. induction fuel as [|fuel IH]; intros st; cbn [while].
  - reflexivity.
  - rewrite Hc. destruct (cond st); [|reflexivity]. now rewrite Hb, IH.
Qed.

Lemma scan_setNext (sc : Scanner) (nx : nat) :
  fst (fst (Scanner_peekToken (setNext nx sc))) = fst (fst (Scanner_peekToken sc))
  /\ snd (Scanner_peekToken (setNext nx sc)) = snd (Scanner_peekToken sc).
Proof.
  unfold Scanner_peekToken.
  change (getCharacter (setNext nx sc)) with (getCharacter sc).
  change (buffer (setNext nx sc)) with (buffer sc).
  destruct (getCharacter sc =? 0); [split; reflexivity|].
  destruct (negb (isprint (getCharacter sc))); [split; reflexivity|].
  change (mkLocals (mkToken [] TOKEN_TYPE_NULL) (getCharacter sc) (setNext nx sc))
    with (liftNext nx (mkLocals (mkToken [] TOKEN_TYPE_NULL) (getCharacter sc) sc)).
  rewrite (while_commute (liftNext nx)) by reflexivity.
  set (st1 := while _ advanceChar _ _).
  change (l_c (liftNext nx st1)) with (l_c st1).
  destruct (beginsWithDigit (l_c st1)).
  - change (mkLocals (mkToken (name (l_t (liftNext nx st1))) TOKEN_TYPE_INTEGER)
                     (l_c st1) (l_s (liftNext nx st1)))
      with (liftNext nx (mkLocals (mkToken (name (l_t st1)) TOKEN_TYPE_INTEGER)
                                  (l_c st1) (l_s st1))).
    rewrite (while_commute (liftNext nx)) by reflexivity.
    set (st2 := while _ appendDigit _ _).
    change (l_c (liftNext nx st2)) with (l_c st2).
    destruct (isTrailing (l_c st2)).
    + rewrite (while_commute (liftNext nx)) by reflexivity.
      split; reflexivity.
    + split; reflexivity.
  - repeat match goal with
           | |- context [if ?b then _ else _] => destruct b
           end; split; reflexivity.
Qed.

Lemma scan_token_at buf i nx :
  fst (fst (Scanner_peekToken (mkScanner buf i nx))) = tokenAt buf i.
Proof.
  unfold tokenAt.
  exact (proj1 (scan_setNext (mkScanner buf i 0) nx)).
Qed.

(** The frame of a call: the buffer and the committed index stay. *)
Lemma scan_frame (sc : Scanner) :
  buffer (snd (fst (Scanner_peekToken sc))) = buffer sc /\
  currentCharacterIndex (snd (fst (Scanner_peekToken sc)))
  = currentCharacterIndex sc.
Proof.
  unfold Scanner_peekToken.
  destruct (getCharacter sc =? 0); [split; reflexivity|].
  destruct (negb (isprint (getCharacter sc))); [split; reflexivity|].
  set (st1 := while _ advanceChar _ _).
  assert (H1 : buffer (l_s st1) = buffer sc).
  { apply (while_frame _ advanceChar advanceChar_buffer advanceChar_next
                       advanceChar_index). }
  destruct (beginsWithDigit (l_c st1)).
  - set (st2 := while _ appendDigit _ _).
    assert (H2 : buffer (l_s st2) = buffer sc).
    { unfold st2.
      rewrite (proj1 (while_frame _ appendDigit appendDigit_buffer
                                  appendDigit_next appendDigit_index _ _)).
      exact H1. }
    destruct (isTrailing (l_c st2)); cbn [fst snd buffer currentCharacterIndex].
    + rewrite (proj1 (while_frame _ advanceChar advanceChar_buffer
                                  advanceChar_next advanceChar_index _ _)).
      auto.
    + auto.
  - repeat match goal with
           | |- context [if ?b then _ else _] => destruct b
           end; cbn [fst snd buffer currentCharacterIndex l_s incrementPosition];
      auto.
Qed.

(** A token other than TOKEN_TYPE_NULL is at least one character long, and
    [nextCharacterIndex] is set past it. *)
Lemma scan_progress (sc : Scanner) :
  type (fst (fst (Scanner_peekToken sc))) <> TOKEN_TYPE_NULL ->
  (currentCharacterIndex sc
   < nextCharacterIndex (snd (fst (Scanner_peekToken sc))))%nat /\
  (currentCharacterIndex sc < length (buffer sc))%nat.
Proof.
  unfold Scanner_peekToken.
  destruct (getCharacter sc =? 0) eqn:Hz; [cbn; congruence|].
  destruct (negb (isprint (getCharacter sc))); [cbn; congruence|].
  assert (Hin : (currentCharacterIndex sc < length (buffer sc))%nat).
  { apply getCharacter_inside. intros E. rewrite E in Hz. discriminate. }
  pose proof (proj2 (proj2 (while_frame (fun st => isspace (l_c st))
                advanceChar advanceChar_buffer advanceChar_next
                advanceChar_index (length (buffer sc))
                (mkLocals (mkToken [] TOKEN_TYPE_NULL) (getCharacter sc) sc))))
    as H1.
  cbn [l_s] in H1.
  set (st1 := while _ advanceChar _ _) in *.
  destruct (beginsWithDigit (l_c st1)) eqn:Hd.
  - intros _. split; [|exact Hin].
    set (st2 := while _ appendDigit _ _).
    assert (H2 : (S (currentCharacterIndex (l_s st1))
                  <= currentCharacterIndex (l_s st2))%nat).
    { unfold st2. destruct (length (buffer sc)) as [|n]; [lia|].
      cbn [while l_c]. rewrite Hd.
      etransitivity;
        [| exact (proj2 (proj2 (while_frame _ appendDigit appendDigit_buffer
                                  appendDigit_next appendDigit_index _ _)))].
      rewrite appendDigit_index. cbn. lia. }
    destruct (isTrailing (l_c st2));
      cbn [fst snd nextCharacterIndex]; [|lia].
    pose proof (proj2 (proj2 (while_frame (fun st => isTrailing (l_c st))
                  advanceChar advanceChar_buffer advanceChar_next
                  advanceChar_index (length (buffer sc)) st2))) as H3.
    lia.
  - repeat match goal with
           | |- context [if ?b then _ else _] => destruct b
           end;
      cbn [fst snd nextCharacterIndex type l_t l_s incrementPosition
           currentCharacterIndex];
      intros Hty; try congruence; split; lia.
Qed.

(** ** The calls on the global scanner *)

Lemma peekToken_token w buf i :
  atPos buf i w -> fst (peekToken w) = tokenAt buf i.
Proof.
  intros [Hb Hi]. unfold peekToken.
  destruct w as [[b j nx] out live]; cbn in Hb, Hi; subst b j.
  cbn [s]. rewrite <- (scan_token_at buf i nx).
  destruct (Scanner_peekToken (mkScanner buf i nx)) as [[t sc] lines].
  reflexivity.
Qed.

Lemma peekToken_atPos w buf i :
  atPos buf i w -> atPos buf i (snd (peekToken w)).
Proof.
  intros [Hb Hi]. unfold peekToken, atPos.
  pose proof (scan_frame (s w)) as [Fb Fi].
  destruct (Scanner_peekToken (s w)) as [[t sc] lines].
  cbn [fst snd s] in *. split; congruence.
Qed.

Lemma peekToken_progress w :
  type (fst (peekToken w)) <> TOKEN_TYPE_NULL ->
  (currentCharacterIndex (s w) < nextCharacterIndex (s (snd (peekToken w))))%nat
  /\ (currentCharacterIndex (s w) < length (buffer (s w)))%nat.
Proof.
  unfold peekToken. pose proof (scan_progress (s w)) as H.
  destruct (Scanner_peekToken (s w)) as [[t sc] lines]. exact H.
Qed.

Lemma peek_digits_at w buf pre ws ds post :
  buf = pre ++ ws ++ ds ++ post -> atPos buf (length pre) w ->
  blank ws = true -> isDigits ds = true -> delimited post = true ->
  fst (peekToken w) = mkToken ds TOKEN_TYPE_INTEGER /\
  atPos buf (length pre) (snd (peekToken w)) /\
  nextCharacterIndex (s (snd (peekToken w)))
  = (length pre + length ws + length ds)%nat.
Proof.
  intros -> [Hb Hi] Hws Hds Hpost.
  destruct w as [[b j nx] out live]; cbn in Hb, Hi; subst b j.
  unfold peekToken, atPos. cbn [s].
  rewrite scan_digits by assumption. cbn. auto.
Qed.

Lemma peek_symbol_at w buf pre ws a ty post :
  buf = pre ++ ws ++ a :: post -> atPos buf (length pre) w ->
  blank ws = true -> symbolType a = Some ty ->
  fst (peekToken w) = mkToken [a] ty /\
  atPos buf (length pre) (snd (peekToken w)) /\
  nextCharacterIndex (s (snd (peekToken w))) = (length pre + length ws + 1)%nat.
Proof.
  intros -> [Hb Hi] Hws Hty.
  destruct w as [[b j nx] out live]; cbn in Hb, Hi; subst b j.
  unfold peekToken, atPos. cbn [s].
  rewrite (scan_symbol pre ws a ty post nx Hws Hty). cbn. auto.
Qed.

(** ** The parser on well-formed texts *)

Ltac norm_lists :=
  cbn [renderP renderM renderA];
  repeat first [rewrite <- app_assoc | progress cbn [app]]; reflexivity.

Ltac idx :=
  cbn [renderP renderM renderA]; rewrite ?length_app; cbn [length];
  rewrite ?length_app; cbn [length]; lia.

Lemma tokenAt_symbol buf pre ws a ty post i :
  buf = pre ++ ws ++ a :: post -> i = length pre ->
  blank ws = true -> symbolType a = Some ty ->
  tokenAt buf i = mkToken [a] ty.
Proof.
  intros -> -> Hws Hty. unfold tokenAt.
  now rewrite (scan_symbol pre ws a ty post 0 Hws Hty).
Qed.

Lemma delimited_symbol ws a ty post :
  blank ws = true -> symbolType a = Some ty -> delimited (ws ++ a :: post) = true.
Proof.
  intros Hws Hty. destruct (symbolType_classes a ty Hty) as (Hnz & Hpr & Hsp & Hdg).
  unfold symbolType in Hty.
  change (code "+") with 43 in Hty. change (code "-") with 45 in Hty.
  change (code "*") with 42 in Hty. change (code "(") with 40 in Hty.
  change (code ")") with 41 in Hty.
  destruct ws as [|b ws]; cbn [app headChar delimited].
  - unfold delimited. cbn [headChar]. classes.
  - cbn [blank] in Hws. apply andb_prop in Hws as [Hb _].
    unfold delimited. cbn [headChar]. clear Hty. classes.
Qed.

Lemma peek_symbol_i w buf i pre ws a ty post :
  buf = pre ++ ws ++ a :: post -> i = length pre -> atPos buf i w ->
  blank ws = true -> symbolType a = Some ty ->
  fst (peekToken w) = mkToken [a] ty /\
  atPos buf i (snd (peekToken w)) /\
  nextCharacterIndex (s (snd (peekToken w))) = (i + length ws + 1)%nat.
Proof.
  intros Hb -> Hat Hws Hty.
  exact (peek_symbol_at w buf pre ws a ty post Hb Hat Hws Hty).
Qed.

Lemma atPos_same buf i w w' :
  s w' = s w -> atPos buf i w -> atPos buf i w'.
Proof. unfold atPos. now intros ->. Qed.

Lemma atPos_nextToken buf i j w :
  atPos buf i w -> nextCharacterIndex (s w) = j ->
  atPos buf j (snd (nextToken w)).
Proof. intros [Hb _] Hn. unfold atPos. cbn. auto. Qed.

Lemma addOp_symbol op : symbolType (addOpChar op) = Some (addOpType op).
Proof. destruct op; reflexivity. Qed.

Ltac token_bools :=
  cbn [matchToken matchFactor matchTerm type TokenType_eqb TokenType_to_int
       Z.eqb Pos.eqb orb negb addOpType] in *.

Ltac side_delimited :=
  first [ assumption
        | apply (delimited_symbol _ "*"%char TOKEN_TYPE_MUL); [assumption | reflexivity]
        | apply (delimited_symbol _ ")"%char TOKEN_TYPE_RPAREN); [assumption | reflexivity]
        | eapply delimited_symbol; [eassumption | apply addOp_symbol] ].

Ltac side_buf Hbuf := rewrite Hbuf; norm_lists.
Ltac side_idx Hi := rewrite Hi; idx.

(* [peekToken w] in [H] reads the symbol [a] written after [ws] *)
Ltac peek_symbol H Hbuf Hi pre ws a ty post Hat w' Hat' Hnx' :=
  let Ht := fresh "Ht" in
  let tok := fresh "tok" in
  match type of Hat with
  | atPos ?buf ?i ?w =>
      destruct (peek_symbol_i w buf i pre ws a ty post
                  ltac:(side_buf Hbuf) ltac:(side_idx Hi) Hat
                  ltac:(assumption) ltac:(first [reflexivity | apply addOp_symbol]))
        as (Ht & Hat' & Hnx');
      destruct (peekToken w) as [tok w']; cbn [fst snd] in Ht, Hat', Hnx';
      subst tok
  end.

(* [peekToken w] in [H] reads the token after the expression *)
Ltac peek_follow H Hat w' Hat' :=
  let Ht := fresh "Ht" in
  let tok := fresh "tok" in
  match type of Hat with
  | atPos ?buf ?i ?w =>
      pose proof (peekToken_token w _ _ Hat) as Ht;
      pose proof (peekToken_atPos w _ _ Hat) as Hat';
      destruct (peekToken w) as [tok w']; cbn [fst snd] in Ht, Hat';
      subst tok
  end.

(* [nextToken] and the node constructors in [H] *)
Ltac run_next H Hat Hnx w' Hat' :=
  cbn [nextToken withScanner] in H;
  match type of H with
  | context [mkWorld (Scanner_nextToken (s ?w)) ?o ?l] =>
      pose proof (atPos_nextToken _ _ _ w Hat Hnx) as Hat';
      change (snd (nextToken w))
        with (mkWorld (Scanner_nextToken (s w)) o l) in Hat';
      set (w' := mkWorld (Scanner_nextToken (s w)) o l) in *
  end.

Ltac run_create H Hat w' Hat' :=
  cbn [createBinaryExpressionTree createLiteralTree bind new_node ret] in H;
  match type of Hat with
  | atPos ?buf ?i ?w =>
      match type of H with
      | context [mkWorld (s w) ?o ?l] =>
          pose proof (atPos_same buf i w (mkWorld (s w) o l) eq_refl Hat) as Hat';
          set (w' := mkWorld (s w) o l) in *
      end
  end.

Section Step.
Variable f : nat.
Hypothesis IHP : soundP f.
Hypothesis IHM : soundM f.
Hypothesis IHA : soundA f.
Hypothesis IHE : soundE f.

Lemma stepP : soundP (S f).
Proof.
  intros p pre post buf i w r Hwf Hpost Hbuf Hi Hat Hrun.
  cbn [parsePrimary] in Hrun. unfold pbind, lift in Hrun.
  destruct p as [ws ds | ws1 e ws2]; cbn [wfP] in Hwf.
  - apply andb_prop in Hwf as [Hws Hds].
    destruct (peek_digits_at w buf pre ws ds post) as (Ht & Hat1 & Hnx);
      try assumption; [subst; norm_lists | subst; exact Hat |].
    destruct (peekToken w) as [t w1]. cbn [fst snd] in *. subst t.
    cbn in Hrun. injection Hrun as <-. cbn [fst snd treeP]. split; [reflexivity|].
    destruct Hat1 as [Hb1 _]. unfold atPos. cbn. split; [exact Hb1|].
    rewrite Hnx. subst. idx.
  - apply andb_prop in Hwf as [Hwf Hws2]. apply andb_prop in Hwf as [Hws1 He].
    destruct (peek_symbol_at w buf pre ws1 "("%char TOKEN_TYPE_LPAREN
                (renderA e ++ ws2 ++ ")"%char :: post))
      as (Ht & Hat1 & Hnx); try assumption; try reflexivity;
      [subst; norm_lists | subst; exact Hat |].
    destruct (peekToken w) as [t w1]. cbn [fst snd] in *. subst t.
    cbn [matchToken type TokenType_eqb TokenType_to_int Z.eqb Pos.eqb] in Hrun.
    cbn [nextToken withScanner] in Hrun.
    set (w2 := mkWorld _ _ _) in Hrun.
    assert (Hat2 : atPos buf (length (pre ++ ws1 ++ ["("%char])) w2).
    { destruct Hat1 as [Hb1 _]. unfold atPos, w2. cbn. split; [exact Hb1|].
      rewrite Hnx. idx. }
    destruct (parseExpression f w2) as [[tree w3]|] eqn:HE; [|discriminate].
    assert (Hrp : tokenAt buf (length (pre ++ ws1 ++ ["("%char]) + length (renderA e))
                  = mkToken [")"%char] TOKEN_TYPE_RPAREN).
    { apply (tokenAt_symbol buf ((pre ++ ws1 ++ ["("%char]) ++ renderA e) ws2 _ _ post);
        try assumption; try reflexivity; [subst; norm_lists | idx]. }
    destruct (IHE e (pre ++ ws1 ++ ["("%char]) (ws2 ++ ")"%char :: post)
                  buf _ w2 _ He
                  (delimited_symbol ws2 ")"%char TOKEN_TYPE_RPAREN post Hws2 eq_refl)
                  ltac:(rewrite Hrp; reflexivity) ltac:(rewrite Hrp; reflexivity)
                  ltac:(subst; norm_lists) eq_refl Hat2 HE) as [Htree Hat3].
    cbn [fst snd] in Htree, Hat3. subst tree.
    destruct (peek_symbol_at w3 buf ((pre ++ ws1 ++ ["("%char]) ++ renderA e)
                ws2 ")"%char TOKEN_TYPE_RPAREN post)
      as (Ht & Hat4 & Hnx4); try assumption; try reflexivity;
      [subst; norm_lists | rewrite length_app; exact Hat3 |].
    destruct (peekToken w3) as [t w4]. cbn [fst snd] in *. subst t.
    cbn in Hrun. injection Hrun as <-. cbn [fst snd treeP]. split; [reflexivity|].
    destruct Hat4 as [Hb4 _]. unfold atPos. cbn. split; [exact Hb4|].
    rewrite Hnx4. subst. idx.
Qed.

Ltac call_primary H Hbuf Hi p pre post Hwf Hat tree w' Hat' :=
  let HP := fresh "HP" in
  let Ht := fresh "Ht" in
  match type of Hat with
  | atPos ?buf ?i ?w =>
      destruct (parsePrimary f w) as [[tree w']|] eqn:HP; [|discriminate];
      destruct (IHP p pre post buf i w _ Hwf
                    ltac:(side_delimited) ltac:(side_buf Hbuf)
                    ltac:(side_idx Hi) Hat HP)
        as [Ht Hat'];
      cbn [fst snd] in Ht, Hat'; subst tree
  end.

Lemma stepM : soundM (S f).
Proof.
  intros m pre post buf i w r Hwf Hpost Hnf Hbuf Hi Hat Hrun.
  cbn [parseMultiplicativeExpression] in Hrun. unfold pbind, lift in Hrun.
  destruct m as [p | p1 ws rest]; cbn [wfM] in Hwf.
  - call_primary Hrun Hbuf Hi p pre post Hwf Hat a w1 Hat1.
    peek_follow Hrun Hat1 w2 Hat2.
    cbn [renderM] in Hnf. rewrite Hnf in Hrun. injection Hrun as <-.
    split; [reflexivity | exact Hat2].
  - apply andb_prop in Hwf as [Hwf Hrest]. apply andb_prop in Hwf as [Hp1 Hws].
    call_primary Hrun Hbuf Hi p1 pre (ws ++ "*"%char :: renderM rest ++ post)
                 Hp1 Hat a w1 Hat1.
    peek_symbol Hrun Hbuf Hi (pre ++ renderP p1) ws "*"%char TOKEN_TYPE_MUL
                (renderM rest ++ post) Hat1 w2 Hat2 Hnx2.
    token_bools.
    run_next Hrun Hat2 Hnx2 w3 Hat3.
    destruct rest as [p2 | p2 ws' rest']; cbn [wfM] in Hrest.
    + call_primary Hrun Hbuf Hi p2 (pre ++ renderP p1 ++ ws ++ ["*"%char]) post
                   Hrest Hat3 b w4 Hat4.
      run_create Hrun Hat4 w5 Hat5.
      peek_follow Hrun Hat5 w6 Hat6.
      replace (i + length (renderM (MCons p1 ws (MOne p2))))%nat
        with (i + length (renderP p1) + length ws + 1 + length (renderP p2))%nat
        in * by idx.
      rewrite Hnf in Hrun. injection Hrun as <-.
      split; [reflexivity | exact Hat6].
    + apply andb_prop in Hrest as [Hrest Hrest'].
      apply andb_prop in Hrest as [Hp2 Hws'].
      call_primary Hrun Hbuf Hi p2 (pre ++ renderP p1 ++ ws ++ ["*"%char])
                   (ws' ++ "*"%char :: renderM rest' ++ post)
                   Hp2 Hat3 b w4 Hat4.
      run_create Hrun Hat4 w5 Hat5.
      peek_symbol Hrun Hbuf Hi
                  (pre ++ renderP p1 ++ ws ++ "*"%char :: renderP p2)
                  ws' "*"%char TOKEN_TYPE_MUL (renderM rest' ++ post)
                  Hat5 w6 Hat6 Hnx6.
      token_bools.
      run_next Hrun Hat6 Hnx6 w7 Hat7.
      destruct (parseMultiplicativeExpression f w7) as [[c w8]|] eqn:HM;
        [|discriminate].
      destruct (IHM rest'
                    (pre ++ renderP p1 ++ ws ++ "*"%char :: renderP p2
                         ++ ws' ++ ["*"%char])
                    post buf
                    (i + length (renderP p1) + length ws + 1
                     + length (renderP p2) + length ws' + 1)%nat
                    w7 _ Hrest' Hpost
                    ltac:(rewrite <- Hnf; f_equal; f_equal; idx)
                    ltac:(side_buf Hbuf) ltac:(side_idx Hi) Hat7 HM)
        as [Hc Hat8].
      cbn [fst snd] in Hc, Hat8. subst c.
      run_create Hrun Hat8 w9 Hat9.
      injection Hrun as <-. split; [reflexivity|].
      cbn [snd]. replace (i + length (renderM (MCons p1 ws (MCons p2 ws' rest'))))%nat
        with (i + length (renderP p1) + length ws + 1 + length (renderP p2)
              + length ws' + 1 + length (renderM rest'))%nat by idx.
      exact Hat9.
Qed.

Lemma stepA : soundA (S f).
Proof.
  intros e pre post buf i w r Hwf Hpost Hnf Hnt Hbuf Hi Hat Hrun.
  cbn [parseAdditiveExpression] in Hrun. unfold pbind, lift in Hrun.
  destruct e as [m | m1 ws op1 rest]; cbn [wfA] in Hwf.
  - destruct (parseMultiplicativeExpression f w) as [[a w1]|] eqn:HM;
      [|discriminate].
    destruct (IHM m pre post buf i w _ Hwf Hpost Hnf Hbuf Hi Hat HM)
      as [Ha Hat1].
    cbn [fst snd] in Ha, Hat1. subst a.
    peek_follow Hrun Hat1 w2 Hat2.
    cbn [renderA] in Hnt. rewrite Hnt in Hrun. injection Hrun as <-.
    split; [reflexivity | exact Hat2].
  - apply andb_prop in Hwf as [Hwf Hrest]. apply andb_prop in Hwf as [Hm1 Hws].
    destruct (parseMultiplicativeExpression f w) as [[a w1]|] eqn:HM;
      [|discriminate].
    assert (Hop1 : tokenAt buf (i + length (renderM m1))
                   = mkToken [addOpChar op1] (addOpType op1)).
    { apply (tokenAt_symbol buf (pre ++ renderM m1) ws _ _
                            (renderA rest ++ post));
        [side_buf Hbuf | side_idx Hi | exact Hws | apply addOp_symbol]. }
    destruct (IHM m1 pre (ws ++ addOpChar op1 :: renderA rest ++ post)
                  buf i w _ Hm1 ltac:(side_delimited)
                  ltac:(rewrite Hop1; destruct op1; reflexivity)
                  ltac:(side_buf Hbuf) Hi Hat HM)
      as [Ha Hat1].
    cbn [fst snd] in Ha, Hat1. subst a.
    peek_symbol Hrun Hbuf Hi (pre ++ renderM m1) ws (addOpChar op1)
                (addOpType op1) (renderA rest ++ post) Hat1 w2 Hat2 Hnx2.
    assert (Hterm : forall nm op, matchTerm (mkToken nm (addOpType op)) = true)
      by (intros ? []; reflexivity).
    rewrite Hterm in Hrun.
    run_next Hrun Hat2 Hnx2 w3 Hat3.
    destruct (parseMultiplicativeExpression f w3) as [[b w4]|] eqn:HM2;
      [|discriminate].
    destruct rest as [m2 | m2 ws' op2 rest']; cbn [wfA] in Hrest.
    + destruct (IHM m2 (pre ++ renderM m1 ++ ws ++ [addOpChar op1]) post buf
                    (i + length (renderM m1) + length ws + 1)%nat w3 _
                    Hrest Hpost
                    ltac:(rewrite <- Hnf; f_equal; f_equal; idx)
                    ltac:(side_buf Hbuf) ltac:(side_idx Hi) Hat3 HM2)
        as [Hb Hat4].
      cbn [fst snd] in Hb, Hat4. subst b.
      run_create Hrun Hat4 w5 Hat5.
      peek_follow Hrun Hat5 w6 Hat6.
      replace (i + length (renderA (ACons m1 ws op1 (AOne m2))))%nat
        with (i + length (renderM m1) + length ws + 1 + length (renderM m2))%nat
        in * by idx.
      rewrite Hnt in Hrun. injection Hrun as <-.
      split; [reflexivity | exact Hat6].
    + apply andb_prop in Hrest as [Hrest Hrest'].
      apply andb_prop in Hrest as [Hm2 Hws'].
      assert (Hop2 : tokenAt buf (i + length (renderM m1) + length ws + 1
                                  + length (renderM m2))
                     = mkToken [addOpChar op2] (addOpType op2)).
      { apply (tokenAt_symbol buf
                 (pre ++ renderM m1 ++ ws ++ addOpChar op1 :: renderM m2)
                 ws' _ _ (renderA rest' ++ post));
          [side_buf Hbuf | side_idx Hi | exact Hws' | apply addOp_symbol]. }
      destruct (IHM m2 (pre ++ renderM m1 ++ ws ++ [addOpChar op1])
                    (ws' ++ addOpChar op2 :: renderA rest' ++ post) buf
                    (i + length (renderM m1) + length ws + 1)%nat w3 _
                    Hm2 ltac:(side_delimited)
                    ltac:(rewrite Hop2; destruct op2; reflexivity)
                    ltac:(side_buf Hbuf) ltac:(side_idx Hi) Hat3 HM2)
        as [Hb Hat4].
      cbn [fst snd] in Hb, Hat4. subst b.
      run_create Hrun Hat4 w5 Hat5.
      peek_symbol Hrun Hbuf Hi
                  (pre ++ renderM m1 ++ ws ++ addOpChar op1 :: renderM m2)
                  ws' (addOpChar op2) (addOpType op2) (renderA rest' ++ post)
                  Hat5 w6 Hat6 Hnx6.
      rewrite Hterm in Hrun.
      run_next Hrun Hat6 Hnx6 w7 Hat7.
      destruct (parseAdditiveExpression f w7) as [[c w8]|] eqn:HA;
        [|discriminate].
      destruct (IHA rest'
                    (pre ++ renderM m1 ++ ws ++ addOpChar op1 :: renderM m2
                         ++ ws' ++ [addOpChar op2])
                    post buf
                    (i + length (renderM m1) + length ws + 1
                     + length (renderM m2) + length ws' + 1)%nat
                    w7 _ Hrest' Hpost
                    ltac:(rewrite <- Hnf; f_equal; f_equal; idx)
                    ltac:(rewrite <- Hnt; f_equal; f_equal; idx)
                    ltac:(side_buf Hbuf) ltac:(side_idx Hi) Hat7 HA)
        as [Hc Hat8].
      cbn [fst snd] in Hc, Hat8. subst c.
      run_create Hrun Hat8 w9 Hat9.
      injection Hrun as <-. split; [reflexivity|].
      cbn [snd].
      replace (i + length (renderA (ACons m1 ws op1 (ACons m2 ws' op2 rest'))))%nat
        with (i + length (renderM m1) + length ws + 1 + length (renderM m2)
              + length ws' + 1 + length (renderA rest'))%nat by idx.
      exact Hat9.
Qed.

Lemma stepE : soundE (S f).
Proof.
  intros e pre post buf i w r Hwf Hpost Hnf Hnt Hbuf Hi Hat Hrun.
  cbn [parseExpression] in Hrun.
  exact (IHA e pre post buf i w r Hwf Hpost Hnf Hnt Hbuf Hi Hat Hrun).
Qed.
End Step.

Theorem parse_sound (fuel : nat) :
  soundP fuel /\ soundM fuel /\ soundA fuel /\ soundE fuel.
Proof.
  induction fuel as [|f (IHP & IHM & IHA & IHE)].
  - unfold soundP, soundM, soundA, soundE. repeat split; intros;
      match goal with H : _ = Some _ |- _ => discriminate H end.
  - split; [|split; [|split]];
      [apply stepP | apply stepM | apply stepA | apply stepE]; assumption.
Qed.

(** ** Totality of the parser *)

Lemma advanced_refl w : advanced w w.
Proof. split; auto. Qed.

Lemma advanced_trans w1 w2 w3 : advanced w1 w2 -> advanced w2 w3 -> advanced w1 w3.
Proof. intros [A1 A2] [B1 B2]. split; [congruence | lia]. Qed.

Lemma advanced_same w w' : s w' = s w -> advanced w w'.
Proof. intros E. unfold advanced. rewrite E. auto. Qed.

Lemma advanced_remaining w w' : advanced w w' -> (remaining w' <= remaining w)%nat.
Proof. intros [A1 A2]. unfold remaining. rewrite A1. lia. Qed.

Lemma destroy_scanner tree w :
  s (snd (destroyExpressionTreeWithChildren tree w)) = s w.
Proof.
  revert w. induction tree as [| t | op c IH | op l IHl r IHr]; intros w;
    cbn [destroyExpressionTreeWithChildren]; unfold bind, ret; try reflexivity.
  - specialize (IH w). destruct (destroyExpressionTreeWithChildren c w) as [u w1].
    cbn in *. exact IH.
  - specialize (IHl w). destruct (destroyExpressionTreeWithChildren l w) as [u w1].
    specialize (IHr w1). destruct (destroyExpressionTreeWithChildren r w1) as [u' w2].
    cbn in *. congruence.
Qed.

(** After a token that is not TOKEN_TYPE_NULL, [nextToken] consumes at least
    one of the remaining characters. *)
Lemma peek_next_remaining w :
  type (fst (peekToken w)) <> TOKEN_TYPE_NULL ->
  advanced w (snd (nextToken (snd (peekToken w)))) /\
  (S (remaining (snd (nextToken (snd (peekToken w)))) ) <= remaining w)%nat.
Proof.
  intros Hty. destruct (peekToken_progress w Hty) as [Hlt Hin].
  destruct (peekToken_atPos w _ _ (conj eq_refl eq_refl)) as [Hb Hi].
  destruct (peekToken w) as [t w1]. cbn [fst snd] in *.
  unfold advanced, remaining.
  cbn [nextToken withScanner snd s Scanner_nextToken buffer currentCharacterIndex].
  rewrite Hb. split; [split; [reflexivity | lia] | lia].
Qed.

Lemma peek_advanced w : advanced w (snd (peekToken w)).
Proof.
  destruct (peekToken_atPos w _ _ (conj eq_refl eq_refl)) as [Hb Hi].
  split; [exact Hb | lia].
Qed.

Lemma matchToken_type t ty :
  ty <> TOKEN_TYPE_NULL -> matchToken t ty = true -> type t <> TOKEN_TYPE_NULL.
Proof. destruct t as [nm []]; destruct ty; cbn; congruence. Qed.

Lemma matchFactor_type t : matchFactor t = true -> type t <> TOKEN_TYPE_NULL.
Proof. destruct t as [nm []]; cbn; congruence. Qed.

Lemma matchTerm_type t : matchTerm t = true -> type t <> TOKEN_TYPE_NULL.
Proof. destruct t as [nm []]; cbn; congruence. Qed.

Lemma notRParen_type t :
  negb (TokenType_eqb (type t) TOKEN_TYPE_RPAREN) = false ->
  type t <> TOKEN_TYPE_NULL.
Proof. destruct t as [nm []]; cbn; congruence. Qed.

(* [peekToken w] followed, when the token matches, by [nextToken] *)
Ltac total_peek w t w1 Hadv Hnext :=
  pose proof (peek_advanced w) as Hadv;
  pose proof (peek_next_remaining w) as Hnext;
  destruct (peekToken w) as [t w1]; cbn [fst snd] in Hadv, Hnext.

Ltac total_call IH w r w' Hadv :=
  let E := fresh "E" in
  destruct (IH w) as ([r w'] & E & Hadv);
  [ repeat match goal with
           | H : advanced _ _ |- _ => apply advanced_remaining in H
           end; lia
  | rewrite E; cbn [snd] in Hadv ].

Section TotalStep.
Variable f : nat.
Hypothesis IHP : totalOn parsePrimary 1 f.
Hypothesis IHM : totalOn parseMultiplicativeExpression 2 f.
Hypothesis IHA : totalOn parseAdditiveExpression 3 f.
Hypothesis IHE : totalOn parseExpression 4 f.

Lemma totalP_step : totalOn parsePrimary 1 (S f).
Proof.
  intros w Hfuel. cbn [parsePrimary]. unfold pbind, lift.
  total_peek w t w1 A1 N1.
  destruct (matchToken t TOKEN_TYPE_INTEGER) eqn:Hint.
  - destruct (N1 (matchToken_type t TOKEN_TYPE_INTEGER ltac:(discriminate) Hint)) as [A2 _].
    eexists. split; [reflexivity|]. cbn [snd].
    eapply advanced_trans; [exact A2|]. now apply advanced_same.
  - destruct (matchToken t TOKEN_TYPE_LPAREN) eqn:Hlp.
    + destruct (N1 (matchToken_type t TOKEN_TYPE_LPAREN ltac:(discriminate) Hlp)) as [A2 R2].
      cbn [nextToken withScanner snd] in *.
      set (w2 := mkWorld _ _ _) in *.
      total_call IHE w2 tree w3 A3.
      total_peek w3 t' w4 A4 N4.
      destruct (negb (TokenType_eqb (type t') TOKEN_TYPE_RPAREN)) eqn:Hrp.
      * cbn [printf]. 
        pose proof (destroy_scanner tree
                      (mkWorld (s w4) (stdout w4 ++ [msgExpectedRParen])
                               (liveNodes w4))) as D.
        destruct (destroyExpressionTreeWithChildren tree _) as [u w5].
        cbn [snd s] in D.
        eexists. split; [reflexivity|]. cbn [snd].
        eapply advanced_trans; [exact A2|].
        eapply advanced_trans; [exact A3|].
        eapply advanced_trans; [exact A4|]. now apply advanced_same.
      * destruct (N4 (notRParen_type t' Hrp)) as [A5 _].
        cbn [nextToken withScanner snd] in *.
        eexists. split; [reflexivity|]. cbn [snd].
        eapply advanced_trans; [exact A2|].
        eapply advanced_trans; [exact A3|]. exact A5.
    + eexists. split; [reflexivity|]. cbn [snd printf].
      eapply advanced_trans; [exact A1|]. now apply advanced_same.
Qed.

Ltac chain_advanced :=
  cbn [snd createBinaryExpressionTree bind new_node ret];
  repeat first [ assumption
               | apply advanced_refl
               | apply advanced_same; reflexivity
               | eapply advanced_trans; [eassumption|] ].

Lemma totalM_step : totalOn parseMultiplicativeExpression 2 (S f).
Proof.
  intros w Hfuel. cbn [parseMultiplicativeExpression]. unfold pbind, lift.
  total_call IHP w a w1 A1.
  total_peek w1 tok w2 A2 N2.
  destruct (matchFactor tok) eqn:Hf1.
  - destruct (N2 (matchFactor_type tok Hf1)) as [A3 R3].
    cbn [nextToken withScanner snd] in *. set (w3 := mkWorld (Scanner_nextToken (s w2)) _ _) in *.
    total_call IHP w3 b w4 A4.
    cbn [createBinaryExpressionTree bind new_node ret].
    set (w5 := mkWorld (s w4) _ _).
    assert (A5 : advanced w4 w5) by now apply advanced_same.
    total_peek w5 tok' w6 A6 N6.
    destruct (matchFactor tok') eqn:Hf2.
    + destruct (N6 (matchFactor_type tok' Hf2)) as [A7 R7].
      cbn [nextToken withScanner snd] in *. set (w7 := mkWorld (Scanner_nextToken (s w6)) _ _) in *.
      total_call IHM w7 c w8 A8.
      eexists. split; [reflexivity|]. chain_advanced.
    + eexists. split; [reflexivity|]. chain_advanced.
  - eexists. split; [reflexivity|]. chain_advanced.
Qed.

Lemma totalA_step : totalOn parseAdditiveExpression 3 (S f).
Proof.
  intros w Hfuel. cbn [parseAdditiveExpression]. unfold pbind, lift.
  total_call IHM w a w1 A1.
  total_peek w1 tok w2 A2 N2.
  destruct (matchTerm tok) eqn:Hf1.
  - destruct (N2 (matchTerm_type tok Hf1)) as [A3 R3].
    cbn [nextToken withScanner snd] in *. set (w3 := mkWorld (Scanner_nextToken (s w2)) _ _) in *.
    total_call IHM w3 b w4 A4.
    cbn [createBinaryExpressionTree bind new_node ret].
    set (w5 := mkWorld (s w4) _ _).
    assert (A5 : advanced w4 w5) by now apply advanced_same.
    total_peek w5 tok' w6 A6 N6.
    destruct (matchTerm tok') eqn:Hf2.
    + destruct (N6 (matchTerm_type tok' Hf2)) as [A7 R7].
      cbn [nextToken withScanner snd] in *. set (w7 := mkWorld (Scanner_nextToken (s w6)) _ _) in *.
      total_call IHA w7 c w8 A8.
      eexists. split; [reflexivity|]. chain_advanced.
    + eexists. split; [reflexivity|]. chain_advanced.
  - eexists. split; [reflexivity|]. chain_advanced.
Qed.

Lemma totalE_step : totalOn parseExpression 4 (S f).
Proof.
  intros w Hfuel. cbn [parseExpression]. apply IHA. lia.
Qed.
End TotalStep.

Theorem parse_total_fuel (fuel : nat) :
  totalOn parsePrimary 1 fuel /\
  totalOn parseMultiplicativeExpression 2 fuel /\
  totalOn parseAdditiveExpression 3 fuel /\
  totalOn parseExpression 4 fuel.
Proof.
  induction fuel as [|f (IHP & IHM & IHA & IHE)].
  - unfold totalOn. repeat split; intros; lia.
  - split; [|split; [|split]];
      [apply totalP_step | apply totalM_step | apply totalA_step
       | apply totalE_step]; assumption.
Qed.

(** [parse] returns a tree for every buffer. *)
Theorem parse_total (buf : list ascii) :
  exists tree w, parse buf = Some (tree, w).
Proof.
  unfold parse.
  destruct (proj2 (proj2 (proj2 (parse_total_fuel (parseFuel (length buf)))))
              (snd (setBuffer buf initialWorld))) as ([tree w] & E & _).
  - unfold remaining, parseFuel. cbn. lia.
  - eauto.
Qed.

(** ** The result does not depend on the amount of fuel *)

Section MonoStep.
Variable f : nat.
Hypothesis IHP : fuelMono parsePrimary f.
Hypothesis IHM : fuelMono parseMultiplicativeExpression f.
Hypothesis IHA : fuelMono parseAdditiveExpression f.
Hypothesis IHE : fuelMono parseExpression f.

Ltac mono_call g IH :=
  match goal with
  | H : context [g f ?w] |- _ =>
      let E := fresh "E" in
      destruct (g f w) as [[? ?]|] eqn:E; [|discriminate H];
      rewrite (IH _ _ E)
  end.

Ltac mono_branch :=
  match goal with
  | H : context [let (_, _) := peekToken ?w in _] |- _ =>
      destruct (peekToken w) as [? ?]
  | H : context [if ?b then _ else _] |- _ => destruct b
  end.

Lemma monoP_step : fuelMono parsePrimary (S f).
Proof.
  intros w r H. cbn [parsePrimary] in H.
  remember (S f) as g eqn:Hg. cbn [parsePrimary]. subst g.
  unfold pbind, lift in H |- *.
  repeat mono_branch; try exact H.
  cbn [nextToken withScanner] in H |- *.
  mono_call parseExpression IHE. repeat mono_branch; exact H.
Qed.

Lemma monoM_step : fuelMono parseMultiplicativeExpression (S f).
Proof.
  intros w r H. cbn [parseMultiplicativeExpression] in H.
  remember (S f) as g eqn:Hg. cbn [parseMultiplicativeExpression]. subst g.
  unfold pbind, lift in H |- *.
  mono_call parsePrimary IHP. repeat mono_branch; try exact H.
  cbn [nextToken withScanner] in H |- *.
  mono_call parsePrimary IHP.
  cbn [createBinaryExpressionTree bind new_node ret] in H |- *.
  repeat mono_branch; try exact H.
  cbn [nextToken withScanner] in H |- *.
  mono_call parseMultiplicativeExpression IHM. exact H.
Qed.

Lemma monoA_step : fuelMono parseAdditiveExpression (S f).
Proof.
  intros w r H. cbn [parseAdditiveExpression] in H.
  remember (S f) as g eqn:Hg. cbn [parseAdditiveExpression]. subst g.
  unfold pbind, lift in H |- *.
  mono_call parseMultiplicativeExpression IHM. repeat mono_branch; try exact H.
  cbn [nextToken withScanner] in H |- *.
  mono_call parseMultiplicativeExpression IHM.
  cbn [createBinaryExpressionTree bind new_node ret] in H |- *.
  repeat mono_branch; try exact H.
  cbn [nextToken withScanner] in H |- *.
  mono_call parseAdditiveExpression IHA. exact H.
Qed.

Lemma monoE_step : fuelMono parseExpression (S f).
Proof.
  intros w r H. cbn [parseExpression] in H.
  remember (S f) as g eqn:Hg. cbn [parseExpression]. subst g. now apply IHA.
Qed.
End MonoStep.

Lemma parse_fuel_mono (f : nat) :
  fuelMono parsePrimary f /\ fuelMono parseMultiplicativeExpression f /\
  fuelMono parseAdditiveExpression f /\ fuelMono parseExpression f.
Proof.
  induction f as [|f (IHP & IHM & IHA & IHE)].
  - unfold fuelMono. repeat split; intros w r H; discriminate H.
  - split; [|split; [|split]];
      [apply monoP_step | apply monoM_step | apply monoA_step
       | apply monoE_step]; assumption.
Qed.

(** More fuel than [parseFuel] gives the same tree and the same state. *)
Theorem parse_fuel_enough (buf : list ascii) (extra : nat) :
  parseExpression (parseFuel (length buf) + extra) (loaded buf) = parse buf.
Proof.
  destruct (parse_total buf) as (tree & w & E). rewrite E.
  unfold parse in E. fold (loaded buf) in E.
  induction extra as [|k IH].
  - now rewrite Nat.add_0_r.
  - rewrite Nat.add_succ_r. now apply parse_fuel_mono.
Qed.

(** ** The evaluator on the trees of well-formed texts *)

Lemma u64_add a b : u64 (u64 a + u64 b) = u64 (a + b).
Proof. unfold u64. now rewrite <- Zplus_mod. Qed.
Lemma u64_sub a b : u64 (u64 a - u64 b) = u64 (a - b).
Proof. unfold u64. now rewrite <- Zminus_mod. Qed.
Lemma u64_mul a b : u64 (u64 a * u64 b) = u64 (a * b).
Proof. unfold u64. now rewrite <- Zmult_mod. Qed.
Lemma eval_mul l r :
  evaluateConstantExpressionTree (bin TOKEN_TYPE_MUL l r)
  = u64 (evaluateConstantExpressionTree l * evaluateConstantExpressionTree r).
Proof. reflexivity. Qed.

Lemma eval_addOp op l r :
  evaluateConstantExpressionTree (bin (addOpType op) l r)
  = u64 (applyOp op (evaluateConstantExpressionTree l)
                    (evaluateConstantExpressionTree r)).
Proof. destruct op; reflexivity. Qed.

Lemma u64_applyOp op a b : u64 (applyOp op (u64 a) (u64 b)) = u64 (applyOp op a b).
Proof. destruct op; [apply u64_add | apply u64_sub]. Qed.

(** *** Literals *)

Lemma digitsValue_decimal ds acc :
  forallb (fun a => beginsWithDigit (charToInt a)) ds = true ->
  digitsValue acc ds
  = fold_left (fun acc a => 10 * acc + (code a - code "0")) ds acc.
Proof.
  revert acc. induction ds as [|a ds IH]; intros acc H; [reflexivity|].
  cbn [forallb] in H. apply andb_prop in H as [Ha Hds].
  cbn [digitsValue fold_left]. rewrite Ha, IH by exact Hds.
  now rewrite (digit_code a Ha).
Qed.

Lemma c_str_digits ds :
  forallb (fun a => beginsWithDigit (charToInt a)) ds = true -> c_str ds = ds.
Proof.
  induction ds as [|a ds IH]; intros H; [reflexivity|].
  cbn [forallb] in H. apply andb_prop in H as [Ha Hds].
  cbn [c_str]. rewrite <- (digit_code a Ha), IH by exact Hds.
  destruct (digit_classes _ Ha) as (Hz & _). now rewrite Hz.
Qed.

Lemma decimal_nonneg_from ds acc :
  forallb (fun a => beginsWithDigit (charToInt a)) ds = true ->
  0 <= acc ->
  0 <= fold_left (fun acc a => 10 * acc + (code a - code "0")) ds acc.
Proof.
  revert acc. induction ds as [|a ds IH]; intros acc H Hacc; [exact Hacc|].
  cbn [forallb] in H. apply andb_prop in H as [Ha Hds].
  cbn [fold_left]. apply IH; [exact Hds|].
  rewrite <- (digit_code a Ha). rewrite beginsWithDigit_eq in Ha.
  change (code "0") with 48.
  apply andb_prop in Ha as [H1 H2]. apply Z.leb_le in H1. lia.
Qed.

Lemma atoll_digits ds :
  isDigits ds = true -> decimal ds <= LLONG_MAX -> atoll ds = decimal ds.
Proof.
  intros Hds Hmax. destruct (isDigits_inv ds Hds) as [Hall Hhd].
  pose proof (decimal_nonneg_from ds 0 Hall (Z.le_refl 0)) as Hpos.
  fold (decimal ds) in Hpos.
  unfold atoll. destruct ds as [|a ds]; [discriminate|].
  cbn [headChar] in Hhd. destruct (digit_classes _ Hhd) as (Hz & Hpr & Hsp).
  cbn [dropSpaces]. rewrite Hsp.
  rewrite <- (digit_code a Hhd).
  assert (Hm : (charToInt a =? code "-") = false)
    by (change (code "-") with 45; clear - Hhd; classes).
  assert (Hp : (charToInt a =? code "+") = false)
    by (change (code "+") with 43; clear - Hhd; classes).
  rewrite Hm, Hp, digitsValue_decimal by exact Hall.
  fold (decimal (a :: ds)). unfold LLONG_MIN, LLONG_MAX in *. lia.
Qed.

Lemma eval_literal ds :
  isDigits ds = true -> decimal ds <= LLONG_MAX ->
  evaluateConstantExpressionTree (LiteralTree (mkToken ds TOKEN_TYPE_INTEGER))
  = u64 (decimal ds).
Proof.
  intros Hds Hmax. cbn [evaluateConstantExpressionTree name].
  rewrite c_str_digits by apply (isDigits_inv ds Hds).
  now rewrite atoll_digits.
Qed.

(** *** Chains of at most three operands *)

Lemma eval_short_mul m :
  primsEval m -> (operatorsM m <= 2)%nat ->
  evaluateConstantExpressionTree (treeM m) = u64 (valM m).
Proof.
  destruct m as [p1 | p1 ws1 [p2 | p2 ws2 [p3 | p3 ws3 rest]]];
    cbn [primsEval operatorsM treeM valM mulFrom]; unfold evalOK.
  - auto.
  - intros (E1 & E2) _. now rewrite eval_mul, E1, E2, u64_mul.
  - intros (E1 & E2 & E3) _.
    rewrite !eval_mul, E1, E2, E3.
    now rewrite (u64_mul (valP p1) (valP p2)), u64_mul.
  - intros _ H. lia.
Qed.

Lemma eval_short_add e :
  termsEval e -> (operatorsA e <= 2)%nat ->
  evaluateConstantExpressionTree (treeA e) = u64 (valA e).
Proof.
  destruct e as [m1 | m1 ws1 op1 [m2 | m2 ws2 op2 [m3 | m3 ws3 op3 rest]]];
    cbn [termsEval operatorsA treeA valA addFrom].
  - auto.
  - intros (E1 & E2) _. now rewrite eval_addOp, E1, E2, u64_applyOp.
  - intros (E1 & E2 & E3) _.
    rewrite !eval_addOp, E1, E2, E3.
    now rewrite (u64_applyOp op1 (valM m1) (valM m2)), u64_applyOp.
  - intros _ H. lia.
Qed.

Lemma eval_short :
  (forall p, wfP p = true -> litsP p = true -> shortP p = true -> evalOK p) /\
  (forall m, wfM m = true -> litsM m = true -> shortPrims m = true ->
             primsEval m) /\
  (forall e, wfA e = true -> litsA e = true -> shortTerms e = true ->
             termsEval e).
Proof.
  apply Expr_mutind.
  - intros ws ds Hwf Hlit _. cbn [wfP litsP] in *.
    apply andb_prop in Hwf as [_ Hds]. apply Z.leb_le in Hlit.
    unfold evalOK. cbn [treeP valP]. now apply eval_literal.
  - intros ws1 e IH ws2 Hwf Hlit Hshort. cbn [wfP litsP shortP] in *.
    apply andb_prop in Hwf as [Hwf _]. apply andb_prop in Hwf as [_ Hwf].
    apply andb_prop in Hshort as [Hn Hshort]. apply Nat.leb_le in Hn.
    unfold evalOK. cbn [treeP valP].
    apply eval_short_add; [now apply IH | exact Hn].
  - intros p IH Hwf Hlit Hshort. cbn [wfM litsM shortPrims primsEval] in *. auto.
  - intros p IHp ws rest IHrest Hwf Hlit Hshort.
    cbn [wfM litsM shortPrims primsEval] in *.
    apply andb_prop in Hwf as [Hwf Hrest]. apply andb_prop in Hwf as [Hp _].
    apply andb_prop in Hlit as [? ?]. apply andb_prop in Hshort as [? ?]. auto.
  - intros m IH Hwf Hlit Hshort. cbn [wfA litsA shortTerms termsEval] in *.
    apply andb_prop in Hshort as [Hn Hshort]. apply Nat.leb_le in Hn.
    apply eval_short_mul; auto.
  - intros m IHm ws op rest IHrest Hwf Hlit Hshort.
    cbn [wfA litsA shortTerms termsEval] in *.
    apply andb_prop in Hwf as [Hwf Hrest]. apply andb_prop in Hwf as [Hm _].
    apply andb_prop in Hlit as [? ?]. apply andb_prop in Hshort as [Hs ?].
    apply andb_prop in Hs as [Hn Hs]. apply Nat.leb_le in Hn.
    split; [apply eval_short_mul|]; auto.
Qed.

Lemma eval_tree_correct e :
  wfA e = true -> litsA e = true -> shortA e = true ->
  evaluateConstantExpressionTree (treeA e) = u64 (valA e).
Proof.
  intros Hwf Hlit Hshort. unfold shortA in Hshort.
  apply andb_prop in Hshort as [Hn Hshort]. apply Nat.leb_le in Hn.
  apply eval_short_add; [|exact Hn]. now apply eval_short.
Qed.

(** ** Tokens of type TOKEN_TYPE_NULL *)

Lemma scan_end (sc : Scanner) :
  (length (buffer sc) <= currentCharacterIndex sc)%nat ->
  Scanner_peekToken sc = (mkToken [] TOKEN_TYPE_NULL, sc, []).
Proof.
  intros H. unfold Scanner_peekToken. now rewrite getCharacter_end.
Qed.

Lemma scan_nonprintable (sc : Scanner) :
  isprint (getCharacter sc) = false ->
  fst (fst (Scanner_peekToken sc)) = mkToken [] TOKEN_TYPE_NULL.
Proof.
  intros H. unfold Scanner_peekToken.
  destruct (getCharacter sc =? 0); [reflexivity|]. now rewrite H.
Qed.

Lemma unrecognized_inv c :
  unrecognized c = true ->
  isspace c = false /\ beginsWithDigit c = false /\
  (c =? code "+") = false /\ (c =? code "-") = false /\
  (c =? code "*") = false /\ (c =? code "(") = false /\
  (c =? code ")") = false.
Proof.
  unfold unrecognized. intros H.
  apply andb_prop in H as [H H3]. apply andb_prop in H as [H1 H2].
  apply negb_true_iff in H1, H2, H3.
  repeat (apply orb_false_elim in H3 as [H3 ?]). auto 10.
Qed.

(** An unrecognized character after blank space, when the scan gets past
    the two early returns. *)
Lemma scan_unrecognized pre ws post nx :
  blank ws = true ->
  (headChar (ws ++ post) =? 0) = false ->
  isprint (headChar (ws ++ post)) = true ->
  unrecognized (headChar post) = true ->
  Scanner_peekToken (mkScanner (pre ++ ws ++ post) (length pre) nx)
  = (mkToken [intToChar (headChar post)] TOKEN_TYPE_NULL,
     mkScanner (pre ++ ws ++ post) (length pre) (length pre + length ws),
     [msgUnexpected (headChar post)]).
Proof.
  intros Hws Hnz Hpr Hun.
  destruct (unrecognized_inv _ Hun) as (Hsp & Hdg & H1 & H2 & H3 & H4 & H5).
  unfold Scanner_peekToken. cbn [currentCharacterIndex buffer].
  rewrite getCharacter_app, Hnz, Hpr. cbn [negb].
  rewrite (while_skip isspace ws pre post);
    [| now apply blank_spaces | exact Hsp | rewrite !length_app; lia].
  cbn [l_c l_t l_s name]. rewrite Hdg, H1, H2, H3, H4, H5.
  reflexivity.
Qed.

(** After blank space an unrecognized character (or the end of the buffer,
    where [headChar] is 0) gives a token of type TOKEN_TYPE_NULL. *)
Lemma tokenAt_null buf pre ws post i :
  buf = pre ++ ws ++ post -> i = length pre ->
  blank ws = true -> unrecognized (headChar post) = true ->
  type (tokenAt buf i) = TOKEN_TYPE_NULL /\
  (post = [] -> c_str (name (tokenAt buf i)) = []).
Proof.
  intros -> -> Hws Hun. unfold tokenAt.
  destruct (headChar (ws ++ post) =? 0) eqn:Hnz.
  { unfold Scanner_peekToken. rewrite getCharacter_app, Hnz. now split. }
  destruct (isprint (headChar (ws ++ post))) eqn:Hpr.
  - rewrite scan_unrecognized by assumption. cbn [fst type name].
    split; [reflexivity|]. now intros ->.
  - unfold Scanner_peekToken. rewrite getCharacter_app, Hnz, Hpr. now split.
Qed.

Lemma tokenAt_spaces buf pre trail i :
  buf = pre ++ trail -> i = length pre ->
  forallb (fun a => isspace (charToInt a)) trail = true ->
  type (tokenAt buf i) = TOKEN_TYPE_NULL /\ c_str (name (tokenAt buf i)) = [].
Proof.
  intros -> -> Hsp.
  destruct trail as [|a r].
  - destruct (tokenAt_null (pre ++ []) pre [] [] (length pre)) as [H1 H2];
      try reflexivity. split; [exact H1 | now apply H2].
  - destruct (charToInt a =? 32) eqn:Ha.
    + assert (Hb : blank (a :: r) = true).
      { cbn [blank forallb] in *. rewrite Ha. apply andb_prop in Hsp as [_ Hr].
        now rewrite Hr. }
      destruct (tokenAt_null (pre ++ a :: r) pre (a :: r) [] (length pre))
        as [H1 H2]; try reflexivity; try assumption.
      { now rewrite app_nil_r. }
      split; [exact H1 | now apply H2].
    + cbn [forallb] in Hsp. apply andb_prop in Hsp as [Hsa _].
      unfold tokenAt. rewrite scan_nonprintable; [now split|].
      rewrite getCharacter_app. cbn [headChar]. clear - Ha Hsa. classes.
Qed.

Lemma null_not_factor t : type t = TOKEN_TYPE_NULL -> matchFactor t = false.
Proof. destruct t as [nm ty]; cbn; now intros ->. Qed.
Lemma null_not_term t : type t = TOKEN_TYPE_NULL -> matchTerm t = false.
Proof. destruct t as [nm ty]; cbn; now intros ->. Qed.

Lemma delimited_unrecognized_spaces trail :
  forallb (fun a => isspace (charToInt a)) trail = true -> delimited trail = true.
Proof.
  destruct trail as [|a r]; [reflexivity|]. cbn [forallb]. intros H.
  apply andb_prop in H as [Ha _]. unfold delimited. cbn [headChar].
  clear - Ha. classes.
Qed.

(** ** The whole parse of a well-formed text *)

Theorem parse_wellformed e trail :
  wfA e = true -> delimited trail = true ->
  type (tokenAt (renderA e ++ trail) (length (renderA e))) = TOKEN_TYPE_NULL ->
  exists w, parse (renderA e ++ trail) = Some (treeA e, w).
Proof.
  intros Hwf Hdel Hnull.
  destruct (parse_total (renderA e ++ trail)) as (tree & w & Hparse).
  exists w. rewrite Hparse. unfold parse in Hparse.
  destruct (proj2 (proj2 (proj2 (parse_sound (parseFuel (length (renderA e ++ trail))))))
              e [] trail (renderA e ++ trail) 0%nat
              (snd (setBuffer (renderA e ++ trail) initialWorld)) _ Hwf Hdel
              (null_not_factor _ Hnull) (null_not_term _ Hnull)
              eq_refl eq_refl (conj eq_refl eq_refl) Hparse) as [Ht _].
  cbn [fst] in Ht. now subst tree.
Qed.

Lemma parse_wellformed_spaces e trail :
  wfA e = true -> allSpaces trail = true ->
  exists w, parse (renderA e ++ trail) = Some (treeA e, w).
Proof.
  intros Hwf Hsp. apply parse_wellformed; [exact Hwf | |].
  - now apply delimited_unrecognized_spaces.
  - now apply (tokenAt_spaces _ (renderA e) trail).
Qed.

Lemma parsedTree_wellformed e trail :
  wfA e = true -> allSpaces trail = true ->
  parsedTree (renderA e ++ trail) = Some (treeA e).
Proof.
  intros Hwf Hsp. unfold parsedTree.
  destruct (parse_wellformed_spaces e trail Hwf Hsp) as [w ->]. reflexivity.
Qed.

Example exprTest3_text : renderA exprTest3 = str "(4 + 3 * 8) + 8 * 8 + (4 * 4)".
Proof. reflexivity. Qed.

Example exprTest3_value : valA exprTest3 = 108.
Proof. reflexivity. Qed.

(** C1.  For every well-formed expression text (integer
    literals, '+', '-', '*', balanced parentheses, blank space before a
    token and white space at the end) in which every literal is at most
    2^63 - 1 and every chain of operands at one precedence level has at most
    two operators, parsing and evaluating gives the value of the expression
    in the integers, '*' before '+' and '-' and each chain from left to
    right, reduced modulo 2^64. *)
Theorem C1_evaluate_wellformed (e : AddE) (trail : list ascii) :
  wfA e = true -> litsA e = true -> shortA e = true ->
  allSpaces trail = true ->
  evaluate (renderA e ++ trail) = Some (u64 (valA e)).
Proof.
  intros Hwf Hlit Hshort Hsp. unfold evaluate.
  destruct (parse_wellformed_spaces e trail Hwf Hsp) as [w ->].
  now rewrite eval_tree_correct.
Qed.

Lemma C1_evaluate_wellformed_witness :
  wfA exprTest3 = true /\ litsA exprTest3 = true /\ shortA exprTest3 = true /\
  allSpaces [] = true /\
  evaluate (str "(4 + 3 * 8) + 8 * 8 + (4 * 4)" ++ []) = Some (u64 108).
Proof.
  refine (conj eq_refl (conj eq_refl (conj eq_refl (conj eq_refl _)))).
  exact (C1_evaluate_wellformed exprTest3 [] eq_refl eq_refl eq_refl eq_refl).
Defined.

(** C1 does not hold without the bound on the literals: the literal
    9223372036854775808 (2^63) is a well-formed expression without any
    operator, [atoll] returns LLONG_MAX for it and the result is 2^63 - 1. *)
Lemma C1_counterexample :
  ~ (forall e : AddE, wfA e = true -> shortA e = true ->
                      evaluate (renderA e) = Some (u64 (valA e))).
Proof.
  intros H.
  specialize (H (AOne (MOne (PInt [] (str "9223372036854775808"))))
                eq_refl eq_refl).
  vm_compute in H. discriminate H.
Qed.

(** The chains are counted per level: in "1 - 2 * 3 - 4 - 5" the additive
    chain has three operators, and the result is not 1 - 6 - 4 - 5. *)
Example additive_chain_across_product :
  evaluate (str "1 - 2 * 3 - 4 - 5") = Some (u64 (-4)) /\
  u64 (-4) <> u64 (1 - 2 * 3 - 4 - 5).
Proof. split; [vm_compute; reflexivity | vm_compute; discriminate]. Qed.

(** C2.  A chain of three or more operands is grouped as the pair of its
    first two operands combined, by one binary node, with what the same
    parsing function returns for the rest of the chain; "10 - 2 - 3" is
    ((10-2)-3) = 5 and "1 - 2 - 3 - 4" is ((1-2)-(3-4)) = 0, which is not
    the left-associative (((1-2)-3)-4). *)
Theorem C2_chain_grouping :
  (forall m1 ws1 op1 m2 ws2 op2 rest trail,
      wfA (ACons m1 ws1 op1 (ACons m2 ws2 op2 rest)) = true ->
      allSpaces trail = true ->
      exists t1 t2 tr,
        parsedTree (renderM m1) = Some t1 /\
        parsedTree (renderM m2) = Some t2 /\
        parsedTree (renderA rest ++ trail) = Some tr /\
        parsedTree (renderA (ACons m1 ws1 op1 (ACons m2 ws2 op2 rest)) ++ trail)
        = Some (bin (addOpType op2) (bin (addOpType op1) t1 t2) tr)) /\
  (forall p1 ws1 p2 ws2 rest trail,
      wfM (MCons p1 ws1 (MCons p2 ws2 rest)) = true ->
      allSpaces trail = true ->
      exists t1 t2 tr,
        parsedTree (renderP p1) = Some t1 /\
        parsedTree (renderP p2) = Some t2 /\
        parsedTree (renderM rest ++ trail) = Some tr /\
        parsedTree (renderM (MCons p1 ws1 (MCons p2 ws2 rest)) ++ trail)
        = Some (bin TOKEN_TYPE_MUL (bin TOKEN_TYPE_MUL t1 t2) tr)) /\
  parsedTree (str "10 - 2 - 3")
  = Some (bin TOKEN_TYPE_MINUS (bin TOKEN_TYPE_MINUS (lit "10") (lit "2"))
              (lit "3")) /\
  evaluate (str "10 - 2 - 3") = Some 5 /\
  parsedTree (str "1 - 2 - 3 - 4")
  = Some (bin TOKEN_TYPE_MINUS (bin TOKEN_TYPE_MINUS (lit "1") (lit "2"))
              (bin TOKEN_TYPE_MINUS (lit "3") (lit "4"))) /\
  evaluate (str "1 - 2 - 3 - 4") = Some 0 /\
  evaluateConstantExpressionTree
    (bin TOKEN_TYPE_MINUS
         (bin TOKEN_TYPE_MINUS (bin TOKEN_TYPE_MINUS (lit "1") (lit "2"))
              (lit "3"))
         (lit "4")) = u64 (-8).
Proof.
  split; [|split; [|repeat split; vm_compute; reflexivity]].
  - intros m1 ws1 op1 m2 ws2 op2 rest trail Hwf Hsp.
    pose proof Hwf as Hwf'. cbn [wfA] in Hwf'.
    apply andb_prop in Hwf' as [H1 H2]. apply andb_prop in H1 as [Hm1 _].
    apply andb_prop in H2 as [H2 Hrest]. apply andb_prop in H2 as [Hm2 _].
    exists (treeM m1), (treeM m2), (treeA rest).
    repeat split.
    + rewrite <- (app_nil_r (renderM m1)).
      exact (parsedTree_wellformed (AOne m1) [] Hm1 eq_refl).
    + rewrite <- (app_nil_r (renderM m2)).
      exact (parsedTree_wellformed (AOne m2) [] Hm2 eq_refl).
    + exact (parsedTree_wellformed rest trail Hrest Hsp).
    + exact (parsedTree_wellformed _ trail Hwf Hsp).
  - intros p1 ws1 p2 ws2 rest trail Hwf Hsp.
    pose proof Hwf as Hwf'. cbn [wfM] in Hwf'.
    apply andb_prop in Hwf' as [H1 H2]. apply andb_prop in H1 as [Hp1 _].
    apply andb_prop in H2 as [H2 Hrest]. apply andb_prop in H2 as [Hp2 _].
    exists (treeP p1), (treeP p2), (treeM rest).
    repeat split.
    + rewrite <- (app_nil_r (renderP p1)).
      exact (parsedTree_wellformed (AOne (MOne p1)) [] Hp1 eq_refl).
    + rewrite <- (app_nil_r (renderP p2)).
      exact (parsedTree_wellformed (AOne (MOne p2)) [] Hp2 eq_refl).
    + exact (parsedTree_wellformed (AOne rest) trail Hrest Hsp).
    + exact (parsedTree_wellformed (AOne (MCons p1 ws1 (MCons p2 ws2 rest)))
                                   trail Hwf Hsp).
Qed.

Lemma C2_chain_grouping_witness :
  exists t1 t2 tr,
    parsedTree (str "1") = Some t1 /\
    parsedTree (str " 2") = Some t2 /\
    parsedTree (str " 3 - 4" ++ []) = Some tr /\
    parsedTree (str "1 - 2 - 3 - 4" ++ [])
    = Some (bin TOKEN_TYPE_MINUS (bin TOKEN_TYPE_MINUS t1 t2) tr).
Proof.
  exact (proj1 C2_chain_grouping
               (MOne (num "1")) (str " ") OpSub
               (MOne (num_ "2")) (str " ") OpSub
               (ACons (MOne (num_ "3")) (str " ") OpSub (AOne (MOne (num_ "4"))))
               [] eq_refl eq_refl).
Defined.

(** C3.  The three expressions of the program's own test table. *)
Theorem C3_test_table :
  evaluate (str "4 + 3 * 8") = Some 28 /\
  evaluate (str "(4 + 3) * 8") = Some 56 /\
  evaluate (str "(4 + 3 * 8) + 8 * 8 + (4 * 4)") = Some 108.
Proof. repeat split; vm_compute; reflexivity. Qed.

(** ** The scanner: white space, lookahead and malformed literals *)

Lemma while_stop {St : Type} (cond : St -> bool) (body : St -> St) fuel st :
  cond st = false -> while cond body fuel st = st.
Proof. intros H. destruct fuel; cbn [while]; [reflexivity | now rewrite H]. Qed.

Lemma peekToken_nonprintable w :
  (getCharacter (s w) =? 0) = false -> isprint (getCharacter (s w)) = false ->
  peekToken w
  = (mkToken [] TOKEN_TYPE_NULL,
     mkWorld (s w) (stdout w ++ [msgBadStream]) (liveNodes w)).
Proof.
  intros Hz Hp. unfold peekToken, Scanner_peekToken. now rewrite Hz, Hp.
Qed.

(** C4.  White space is not skipped when it starts with a tab or a
    newline: for a character under the cursor that is white space but not
    printable [peekToken] returns a TOKEN_TYPE_NULL token and prints the "no
    such printable character" line, because the [isprint] test and its
    return come before the loop that skips white space.  So a buffer that
    starts with a tab or a newline followed by the digit 7 gives no Integer
    token, while behind a space the same loop does skip a tab and the token
    "7" is returned. *)
Theorem C4_leading_tab_is_rejected :
  (forall w, let c := getCharacter (s w) in
             isspace c = true -> c <> 32 ->
             peekToken w
             = (mkToken [] TOKEN_TYPE_NULL,
                mkWorld (s w) (stdout w ++ [msgBadStream]) (liveNodes w))) /\
  fst (peekToken (loaded [tab; "7"%char])) = mkToken [] TOKEN_TYPE_NULL /\
  fst (peekToken (loaded [newline; "7"%char])) = mkToken [] TOKEN_TYPE_NULL /\
  stdout (snd (peekToken (loaded [tab; "7"%char]))) = [msgBadStream] /\
  fst (peekToken (loaded [" "%char; tab; "7"%char]))
  = mkToken (str "7") TOKEN_TYPE_INTEGER.
Proof.
  split; [|repeat split; vm_compute; reflexivity].
  intros w c Hsp Hne. apply peekToken_nonprintable; fold c; clear - Hsp Hne; classes.
Qed.

Lemma C4_leading_tab_is_rejected_witness :
  peekToken (loaded [tab; "7"%char])
  = (mkToken [] TOKEN_TYPE_NULL,
     mkWorld (s (loaded [tab; "7"%char]))
             (stdout (loaded [tab; "7"%char]) ++ [msgBadStream])
             (liveNodes (loaded [tab; "7"%char]))).
Proof.
  apply (proj1 C4_leading_tab_is_rejected (loaded [tab; "7"%char])).
  - reflexivity.
  - vm_compute. discriminate.
Defined.

(** C5.  Two calls of [peekToken] in a row return the same token, and the
    committed cursor [currentCharacterIndex] (and the buffer) is unchanged
    after each of them. *)
Theorem C5_peek_idempotent (w : World) :
  fst (peekToken (snd (peekToken w))) = fst (peekToken w) /\
  currentCharacterIndex (s (snd (peekToken w))) = currentCharacterIndex (s w) /\
  currentCharacterIndex (s (snd (peekToken (snd (peekToken w)))))
  = currentCharacterIndex (s w) /\
  buffer (s (snd (peekToken (snd (peekToken w))))) = buffer (s w).
Proof.
  pose proof (peekToken_atPos w _ _ (conj eq_refl eq_refl)) as H1.
  pose proof (peekToken_atPos _ _ _ H1) as H2.
  rewrite (peekToken_token _ _ _ H1).
  rewrite (peekToken_token w _ _ (conj eq_refl eq_refl)).
  destruct H1 as [B1 I1], H2 as [B2 I2]. auto.
Qed.

(** A run of digits followed at once by letters, digits, underscores or
    dots: the token is the run of digits, the whole suffix is skipped and
    one line is printed. *)
Lemma scan_malformed pre ws ds garbage post nx :
  blank ws = true -> isDigits ds = true ->
  garbage <> [] -> beginsWithDigit (headChar garbage) = false ->
  forallb (fun a => isTrailing (charToInt a)) garbage = true ->
  delimited post = true ->
  Scanner_peekToken
    (mkScanner (pre ++ ws ++ ds ++ garbage ++ post) (length pre) nx)
  = (mkToken ds TOKEN_TYPE_INTEGER,
     mkScanner (pre ++ ws ++ ds ++ garbage ++ post) (length pre)
               (length pre + length ws + length ds + length garbage),
     [msgSkipping]).
Proof.
  intros Hws Hds Hne Hg1 Hg Hpost.
  destruct (isDigits_inv ds Hds) as [Hall Hhd].
  pose proof (isDigits_nonempty ds Hds) as Hdne.
  rewrite <- (headChar_app ds (garbage ++ post) Hdne) in Hhd.
  destruct (digit_classes _ Hhd) as (Hnz & Hpr & Hsp).
  destruct (blank_head ws (ds ++ garbage ++ post) Hws Hnz Hpr) as [Hnz' Hpr'].
  unfold Scanner_peekToken. cbn [currentCharacterIndex buffer].
  rewrite getCharacter_app, Hnz', Hpr'. cbn [negb].
  rewrite (while_skip isspace ws pre (ds ++ garbage ++ post));
    [| now apply blank_spaces | exact Hsp | rewrite !length_app; lia].
  cbn [l_c l_t l_s name]. rewrite Hhd.
  replace (pre ++ ws ++ ds ++ garbage ++ post)
    with ((pre ++ ws) ++ ds ++ garbage ++ post) by now rewrite <- app_assoc.
  replace (length pre + length ws)%nat with (length (pre ++ ws))
    by now rewrite length_app.
  rewrite <- (headChar_app garbage post Hne) in Hg1.
  rewrite (while_digits ds (pre ++ ws) (garbage ++ post));
    [| exact Hall | exact Hg1 | rewrite !length_app; lia].
  cbn [l_c l_t l_s app].
  assert (Ht : isTrailing (headChar (garbage ++ post)) = true).
  { rewrite (headChar_app garbage post Hne).
    destruct garbage as [|a g]; [congruence|]. cbn [forallb headChar] in *.
    now apply andb_prop in Hg as [Ha _]. }
  rewrite Ht.
  replace ((pre ++ ws) ++ ds ++ garbage ++ post)
    with (((pre ++ ws) ++ ds) ++ garbage ++ post) by now rewrite <- app_assoc.
  replace (length (pre ++ ws) + length ds)%nat with (length ((pre ++ ws) ++ ds))
    by now rewrite length_app.
  rewrite (while_skip isTrailing garbage ((pre ++ ws) ++ ds) post);
    [| exact Hg
     | unfold delimited in Hpost; now destruct (isTrailing (headChar post))
     | rewrite !length_app; lia].
  cbn [l_t l_s buffer currentCharacterIndex]. rewrite !length_app.
  reflexivity.
Qed.

(** C6.  [peekToken] on "123abc" returns the Integer token "123", prints
    one line and sets the pending index past "abc", so that after
    [nextToken] the buffer is exhausted and no second token follows; in
    general a run of digits followed at once by letters, digits,
    underscores or dots gives the Integer token of the digits alone, the
    whole suffix is skipped and one line is printed. *)
Theorem C6_malformed_literal :
  (forall pre ws ds garbage post nx out live,
      blank ws = true -> isDigits ds = true ->
      garbage <> [] -> beginsWithDigit (headChar garbage) = false ->
      forallb (fun a => isTrailing (charToInt a)) garbage = true ->
      delimited post = true ->
      peekToken (mkWorld (mkScanner (pre ++ ws ++ ds ++ garbage ++ post)
                                    (length pre) nx) out live)
      = (mkToken ds TOKEN_TYPE_INTEGER,
         mkWorld (mkScanner (pre ++ ws ++ ds ++ garbage ++ post) (length pre)
                            (length pre + length ws + length ds + length garbage))
                 (out ++ [msgSkipping]) live)) /\
  peekToken (loaded (str "123abc"))
  = (mkToken (str "123") TOKEN_TYPE_INTEGER,
     mkWorld (mkScanner (str "123abc") 0 6) [msgSkipping] 0) /\
  currentCharacterIndex
    (s (snd (nextToken (snd (peekToken (loaded (str "123abc"))))))) = 6%nat /\
  fst (peekToken (snd (nextToken (snd (peekToken (loaded (str "123abc")))))))
  = mkToken [] TOKEN_TYPE_NULL.
Proof.
  split; [|repeat split; vm_compute; reflexivity].
  intros pre ws ds garbage post nx out live Hws Hds Hne Hg1 Hg Hpost.
  unfold peekToken. cbn [s].
  now rewrite scan_malformed.
Qed.

Lemma C6_malformed_literal_witness :
  blank [] = true /\ isDigits (str "123") = true /\ str "abc" <> [] /\
  beginsWithDigit (headChar (str "abc")) = false /\
  forallb (fun a => isTrailing (charToInt a)) (str "abc") = true /\
  delimited [] = true /\
  peekToken (mkWorld (mkScanner (str "123abc") 0 0) [] 0)
  = (mkToken (str "123") TOKEN_TYPE_INTEGER,
     mkWorld (mkScanner (str "123abc") 0 6) [msgSkipping] 0).
Proof.
  refine (conj eq_refl (conj eq_refl (conj _ (conj eq_refl (conj eq_refl
           (conj eq_refl _)))))); [discriminate|].
  exact (proj1 C6_malformed_literal [] [] (str "123") (str "abc") [] 0%nat [] 0
               eq_refl eq_refl ltac:(discriminate) eq_refl eq_refl eq_refl).
Defined.

(** ** Errors: null trees and results for every input *)

(** Destroying a tree deletes each of its nodes once and touches nothing
    else. *)
Lemma destroy_all tree w :
  snd (destroyExpressionTreeWithChildren tree w)
  = mkWorld (s w) (stdout w) (liveNodes w - nodes tree).
Proof.
  revert w. induction tree as [| t | op c IH | op l IHl r IHr]; intros w;
    cbn [destroyExpressionTreeWithChildren nodes]; unfold bind, ret, delete_node.
  - destruct w as [sc out live]. cbn [snd s stdout liveNodes]. f_equal. lia.
  - reflexivity.
  - specialize (IH w). destruct (destroyExpressionTreeWithChildren c w) as [u w1].
    cbn [snd] in *. subst w1. cbn [snd s stdout liveNodes]. f_equal. lia.
  - specialize (IHl w). destruct (destroyExpressionTreeWithChildren l w) as [u w1].
    specialize (IHr w1). destruct (destroyExpressionTreeWithChildren r w1) as [u' w2].
    cbn [snd] in *. subst w2 w1. cbn [snd s stdout liveNodes]. f_equal. lia.
Qed.

(** C7.  Parsing "(4 + 3" prints the missing-right-parenthesis line and
    returns a null tree: the subtree 4 + 3 that was built inside the
    parenthesis (three nodes) is destroyed (destroying a tree deletes every
    node of it), no node stays allocated, and the result evaluates to 0. *)
Theorem C7_unmatched_parenthesis :
  (forall tree w,
      snd (destroyExpressionTreeWithChildren tree w)
      = mkWorld (s w) (stdout w) (liveNodes w - nodes tree)) /\
  (exists w2,
      parseExpression (parseFuel 6) afterLParen
      = Some (bin TOKEN_TYPE_ADD (lit "4") (lit "3"), w2) /\
      liveNodes w2 = 3) /\
  (exists w,
      parse (str "(4 + 3") = Some (nullptr, w) /\
      stdout w = [msgExpectedRParen] /\
      liveNodes w = 0) /\
  evaluate (str "(4 + 3") = Some 0.
Proof.
  split; [exact destroy_all|]. split; [|split].
  - eexists. split; [vm_compute; reflexivity | reflexivity].
  - eexists. split; [vm_compute; reflexivity | split; reflexivity].
  - vm_compute. reflexivity.
Qed.

Lemma eval_range (t : Tree) :
  0 <= evaluateConstantExpressionTree t < 2 ^ 64.
Proof.
  assert (U : forall z, 0 <= u64 z < 2 ^ 64)
    by (intros z; unfold u64; apply Z.mod_pos_bound; reflexivity).
  induction t as [| tok | op c IH | op l IHl r IHr];
    cbn [evaluateConstantExpressionTree].
  - split; [lia | reflexivity].
  - apply U.
  - destruct op; try apply U; exact IH.
  - repeat match goal with
           | |- context [if ?b then _ else _] => destruct b
           end; try apply U. split; [lia | reflexivity].
Qed.

Lemma peekToken_stdout w :
  exists lines, stdout (snd (peekToken w)) = stdout w ++ lines.
Proof.
  unfold peekToken. destruct (Scanner_peekToken (s w)) as [[t sc] lines].
  now exists lines.
Qed.

Lemma parseFuel_S k : parseFuel k = S (S (S (S (4 * k)))).
Proof. unfold parseFuel. lia. Qed.

Lemma null_matches t ty :
  type t = TOKEN_TYPE_NULL -> ty <> TOKEN_TYPE_NULL -> matchToken t ty = false.
Proof. destruct t as [nm []]; destruct ty; cbn; congruence. Qed.

Lemma parsePrimary_null f w buf i :
  atPos buf i w -> type (tokenAt buf i) = TOKEN_TYPE_NULL ->
  failsAt buf i (msgSyntaxError (name (tokenAt buf i))) (parsePrimary (S f) w).
Proof.
  intros Hat Hnull. cbn [parsePrimary]. unfold pbind, lift.
  pose proof (peekToken_token w _ _ Hat) as Ht.
  pose proof (peekToken_atPos w _ _ Hat) as Hat1.
  destruct (peekToken w) as [t w1]. cbn [fst snd] in Ht, Hat1. subst t.
  rewrite !null_matches by (assumption || discriminate).
  cbn [printf]. unfold pret. eexists. split; [reflexivity|].
  split; [exact Hat1|]. cbn [stdout]. apply in_or_app. right. now left.
Qed.

Lemma follow_null w buf i msg :
  atPos buf i w -> In msg (stdout w) ->
  atPos buf i (snd (peekToken w)) /\ In msg (stdout (snd (peekToken w))).
Proof.
  intros Hat Hin. split; [now apply peekToken_atPos|].
  destruct (peekToken_stdout w) as [lines ->]. apply in_or_app. now left.
Qed.

Lemma parseMultiplicative_null f w buf i msg :
  type (tokenAt buf i) = TOKEN_TYPE_NULL ->
  failsAt buf i msg (parsePrimary f w) ->
  failsAt buf i msg (parseMultiplicativeExpression (S f) w).
Proof.
  intros Hnull (w1 & E & Hat & Hin).
  cbn [parseMultiplicativeExpression]. unfold pbind, lift. rewrite E.
  pose proof (peekToken_token w1 _ _ Hat) as Ht.
  destruct (follow_null w1 buf i msg Hat Hin) as [Hat2 Hin2].
  destruct (peekToken w1) as [t w2]. cbn [fst snd] in Ht, Hat2, Hin2. subst t.
  rewrite (null_not_factor _ Hnull). unfold pret. now exists w2.
Qed.

Lemma parseAdditive_null f w buf i msg :
  type (tokenAt buf i) = TOKEN_TYPE_NULL ->
  failsAt buf i msg (parseMultiplicativeExpression f w) ->
  failsAt buf i msg (parseAdditiveExpression (S f) w).
Proof.
  intros Hnull (w1 & E & Hat & Hin).
  cbn [parseAdditiveExpression]. unfold pbind, lift. rewrite E.
  pose proof (peekToken_token w1 _ _ Hat) as Ht.
  destruct (follow_null w1 buf i msg Hat Hin) as [Hat2 Hin2].
  destruct (peekToken w1) as [t w2]. cbn [fst snd] in Ht, Hat2, Hin2. subst t.
  rewrite (null_not_term _ Hnull). unfold pret. now exists w2.
Qed.

(** When the first token is of type TOKEN_TYPE_NULL the parse prints the
    syntax error and returns the null tree. *)
Lemma parse_null_first buf :
  type (tokenAt buf 0) = TOKEN_TYPE_NULL ->
  exists w, parse buf = Some (nullptr, w) /\
            In (msgSyntaxError (name (tokenAt buf 0))) (stdout w).
Proof.
  intros Hnull. unfold parse. rewrite parseFuel_S.
  cbn [parseExpression].
  set (w0 := snd (setBuffer buf initialWorld)).
  assert (Hat : atPos buf 0 w0) by (split; reflexivity).
  destruct (parseAdditive_null (S (S (4 * length buf))) w0 buf 0%nat
              (msgSyntaxError (name (tokenAt buf 0))) Hnull
              (parseMultiplicative_null (S (4 * length buf)) w0 buf 0%nat _ Hnull
                 (parsePrimary_null (4 * length buf) w0 buf 0%nat Hat Hnull)))
    as (w & E & _ & Hin).
  exists w. split; [exact E | exact Hin].
Qed.

Lemma parsePrimary_fails f w buf i :
  atPos buf i w ->
  matchToken (tokenAt buf i) TOKEN_TYPE_INTEGER = false ->
  matchToken (tokenAt buf i) TOKEN_TYPE_LPAREN = false ->
  failsAt buf i (msgSyntaxError (name (tokenAt buf i))) (parsePrimary (S f) w).
Proof.
  intros Hat Hint Hlp. cbn [parsePrimary]. unfold pbind, lift.
  pose proof (peekToken_token w _ _ Hat) as Ht.
  pose proof (peekToken_atPos w _ _ Hat) as Hat1.
  destruct (peekToken w) as [t w1]. cbn [fst snd] in Ht, Hat1. subst t.
  rewrite Hint, Hlp.
  cbn [printf]. unfold pret. eexists. split; [reflexivity|].
  split; [exact Hat1|]. cbn [stdout]. apply in_or_app. right. now left.
Qed.

Lemma parseMultiplicative_fails f w buf i msg :
  matchFactor (tokenAt buf i) = false ->
  failsAt buf i msg (parsePrimary f w) ->
  failsAt buf i msg (parseMultiplicativeExpression (S f) w).
Proof.
  intros Hnf (w1 & E & Hat & Hin).
  cbn [parseMultiplicativeExpression]. unfold pbind, lift. rewrite E.
  pose proof (peekToken_token w1 _ _ Hat) as Ht.
  destruct (follow_null w1 buf i msg Hat Hin) as [Hat2 Hin2].
  destruct (peekToken w1) as [t w2]. cbn [fst snd] in Ht, Hat2, Hin2. subst t.
  rewrite Hnf. unfold pret. now exists w2.
Qed.

(** A chain that starts with '+' or '-': the missing left operand is a null
    child of the Binary node. *)
Theorem missing_left_operand ws op m trail :
  blank ws = true -> wfM m = true -> allSpaces trail = true ->
  parsedTree (ws ++ addOpChar op :: renderM m ++ trail)
  = Some (bin (addOpType op) nullptr (treeM m)).
Proof.
  intros Hws Hm Hsp.
  set (buf := ws ++ addOpChar op :: renderM m ++ trail).
  assert (Hbuf : buf = [] ++ ws ++ addOpChar op :: renderM m ++ trail)
    by reflexivity.
  destruct (parse_total buf) as (tree & w & Hparse).
  unfold parsedTree. rewrite Hparse. unfold parse in Hparse.
  rewrite parseFuel_S in Hparse. cbn [parseExpression] in Hparse.
  set (w0 := snd (setBuffer buf initialWorld)) in *.
  assert (Hat0 : atPos buf 0 w0) by (split; reflexivity).
  assert (Hop : tokenAt buf 0 = mkToken [addOpChar op] (addOpType op)).
  { apply (tokenAt_symbol buf [] ws _ _ (renderM m ++ trail));
      [exact Hbuf | reflexivity | exact Hws | apply addOp_symbol]. }
  destruct (parseMultiplicative_fails (S (4 * length buf)) w0 buf 0%nat
              (msgSyntaxError (name (tokenAt buf 0)))
              ltac:(rewrite Hop; destruct op; reflexivity)
              (parsePrimary_fails (4 * length buf) w0 buf 0%nat Hat0
                 ltac:(rewrite Hop; destruct op; reflexivity)
                 ltac:(rewrite Hop; destruct op; reflexivity)))
    as (w1 & E1 & Hat1 & Hin1).
  rewrite Hop in Hin1. cbn [name] in Hin1.
  remember (S (S (4 * length buf))) as f eqn:Hf.
  cbn [parseAdditiveExpression] in Hparse. unfold pbind, lift in Hparse.
  rewrite E1 in Hparse.
  destruct (peek_symbol_i w1 buf 0%nat [] ws (addOpChar op) (addOpType op)
              (renderM m ++ trail) Hbuf eq_refl Hat1 Hws (addOp_symbol op))
    as (Ht & Hat2 & Hnx2).
  destruct (peekToken w1) as [tok w2]. cbn [fst snd] in Ht, Hat2, Hnx2.
  subst tok.
  assert (Hterm : matchTerm (mkToken [addOpChar op] (addOpType op)) = true)
    by (destruct op; reflexivity).
  rewrite Hterm in Hparse.
  cbn [nextToken withScanner] in Hparse.
  pose proof (atPos_nextToken _ _ _ w2 Hat2 Hnx2) as Hat3.
  cbn [nextToken withScanner snd] in Hat3.
  set (w3 := mkWorld (Scanner_nextToken (s w2)) _ _) in *.
  destruct (parseMultiplicativeExpression f w3) as [[b w4]|] eqn:HM;
    [|discriminate].
  destruct (tokenAt_spaces buf (ws ++ addOpChar op :: renderM m) trail
              (0 + length ws + 1 + length (renderM m))%nat) as [Hnull _];
    [unfold buf; now rewrite <- app_assoc
    | rewrite length_app; cbn [length]; lia | exact Hsp |].
  destruct (proj1 (proj2 (parse_sound f)) m (ws ++ [addOpChar op]) trail buf
              (0 + length ws + 1)%nat w3 _ Hm
              (delimited_unrecognized_spaces _ Hsp)
              (null_not_factor _ Hnull)
              ltac:(unfold buf; now rewrite <- app_assoc)
              ltac:(rewrite length_app; cbn [length]; lia) Hat3 HM)
    as [Hb Hat4].
  cbn [fst snd] in Hb, Hat4. subst b.
  cbn [createBinaryExpressionTree bind new_node ret] in Hparse.
  set (w5 := mkWorld (s w4) _ _) in *.
  assert (Hat5 : atPos buf (0 + length ws + 1 + length (renderM m)) w5)
    by exact Hat4.
  pose proof (peekToken_token w5 _ _ Hat5) as Ht5.
  destruct (peekToken w5) as [tok w6]. cbn [fst snd] in Ht5. subst tok.
  rewrite (null_not_term _ Hnull) in Hparse.
  injection Hparse as <- _. reflexivity.
Qed.

Lemma evaluate_total buf :
  exists v, evaluate buf = Some v /\ 0 <= v < 2 ^ 64.
Proof.
  unfold evaluate. destruct (parse_total buf) as (tree & w & ->).
  eexists. split; [reflexivity | apply eval_range].
Qed.

(** C8.  Every input gives an integer result; a null tree evaluates to 0,
    an empty or white-space-only input parses to the null tree after the
    syntax error is printed, and a Binary node with a null child evaluates
    that child as 0: "+ 5" parses to Binary('+', null, 5) and evaluates to
    5, and so does every text that starts with '+' or '-' in front of a
    well-formed multiplicative chain. *)
Theorem C8_always_a_result :
  (forall buf, exists v, evaluate buf = Some v /\ 0 <= v < 2 ^ 64) /\
  evaluateConstantExpressionTree nullptr = 0 /\
  (forall buf, allSpaces buf = true ->
               exists w, parse buf = Some (nullptr, w) /\
                         In (msgSyntaxError []) (stdout w) /\
                         evaluate buf = Some 0) /\
  (forall op r,
      evaluateConstantExpressionTree (BinaryExpressionTree op nullptr r)
      = evaluateConstantExpressionTree (BinaryExpressionTree op (lit "0") r)) /\
  (forall r,
      evaluateConstantExpressionTree (bin TOKEN_TYPE_ADD nullptr r)
      = evaluateConstantExpressionTree r) /\
  (exists w, parse (str "+ 5") = Some (bin TOKEN_TYPE_ADD nullptr (lit "5"), w) /\
             stdout w = [msgSyntaxError (str "+")]) /\
  evaluate (str "+ 5") = Some 5 /\
  (forall ws op m trail,
      blank ws = true -> wfM m = true -> allSpaces trail = true ->
      parsedTree (ws ++ addOpChar op :: renderM m ++ trail)
      = Some (bin (addOpType op) nullptr (treeM m))).
Proof.
  split; [exact evaluate_total|].
  split; [reflexivity|].
  split.
  { intros buf Hsp.
    destruct (tokenAt_spaces buf [] buf 0%nat eq_refl eq_refl Hsp) as [Hty Hnm].
    destruct (parse_null_first buf Hty) as (w & Hp & Hin).
    exists w. unfold evaluate. rewrite Hp. repeat split.
    unfold msgSyntaxError in *. now rewrite Hnm in Hin. }
  split; [reflexivity|].
  split.
  { intros r. cbn [bin evaluateConstantExpressionTree TokenType_to_int Z.eqb Pos.eqb].
    unfold u64. rewrite Z.add_0_l. apply Z.mod_small, eval_range. }
  split; [eexists; split; [vm_compute; reflexivity | reflexivity]|].
  split; [vm_compute; reflexivity | exact missing_left_operand].
Qed.

Lemma C8_always_a_result_witness :
  allSpaces (str "   ") = true /\
  exists w, parse (str "   ") = Some (nullptr, w) /\
            In (msgSyntaxError []) (stdout w) /\
            evaluate (str "   ") = Some 0.
Proof.
  split; [reflexivity|].
  exact (proj1 (proj2 (proj2 C8_always_a_result)) (str "   ") eq_refl).
Defined.

(** C9.  A Binary node tagged '+', '-' or '*' evaluates to the sum, the
    difference (left minus right) or the product of the values of its
    children modulo 2^64, every value lies in [0, 2^64), and "2 - 3"
    evaluates to 2^64 - 1. *)
Theorem C9_arithmetic_modulo_2_64 :
  (forall l r,
      evaluateConstantExpressionTree (bin TOKEN_TYPE_ADD l r)
      = (evaluateConstantExpressionTree l + evaluateConstantExpressionTree r)
          mod 2 ^ 64 /\
      evaluateConstantExpressionTree (bin TOKEN_TYPE_MINUS l r)
      = (evaluateConstantExpressionTree l - evaluateConstantExpressionTree r)
          mod 2 ^ 64 /\
      evaluateConstantExpressionTree (bin TOKEN_TYPE_MUL l r)
      = (evaluateConstantExpressionTree l * evaluateConstantExpressionTree r)
          mod 2 ^ 64) /\
  (forall t, 0 <= evaluateConstantExpressionTree t < 2 ^ 64) /\
  evaluate (str "2 - 3") = Some 18446744073709551615 /\
  18446744073709551615 = 2 ^ 64 - 1.
Proof.
  split; [intros l r; repeat split|].
  split; [exact eval_range|].
  split; [vm_compute; reflexivity | reflexivity].
Qed.

Lemma peekToken_unrecognized w :
  unrecognized (getCharacter (s w)) = true ->
  type (fst (peekToken w)) = TOKEN_TYPE_NULL.
Proof.
  intros Hun.
  destruct (unrecognized_inv _ Hun) as (Hsp & Hdg & H1 & H2 & H3 & H4 & H5).
  unfold peekToken, Scanner_peekToken.
  destruct (getCharacter (s w) =? 0); [reflexivity|].
  destruct (negb (isprint (getCharacter (s w)))); [reflexivity|].
  rewrite while_stop by exact Hsp.
  cbn [l_c]. now rewrite Hdg, H1, H2, H3, H4, H5.
Qed.

(** C10.  [peekToken] returns a token of type TOKEN_TYPE_NULL at the end of
    the input, for a character that is not printable and for an unrecognized
    character alike; the parser reads only the type, so an unrecognized
    character after a well-formed expression ends the parse as the end of
    the input does: "4 $ 5" parses to the literal 4 and evaluates to 4, and
    the only lines printed are the scanner's own. *)
Theorem C10_null_token_conflation :
  (forall w, (length (buffer (s w)) <= currentCharacterIndex (s w))%nat ->
             fst (peekToken w) = mkToken [] TOKEN_TYPE_NULL) /\
  (forall w, isprint (getCharacter (s w)) = false ->
             fst (peekToken w) = mkToken [] TOKEN_TYPE_NULL) /\
  (forall w, unrecognized (getCharacter (s w)) = true ->
             type (fst (peekToken w)) = TOKEN_TYPE_NULL) /\
  (forall e ws a rest,
      wfA e = true -> blank ws = true ->
      unrecognized (charToInt a) = true ->
      delimited (ws ++ a :: rest) = true ->
      parsedTree (renderA e ++ ws ++ a :: rest) = Some (treeA e) /\
      parsedTree (renderA e) = Some (treeA e)) /\
  (exists w, parse (str "4 $ 5") = Some (lit "4", w) /\
             stdout w = [msgUnexpected (code "$"); msgUnexpected (code "$")]) /\
  parsedTree (str "4") = Some (lit "4") /\
  evaluate (str "4 $ 5") = Some 4.
Proof.
  split.
  { intros w H. unfold peekToken. now rewrite scan_end. }
  split.
  { intros w H. unfold peekToken.
    pose proof (scan_nonprintable (s w) H) as E.
    destruct (Scanner_peekToken (s w)) as [[t sc] lines]. exact E. }
  split; [exact peekToken_unrecognized|].
  split.
  { intros e ws a rest Hwf Hws Hun Hdel. split.
    - unfold parsedTree.
      destruct (parse_wellformed e (ws ++ a :: rest) Hwf Hdel) as [w ->];
        [|reflexivity].
      now apply (tokenAt_null _ (renderA e) ws (a :: rest)).
    - rewrite <- (app_nil_r (renderA e)).
      now apply parsedTree_wellformed. }
  split; [eexists; split; [vm_compute; reflexivity | reflexivity]|].
  split; vm_compute; reflexivity.
Qed.

Lemma C10_null_token_conflation_witness :
  wfA (AOne (MOne (num "4"))) = true /\ blank (str " ") = true /\
  unrecognized (charToInt "$") = true /\
  delimited (str " " ++ "$"%char :: str " 5") = true /\
  parsedTree (str "4" ++ str " " ++ "$"%char :: str " 5") = Some (lit "4") /\
  parsedTree (str "4") = Some (lit "4").
Proof.
  refine (conj eq_refl (conj eq_refl (conj eq_refl (conj eq_refl _)))).
  exact (proj1 (proj2 (proj2 (proj2 C10_null_token_conflation)))
               (AOne (MOne (num "4"))) (str " ") "$"%char (str " 5")
               eq_refl eq_refl eq_refl eq_refl).
Defined.

(** * Further properties *)

(** ** Accounting: the nodes allocated and the indices of the scanner *)

Lemma while_bound (cond : Character -> bool) (body : Locals -> Locals) :
  cond 0 = false ->
  (forall st, inSync (body st)) ->
  (forall st, buffer (l_s (body st)) = buffer (l_s st)) ->
  (forall st, currentCharacterIndex (l_s (body st))
              = S (currentCharacterIndex (l_s st))) ->
  forall fuel st,
    inSync st ->
    (currentCharacterIndex (l_s st) <= length (buffer (l_s st)))%nat ->
    (currentCharacterIndex (l_s (while (fun st => cond (l_c st)) body fuel st))
     <= length (buffer (l_s st)))%nat /\
    inSync (while (fun st => cond (l_c st)) body fuel st).
Proof.
  intros H0 Hsync Hbuf Hidx fuel.
  induction fuel as [|fuel IH]; intros st Hst Hle; cbn [while]; [auto|].
  destruct (cond (l_c st)) eqn:Hc; [|auto].
  assert (Hin : (currentCharacterIndex (l_s st) < length (buffer (l_s st)))%nat).
  { apply getCharacter_inside. rewrite <- Hst. intros E. congruence. }
  rewrite <- (Hbuf st). apply IH; [apply Hsync|]. rewrite Hbuf, Hidx. lia.
Qed.

(** [peekToken] never leaves [nextCharacterIndex] beyond the buffer. *)
Lemma scan_in_bounds (sc : Scanner) :
  (currentCharacterIndex sc <= length (buffer sc))%nat ->
  (nextCharacterIndex sc <= length (buffer sc))%nat ->
  (nextCharacterIndex (snd (fst (Scanner_peekToken sc)))
   <= length (buffer sc))%nat.
Proof.
  intros Hc Hn. unfold Scanner_peekToken.
  destruct (getCharacter sc =? 0) eqn:Hz; [exact Hn|].
  destruct (negb (isprint (getCharacter sc))); [exact Hn|].
  destruct (while_bound isspace advanceChar eq_refl advanceChar_inSync
              advanceChar_buffer advanceChar_index (length (buffer sc))
              (mkLocals (mkToken [] TOKEN_TYPE_NULL) (getCharacter sc) sc)
              eq_refl Hc) as [B1 S1].
  pose proof (proj1 (while_frame (fun st => isspace (l_c st)) advanceChar
                advanceChar_buffer advanceChar_next advanceChar_index
                (length (buffer sc))
                (mkLocals (mkToken [] TOKEN_TYPE_NULL) (getCharacter sc) sc)))
    as F1.
  cbn [l_s] in B1, F1.
  set (st1 := while _ advanceChar _ _) in *.
  destruct (beginsWithDigit (l_c st1)) eqn:Hd.
  - destruct (while_bound beginsWithDigit appendDigit eq_refl
                appendDigit_inSync appendDigit_buffer appendDigit_index
                (length (buffer sc))
                (mkLocals (mkToken (name (l_t st1)) TOKEN_TYPE_INTEGER)
                          (l_c st1) (l_s st1))
                S1 ltac:(cbn [l_s]; rewrite F1; exact B1)) as [B2 S2].
    pose proof (proj1 (while_frame (fun st => beginsWithDigit (l_c st))
                  appendDigit appendDigit_buffer appendDigit_next
                  appendDigit_index (length (buffer sc))
                  (mkLocals (mkToken (name (l_t st1)) TOKEN_TYPE_INTEGER)
                            (l_c st1) (l_s st1)))) as F2.
    cbn [l_s] in B2, F2. rewrite F1 in B2, F2.
    set (st2 := while _ appendDigit _ _) in *.
    destruct (isTrailing (l_c st2)); cbn [fst snd nextCharacterIndex];
      [|exact B2].
    destruct (while_bound isTrailing advanceChar eq_refl advanceChar_inSync
                advanceChar_buffer advanceChar_index (length (buffer sc))
                st2 S2 ltac:(rewrite F2; exact B2)) as [B3 _].
    now rewrite F2 in B3.
  - assert (Hin : l_c st1 <> 0 ->
                  (S (currentCharacterIndex (l_s st1)) <= length (buffer sc))%nat).
    { intros Hnz. rewrite <- F1. apply getCharacter_inside. now rewrite <- S1. }
    repeat match goal with
           | |- context [if ?b then _ else _] => destruct b eqn:?
           end;
      cbn [fst snd nextCharacterIndex l_s incrementPosition
           currentCharacterIndex]; try exact B1;
      rewrite Nat.add_1_r; apply Hin;
      match goal with H : (l_c st1 =? _) = true |- _ =>
        apply Z.eqb_eq in H; rewrite H; discriminate
      end.
Qed.

Lemma peekToken_live w : liveNodes (snd (peekToken w)) = liveNodes w.
Proof.
  unfold peekToken. destruct (Scanner_peekToken (s w)) as [[t sc] lines].
  reflexivity.
Qed.

Lemma peekToken_in_bounds w : inBounds w -> inBounds (snd (peekToken w)).
Proof.
  intros [Hc Hn]. unfold inBounds, peekToken.
  pose proof (scan_in_bounds (s w) Hc Hn) as B.
  pose proof (scan_frame (s w)) as [Fb Fi].
  destruct (Scanner_peekToken (s w)) as [[t sc] lines].
  cbn [fst snd s] in *. rewrite Fb, Fi. auto.
Qed.

Lemma nextToken_in_bounds w : inBounds w -> inBounds (snd (nextToken w)).
Proof. intros [Hc Hn]. unfold inBounds. cbn. auto. Qed.

Lemma inBounds_same w w' : s w' = s w -> inBounds w -> inBounds w'.
Proof. unfold inBounds. now intros ->. Qed.

Ltac keep_peek w t w1 L B :=
  pose proof (peekToken_live w) as L;
  pose proof (peekToken_in_bounds w) as B;
  destruct (peekToken w) as [t w1]; cbn [fst snd] in L, B.

Ltac keep_call g f IH r w' L B :=
  match goal with
  | H : context [g f ?w] |- _ =>
      let E := fresh "E" in
      destruct (g f w) as [[r w']|] eqn:E; [|discriminate H];
      destruct (IH _ _ E) as [L B]; cbn [fst snd] in L, B
  end.

Ltac keep_done H :=
  cbn [nextToken withScanner createLiteralTree createBinaryExpressionTree
       bind new_node printf] in H;
  unfold ret, pret in H;
  injection H as <-; cbn [fst snd liveNodes nodes];
  split; [lia | intros; repeat first
                  [ assumption
                  | apply nextToken_in_bounds
                  | match goal with
                    | |- inBounds (mkWorld (s ?w) _ _) =>
                        apply (inBounds_same w); [reflexivity|]
                    | |- inBounds (mkWorld (Scanner_nextToken (s ?w)) _ _) =>
                        change (inBounds (snd (nextToken w)))
                    | B : _ -> inBounds ?w |- inBounds ?w => apply B
                    end ]].

Section KeepStep.
Variable f : nat.
Hypothesis IHP : keeps parsePrimary f.
Hypothesis IHM : keeps parseMultiplicativeExpression f.
Hypothesis IHA : keeps parseAdditiveExpression f.
Hypothesis IHE : keeps parseExpression f.

Lemma keepP_step : keeps parsePrimary (S f).
Proof.
  intros w r H. cbn [parsePrimary] in H. unfold pbind, lift in H.
  keep_peek w t w1 L1 B1.
  destruct (matchToken t TOKEN_TYPE_INTEGER); [keep_done H|].
  destruct (matchToken t TOKEN_TYPE_LPAREN); [|keep_done H].
  cbn [nextToken withScanner] in H.
  keep_call parseExpression f IHE tree w3 L3 B3.
  cbn [liveNodes] in L3.
  keep_peek w3 t' w4 L4 B4.
  destruct (negb (TokenType_eqb (type t') TOKEN_TYPE_RPAREN)).
  - cbn [printf] in H.
    pose proof (destroy_all tree
                  (mkWorld (s w4) (stdout w4 ++ [msgExpectedRParen])
                           (liveNodes w4))) as D.
    destruct (destroyExpressionTreeWithChildren tree _) as [u w5].
    cbn [snd s stdout liveNodes] in D. subst w5. keep_done H.
  - keep_done H.
Qed.

Lemma keepM_step : keeps parseMultiplicativeExpression (S f).
Proof.
  intros w r H. cbn [parseMultiplicativeExpression] in H.
  unfold pbind, lift in H.
  keep_call parsePrimary f IHP a w1 L1 B1.
  keep_peek w1 tok w2 L2 B2.
  destruct (matchFactor tok); [|keep_done H].
  cbn [nextToken withScanner] in H.
  keep_call parsePrimary f IHP b w4 L4 B4. cbn [liveNodes] in L4.
  cbn [createBinaryExpressionTree bind new_node] in H. unfold ret in H.
  keep_peek (mkWorld (s w4) (stdout w4) (liveNodes w4 + 1)) tok' w6 L6 B6.
  cbn [liveNodes] in L6.
  destruct (matchFactor tok'); [|keep_done H].
  cbn [nextToken withScanner] in H.
  keep_call parseMultiplicativeExpression f IHM c w8 L8 B8.
  cbn [liveNodes] in L8. keep_done H.
Qed.

Lemma keepA_step : keeps parseAdditiveExpression (S f).
Proof.
  intros w r H. cbn [parseAdditiveExpression] in H.
  unfold pbind, lift in H.
  keep_call parseMultiplicativeExpression f IHM a w1 L1 B1.
  keep_peek w1 tok w2 L2 B2.
  destruct (matchTerm tok); [|keep_done H].
  cbn [nextToken withScanner] in H.
  keep_call parseMultiplicativeExpression f IHM b w4 L4 B4.
  cbn [liveNodes] in L4.
  cbn [createBinaryExpressionTree bind new_node] in H. unfold ret in H.
  keep_peek (mkWorld (s w4) (stdout w4) (liveNodes w4 + 1)) tok' w6 L6 B6.
  cbn [liveNodes] in L6.
  destruct (matchTerm tok'); [|keep_done H].
  cbn [nextToken withScanner] in H.
  keep_call parseAdditiveExpression f IHA c w8 L8 B8.
  cbn [liveNodes] in L8. keep_done H.
Qed.

Lemma keepE_step : keeps parseExpression (S f).
Proof. intros w r H. cbn [parseExpression] in H. now apply IHA. Qed.
End KeepStep.

Lemma parse_keeps (fuel : nat) :
  keeps parsePrimary fuel /\ keeps parseMultiplicativeExpression fuel /\
  keeps parseAdditiveExpression fuel /\ keeps parseExpression fuel.
Proof.
  induction fuel as [|f (IHP & IHM & IHA & IHE)].
  - unfold keeps. repeat split; intros; discriminate.
  - split; [|split; [|split]];
      [apply keepP_step | apply keepM_step | apply keepA_step
       | apply keepE_step]; assumption.
Qed.

Lemma parse_accounting (buf : list ascii) :
  exists tree w,
    parse buf = Some (tree, w) /\
    liveNodes w = nodes tree /\
    liveNodes (snd (destroyExpressionTreeWithChildren tree w)) = 0.
Proof.
  destruct (parse_total buf) as (tree & w & E).
  exists tree, w. split; [exact E|].
  unfold parse in E.
  destruct (proj2 (proj2 (proj2 (parse_keeps _))) _ _ E) as [L _].
  cbn [fst snd] in L.
  assert (Hl : liveNodes w = nodes tree) by (rewrite L; cbn; lia).
  split; [exact Hl|]. rewrite destroy_all. cbn [liveNodes]. lia.
Qed.

(** X1.  For every buffer the nodes still allocated when [parse] returns
    are exactly the nodes of the tree it returns (what the error path of
    [parsePrimary] built is deleted there), and destroying the returned
    tree, as [testExpressions] does, leaves no node allocated. *)
Theorem parse_allocates_the_tree (buf : list ascii) :
  exists tree w,
    parse buf = Some (tree, w) /\
    liveNodes w = nodes tree /\
    liveNodes (snd (destroyExpressionTreeWithChildren tree w)) = 0.
Proof.
  exact (parse_accounting buf).
Qed.

Lemma parse_in_bounds (buf : list ascii) :
  exists tree w,
    parse buf = Some (tree, w) /\
    buffer (s w) = buf /\
    (currentCharacterIndex (s w) <= length buf)%nat /\
    (nextCharacterIndex (s w) <= length buf)%nat.
Proof.
  destruct (parse_total buf) as (tree & w & E).
  exists tree, w. split; [exact E|].
  unfold parse in E.
  destruct (proj2 (proj2 (proj2 (parse_keeps _))) _ _ E) as [_ B].
  destruct (proj2 (proj2 (proj2 (parse_total_fuel
              (parseFuel (length buf)))))
              (snd (setBuffer buf initialWorld))) as (r & E' & A).
  { unfold remaining, parseFuel. cbn. lia. }
  rewrite E in E'. injection E' as <-. destruct A as [Ab _].
  cbn [fst snd] in *. cbn in Ab.
  destruct B as [Bc Bn]; [split; cbn; lia|].
  rewrite Ab in Bc, Bn. auto.
Qed.

(** X2.  The indices of the scanner never leave the buffer: for every
    buffer, when [parse] returns, [currentCharacterIndex] and
    [nextCharacterIndex] are at most [buffer.length()], and the buffer is
    the one that was set. *)
Theorem parse_stays_in_buffer (buf : list ascii) :
  exists tree w,
    parse buf = Some (tree, w) /\
    buffer (s w) = buf /\
    (currentCharacterIndex (s w) <= length buf)%nat /\
    (nextCharacterIndex (s w) <= length buf)%nat.
Proof.
  exact (parse_in_bounds buf).
Qed.

(** ** What was printed and allocated before is a frame *)

Lemma shift_eq out live sc o l o' l' :
  o' = out ++ o -> l' = live + l ->
  mkWorld sc o' l' = shift out live (mkWorld sc o l).
Proof. now intros -> ->. Qed.

Lemma peekToken_framed : Mframed peekToken.
Proof.
  intros out live w. unfold peekToken. cbn [shift s stdout liveNodes].
  destruct (Scanner_peekToken (s w)) as [[t sc] lines]. cbn [fst snd].
  f_equal. apply shift_eq; [now rewrite app_assoc | reflexivity].
Qed.

Lemma nextToken_framed : Mframed nextToken.
Proof. intros out live w. reflexivity. Qed.

Lemma printf_framed line : Mframed (printf line).
Proof.
  intros out live w. unfold printf. cbn [fst snd shift s stdout liveNodes].
  f_equal. apply shift_eq; [now rewrite app_assoc | reflexivity].
Qed.

Lemma createLiteralTree_framed t : Mframed (createLiteralTree t).
Proof.
  intros out live w. cbn. unfold ret. cbn [fst snd]. f_equal.
  apply shift_eq; [reflexivity | lia].
Qed.

Lemma createBinaryExpressionTree_framed op a b :
  Mframed (createBinaryExpressionTree op a b).
Proof.
  intros out live w. cbn. unfold ret. cbn [fst snd]. f_equal.
  apply shift_eq; [reflexivity | lia].
Qed.

Lemma destroy_framed tree : Mframed (destroyExpressionTreeWithChildren tree).
Proof.
  intros out live w.
  pose proof (destroy_all tree (shift out live w)) as D1.
  pose proof (destroy_all tree w) as D2.
  destruct (destroyExpressionTreeWithChildren tree (shift out live w)) as [[] w1].
  destruct (destroyExpressionTreeWithChildren tree w) as [[] w2].
  cbn [fst snd] in *. subst w1 w2. f_equal.
  cbn [shift s stdout liveNodes]. apply shift_eq; [reflexivity | lia].
Qed.

Lemma lift_framed {A} (m : M A) : Mframed m -> Pframed (lift m).
Proof. intros H out live w. unfold lift. cbn. now rewrite H. Qed.

Lemma pret_framed {A} (a : A) : Pframed (pret a).
Proof. intros out live w. reflexivity. Qed.

Lemma pbind_framed {A B} (m : P A) (k : A -> P B) :
  Pframed m -> (forall a, Pframed (k a)) -> Pframed (pbind m k).
Proof.
  intros Hm Hk out live w. unfold pbind. rewrite Hm.
  destruct (m w) as [[a w1]|]; cbn [option_map fst snd]; [apply Hk | reflexivity].
Qed.

Ltac framed_step :=
  first [ apply pbind_framed; [|intros ?]
        | apply pret_framed
        | apply lift_framed;
          first [ apply peekToken_framed | apply nextToken_framed
                | apply printf_framed | apply createLiteralTree_framed
                | apply createBinaryExpressionTree_framed
                | apply destroy_framed ]
        | assumption
        | match goal with
          | |- Pframed (if ?b then _ else _) => destruct b
          end ].

Lemma parse_framed (fuel : nat) :
  Pframed (parsePrimary fuel) /\
  Pframed (parseMultiplicativeExpression fuel) /\
  Pframed (parseAdditiveExpression fuel) /\
  Pframed (parseExpression fuel).
Proof.
  induction fuel as [|f (IHP & IHM & IHA & IHE)].
  - repeat split; intros out live w; reflexivity.
  - split; [|split; [|split]].
    + cbn [parsePrimary]. repeat framed_step.
    + cbn [parseMultiplicativeExpression]. repeat framed_step.
    + cbn [parseAdditiveExpression]. repeat framed_step.
    + cbn [parseExpression]. exact IHA.
Qed.

(** ** A stale [nextCharacterIndex] does not matter *)

Lemma scan_stale (sc : Scanner) (nx : nat) :
  Scanner_peekToken (setNext nx sc) = Scanner_peekToken sc \/
  exists lines,
    Scanner_peekToken sc = (mkToken [] TOKEN_TYPE_NULL, sc, lines) /\
    Scanner_peekToken (setNext nx sc)
    = (mkToken [] TOKEN_TYPE_NULL, setNext nx sc, lines).
Proof.
  unfold Scanner_peekToken.
  change (getCharacter (setNext nx sc)) with (getCharacter sc).
  change (buffer (setNext nx sc)) with (buffer sc).
  destruct (getCharacter sc =? 0); [right; now exists []|].
  destruct (negb (isprint (getCharacter sc))); [right; now exists [msgBadStream]|].
  left.
  change (mkLocals (mkToken [] TOKEN_TYPE_NULL) (getCharacter sc) (setNext nx sc))
    with (liftNext nx (mkLocals (mkToken [] TOKEN_TYPE_NULL) (getCharacter sc) sc)).
  rewrite (while_commute (liftNext nx)) by reflexivity.
  set (st1 := while _ advanceChar _ _).
  change (l_c (liftNext nx st1)) with (l_c st1).
  destruct (beginsWithDigit (l_c st1)).
  - change (mkLocals (mkToken (name (l_t (liftNext nx st1))) TOKEN_TYPE_INTEGER)
                     (l_c st1) (l_s (liftNext nx st1)))
      with (liftNext nx (mkLocals (mkToken (name (l_t st1)) TOKEN_TYPE_INTEGER)
                                  (l_c st1) (l_s st1))).
    rewrite (while_commute (liftNext nx)) by reflexivity.
    set (st2 := while _ appendDigit _ _).
    change (l_c (liftNext nx st2)) with (l_c st2).
    destruct (isTrailing (l_c st2)).
    + rewrite (while_commute (liftNext nx)) by reflexivity. reflexivity.
    + reflexivity.
  - repeat match goal with
           | |- context [if ?b then _ else _] => destruct b
           end; reflexivity.
Qed.

Lemma agree_refl {A} nx (r : option (A * World)) : agree nx r r.
Proof. destruct r as [[a w]|]; cbn; auto. Qed.

Lemma pret_stale {A} (a : A) : Pstale (pret a).
Proof. intros nx w. cbn. auto. Qed.

Lemma lift_stale {A} (m : M A) : Mstale m -> Pstale (lift m).
Proof.
  intros H nx w. unfold lift, agree. rewrite H.
  destruct (m w) as [a w1]. cbn. auto.
Qed.

Lemma pbind_stale {A B} (m : P A) (k : A -> P B) :
  Pstale m -> (forall a, Pstale (k a)) -> Pstale (pbind m k).
Proof.
  intros Hm Hk nx w. unfold pbind. specialize (Hm nx w). unfold agree in Hm.
  destruct (m w) as [[a w1]|], (m (staleNext nx w)) as [[a' w2]|];
    try contradiction; [|exact I].
  destruct Hm as [<- [-> | ->]]; [apply agree_refl | apply Hk].
Qed.

(** After [peekToken] the two runs differ only when the token was returned
    early, with type TOKEN_TYPE_NULL. *)
Lemma peek_guard {B} (k : Token -> P B) :
  (forall t, type t = TOKEN_TYPE_NULL -> Pstale (k t)) ->
  Pstale (pbind (lift peekToken) k).
Proof.
  intros Hk nx w. unfold pbind, lift, peekToken.
  cbn [staleNext s stdout liveNodes].
  destruct (scan_stale (s w) nx) as [E | (lines & E1 & E2)].
  - rewrite E. destruct (Scanner_peekToken (s w)) as [[t sc] lines].
    apply agree_refl.
  - rewrite E1, E2. apply (Hk (mkToken [] TOKEN_TYPE_NULL) eq_refl nx).
Qed.

Lemma printf_stale line : Mstale (printf line).
Proof. intros nx w. reflexivity. Qed.

Ltac stale_step :=
  first [ apply peek_guard;
          let t := fresh "t" in
          let Hn := fresh "Hn" in
          intros t Hn;
          rewrite ?(null_matches t TOKEN_TYPE_INTEGER Hn),
                  ?(null_matches t TOKEN_TYPE_LPAREN Hn),
                  ?(null_not_factor t Hn), ?(null_not_term t Hn)
            by discriminate
        | apply pbind_stale; [|intros ?]
        | apply pret_stale
        | apply lift_stale; apply printf_stale
        | assumption ].

Lemma parse_next_free (fuel : nat) :
  Pstale (parsePrimary fuel) /\
  Pstale (parseMultiplicativeExpression fuel) /\
  Pstale (parseAdditiveExpression fuel) /\
  Pstale (parseExpression fuel).
Proof.
  induction fuel as [|f (IHP & IHM & IHA & IHE)].
  - repeat split; intros nx w; exact I.
  - split; [|split; [|split]].
    + cbn [parsePrimary]. repeat stale_step.
    + cbn [parseMultiplicativeExpression]. repeat stale_step.
    + cbn [parseAdditiveExpression]. repeat stale_step.
    + cbn [parseExpression]. exact IHA.
Qed.

Lemma parse_any_state (w : World) (buf : list ascii) :
  exists tree wp w',
    parse buf = Some (tree, wp) /\
    parseExpression (parseFuel (length buf)) (snd (setBuffer buf w))
    = Some (tree, w') /\
    stdout w' = stdout w ++ stdout wp /\
    liveNodes w' = liveNodes w + liveNodes wp /\
    buffer (s w') = buffer (s wp) /\
    currentCharacterIndex (s w') = currentCharacterIndex (s wp).
Proof.
  destruct (parse_total buf) as (tree & wp & E).
  exists tree, wp. unfold parse in E |- *.
  assert (Hw : snd (setBuffer buf w)
               = shift (stdout w) (liveNodes w)
                       (staleNext (nextCharacterIndex (s w))
                                  (snd (setBuffer buf initialWorld)))).
  { cbn. unfold shift. cbn. now rewrite app_nil_r, Z.add_0_r. }
  rewrite Hw.
  rewrite (proj2 (proj2 (proj2 (parse_framed _)))).
  pose proof (proj2 (proj2 (proj2 (parse_next_free (parseFuel (length buf)))))
                (nextCharacterIndex (s w)) (snd (setBuffer buf initialWorld)))
    as Hag.
  rewrite E in Hag. unfold agree in Hag.
  destruct (parseExpression _ (staleNext _ _)) as [[tree' w2]|];
    [|contradiction].
  destruct Hag as [<- Hw2]. cbn [option_map fst snd].
  eexists. split; [exact E|]. split; [reflexivity|].
  destruct Hw2 as [-> | ->]; cbn; auto.
Qed.

(** X3.  A parse depends on the buffer alone.  After [s.setBuffer(buf)] in
    any state of the program (a stale [nextCharacterIndex] from an earlier
    source, earlier output, nodes still allocated) [parseExpression]
    returns the tree it returns at start-up, prints the same lines after
    what was printed before, allocates the same number of nodes and leaves
    the cursor at the same index. *)
Theorem parse_ignores_previous_state (w : World) (buf : list ascii) :
  exists tree wp w',
    parse buf = Some (tree, wp) /\
    parseExpression (parseFuel (length buf)) (snd (setBuffer buf w))
    = Some (tree, w') /\
    stdout w' = stdout w ++ stdout wp /\
    liveNodes w' = liveNodes w + liveNodes wp /\
    buffer (s w') = buffer (s wp) /\
    currentCharacterIndex (s w') = currentCharacterIndex (s wp).
Proof.
  exact (parse_any_state w buf).
Qed.

(** ** The self-test *)

Lemma testEntry_runs (i : Tester) (w : World) :
  exists w', testEntry i w = Some (tt, w') /\
             stdout w' = stdout w ++ report i /\
             liveNodes w' = liveNodes w /\
             buffer (s w') = ExpressionEvaluationTester.buffer i.
Proof.
  unfold testEntry, report. set (buf := ExpressionEvaluationTester.buffer i).
  destruct (parse_any_state w buf)
    as (tree & wp & w1 & Ep & E1 & Ho & Hl & Hb & _).
  destruct (parse_accounting buf) as (tree' & wp' & Ep' & Hn & _).
  rewrite Ep in Ep'. injection Ep' as <- <-.
  destruct (parse_in_bounds buf) as (tree' & wp' & Ep' & Hbuf & _).
  rewrite Ep in Ep'. injection Ep' as <- <-.
  unfold pbind, lift. cbn [setBuffer withScanner].
  change (mkWorld (Scanner_setBuffer buf (s w)) (stdout w) (liveNodes w))
    with (snd (setBuffer buf w)).
  rewrite E1, Ep. cbn [printf].
  pose proof (destroy_all tree
                (mkWorld (s w1)
                   (stdout w1 ++ [testLine i (evaluateConstantExpressionTree tree)])
                   (liveNodes w1))) as D.
  destruct (destroyExpressionTreeWithChildren tree _) as [[] w2].
  cbn [snd] in D. subst w2. eexists. split; [reflexivity|].
  cbn [stdout liveNodes s]. rewrite Ho, Hl, Hn, Hb, Hbuf, <- app_assoc.
  repeat split. lia.
Qed.

(** X4.  The self-test on any table of expressions runs to its end; it
    prints, entry after entry, the lines of the parse followed by one
    verdict line, which says "passed" exactly when the value computed
    equals the expected one, and it leaves allocated what was allocated
    before.  On the table of the program the output is three "passed"
    lines and [main] returns 0. *)
Theorem testExpressions_reports_and_frees :
  (forall table w,
      exists w', testTable table w = Some (tt, w') /\
                 stdout w' = stdout w ++ concat (map report table) /\
                 liveNodes w' = liveNodes w) /\
  (exists w, main initialWorld = Some (0, w) /\
             liveNodes w = 0 /\
             stdout w
             = [ str "Test passed 4 + 3 * 8 :: (my result: 28) == (compilers result: 28)" ++ nl;
                 str "Test passed (4 + 3) * 8 :: (my result: 56) == (compilers result: 56)" ++ nl;
                 str "Test passed (4 + 3 * 8) + 8 * 8 + (4 * 4) :: (my result: 108) == (compilers result: 108)" ++ nl ]).
Proof.
  split.
  - induction table as [|i rest IH]; intros w.
    + exists w. cbn. now rewrite app_nil_r.
    + destruct (testEntry_runs i w) as (w1 & E1 & Ho1 & Hl1 & _).
      destruct (IH w1) as (w2 & E2 & Ho2 & Hl2).
      exists w2. cbn [testTable map concat]. unfold pbind at 1. rewrite E1.
      split; [exact E2|]. rewrite Ho2, Ho1, Hl2, Hl1, app_assoc. auto.
  - eexists. split; [vm_compute; reflexivity | split; reflexivity].
Qed.



(** ** Negation *)

(** X6.  A Unary node tagged '-' is the additive inverse modulo 2^64: its
    value with the value of its child sums to 0, a - b is a + (-b), two
    negations cancel; a Unary node with any other tag has the value of its
    child. *)
Theorem unary_minus_is_the_inverse :
  (forall t,
      evaluateConstantExpressionTree
        (bin TOKEN_TYPE_ADD t (UnaryExpressionTree TOKEN_TYPE_MINUS t)) = 0) /\
  (forall a b,
      evaluateConstantExpressionTree (bin TOKEN_TYPE_MINUS a b)
      = evaluateConstantExpressionTree
          (bin TOKEN_TYPE_ADD a (UnaryExpressionTree TOKEN_TYPE_MINUS b))) /\
  (forall t,
      evaluateConstantExpressionTree
        (UnaryExpressionTree TOKEN_TYPE_MINUS
           (UnaryExpressionTree TOKEN_TYPE_MINUS t))
      = evaluateConstantExpressionTree t) /\
  (forall op t,
      op <> TOKEN_TYPE_MINUS ->
      evaluateConstantExpressionTree (UnaryExpressionTree op t)
      = evaluateConstantExpressionTree t).
Proof.
  split; [|split; [|split]].
  - intros t.
    cbn [bin evaluateConstantExpressionTree TokenType_to_int Z.eqb Pos.eqb].
    unfold u64. rewrite Zplus_mod_idemp_r, Z.add_opp_diag_r. reflexivity.
  - intros a b.
    cbn [bin evaluateConstantExpressionTree TokenType_to_int Z.eqb Pos.eqb].
    unfold u64. now rewrite Zplus_mod_idemp_r.
  - intros t. cbn [evaluateConstantExpressionTree].
    unfold u64. pose proof (eval_range t) as R.
    set (v := evaluateConstantExpressionTree t) in *.
    rewrite <- (Z.sub_0_l ((- v) mod 2 ^ 64)), Zminus_mod_idemp_r.
    rewrite Z.sub_0_l, Z.opp_involutive. now apply Z.mod_small.
  - intros op t Hop. destruct op; try reflexivity. congruence.
Qed.

Lemma unary_minus_is_the_inverse_witness :
  TOKEN_TYPE_ADD <> TOKEN_TYPE_MINUS /\
  evaluateConstantExpressionTree (UnaryExpressionTree TOKEN_TYPE_ADD (lit "7"))
  = evaluateConstantExpressionTree (lit "7").
Proof.
  split; [discriminate|].
  apply (proj2 (proj2 (proj2 unary_minus_is_the_inverse))). discriminate.
Defined.

(** ** Literals *)

(** X7.  A Literal node whose token text is a run of digits evaluates to
    the decimal value of the digits (leading zeros do not make it octal),
    saturated at LLONG_MAX = 2^63 - 1, the largest value of [atoll]. *)
Theorem literal_value_saturates (ds : list ascii) :
  isDigits ds = true ->
  evaluateConstantExpressionTree (LiteralTree (mkToken ds TOKEN_TYPE_INTEGER))
  = Z.min (decimal ds) LLONG_MAX.
Proof.
  intros Hds. destruct (isDigits_inv ds Hds) as [Hall Hhd].
  pose proof (decimal_nonneg_from ds 0 Hall (Z.le_refl 0)) as Hpos.
  fold (decimal ds) in Hpos.
  cbn [evaluateConstantExpressionTree name].
  rewrite c_str_digits by exact Hall.
  assert (Ha : atoll ds = Z.min (decimal ds) LLONG_MAX).
  { unfold atoll. destruct ds as [|a ds]; [discriminate|].
    cbn [headChar] in Hhd. destruct (digit_classes _ Hhd) as (Hz & Hpr & Hsp).
    cbn [dropSpaces]. rewrite Hsp. rewrite <- (digit_code a Hhd).
    assert (Hm : (charToInt a =? code "-") = false)
      by (change (code "-") with 45; clear - Hhd; classes).
    assert (Hp : (charToInt a =? code "+") = false)
      by (change (code "+") with 43; clear - Hhd; classes).
    rewrite Hm, Hp, digitsValue_decimal by exact Hall.
    fold (decimal (a :: ds)). unfold LLONG_MIN, LLONG_MAX in *. lia. }
  rewrite Ha. unfold u64, LLONG_MAX. apply Z.mod_small. lia.
Qed.

Lemma literal_value_saturates_witness :
  isDigits (str "0099999999999999999999") = true /\
  evaluateConstantExpressionTree (lit "0099999999999999999999")
  = Z.min (decimal (str "0099999999999999999999")) LLONG_MAX.
Proof.
  split; [reflexivity|].
  exact (literal_value_saturates (str "0099999999999999999999") eq_refl).
Defined.

(** ** Tokens after blank space *)

(** X8.  Behind blank space (nothing, or a space followed by white space)
    a run of digits that no letter, digit, underscore or dot continues is
    returned as the Integer token with exactly those digits, and each of
    '+', '-', '*', '(' and ')' as the token of its type with that
    character as text; nothing is printed, the committed index stays, and
    [nextToken] then moves it exactly past the token. *)
Theorem peek_then_next_consumes_the_token :
  (forall pre ws ds post nx out live,
      blank ws = true -> isDigits ds = true -> delimited post = true ->
      let w := mkWorld (mkScanner (pre ++ ws ++ ds ++ post) (length pre) nx)
                       out live in
      fst (peekToken w) = mkToken ds TOKEN_TYPE_INTEGER /\
      stdout (snd (peekToken w)) = out /\
      currentCharacterIndex (s (snd (peekToken w))) = length pre /\
      currentCharacterIndex (s (snd (nextToken (snd (peekToken w)))))
      = (length pre + length ws + length ds)%nat) /\
  (forall pre ws a ty post nx out live,
      blank ws = true -> symbolType a = Some ty ->
      let w := mkWorld (mkScanner (pre ++ ws ++ a :: post) (length pre) nx)
                       out live in
      fst (peekToken w) = mkToken [a] ty /\
      stdout (snd (peekToken w)) = out /\
      currentCharacterIndex (s (snd (peekToken w))) = length pre /\
      currentCharacterIndex (s (snd (nextToken (snd (peekToken w)))))
      = (length pre + length ws + 1)%nat).
Proof.
  split.
  - intros pre ws ds post nx out live Hws Hds Hpost w. unfold w, peekToken.
    cbn [s]. rewrite scan_digits by assumption.
    cbn. rewrite app_nil_r. auto.
  - intros pre ws a ty post nx out live Hws Hty w. unfold w, peekToken.
    cbn [s]. rewrite (scan_symbol pre ws a ty post nx Hws Hty).
    cbn. rewrite app_nil_r. auto.
Qed.

Lemma peek_then_next_consumes_the_token_witness :
  blank (str " ") = true /\ isDigits (str "42") = true /\
  delimited (str ")") = true /\
  fst (peekToken (mkWorld (mkScanner (str "(" ++ str " " ++ str "42" ++ str ")")
                                     1 0) [] 0))
  = mkToken (str "42") TOKEN_TYPE_INTEGER.
Proof.
  refine (conj eq_refl (conj eq_refl (conj eq_refl _))).
  exact (proj1 (proj1 peek_then_next_consumes_the_token
                  (str "(") (str " ") (str "42") (str ")") 0%nat [] 0
                  eq_refl eq_refl eq_refl)).
Defined.

Lemma treeM_cons p ws rest : treeM (MCons p ws rest) = treeMwith (treeP p) rest.
Proof. destruct rest; reflexivity. Qed.

Lemma treeA_cons m ws op rest :
  treeA (ACons m ws op rest) = treeAwith (treeM m) op rest.
Proof. destruct rest; reflexivity. Qed.

Lemma mulFrom_valM acc m : mulFrom acc m = acc * valM m.
Proof.
  revert acc. induction m as [p | p ws rest IH]; intros acc;
    cbn [mulFrom valM]; [reflexivity|].
  rewrite IH, (IH (valP p)). ring.
Qed.

Lemma addFrom_shift a b op e : addFrom (a + b) op e = a + addFrom b op e.
Proof.
  revert b op. induction e as [m | m ws op' rest IH]; intros b op;
    cbn [addFrom].
  - destruct op; cbn [applyOp]; ring.
  - rewrite <- IH. f_equal. destruct op; cbn [applyOp]; ring.
Qed.

Lemma addFrom_add acc e : addFrom acc OpAdd e = acc + valA e.
Proof.
  destruct e as [m | m ws op rest]; cbn [addFrom valA applyOp];
    [reflexivity|].
  apply addFrom_shift.
Qed.

Lemma eval_regular :
  (forall p, wfP p = true -> litsP p = true -> regularP p = true ->
             evaluateConstantExpressionTree (treeP p) = u64 (valP p)) /\
  (forall m, wfM m = true -> litsM m = true -> regularM m = true ->
             evaluateConstantExpressionTree (treeM m) = u64 (valM m) /\
             forall a va,
               evaluateConstantExpressionTree a = u64 va ->
               evaluateConstantExpressionTree (treeMwith a m)
               = u64 (mulFrom va m)) /\
  (forall e, wfA e = true -> litsA e = true ->
             (regularA e = true ->
              evaluateConstantExpressionTree (treeA e) = u64 (valA e)) /\
             (regularTail e = true ->
              forall a va op,
                evaluateConstantExpressionTree a = u64 va ->
                evaluateConstantExpressionTree (treeAwith a op e)
                = u64 (addFrom va op e))).
Proof.
  apply Expr_mutind.
  - intros ws ds Hwf Hlit _. cbn [wfP litsP] in *.
    apply andb_prop in Hwf as [_ Hds]. apply Z.leb_le in Hlit.
    cbn [treeP valP]. now apply eval_literal.
  - intros ws1 e IH ws2 Hwf Hlit Hreg. cbn [wfP litsP regularP] in *.
    apply andb_prop in Hwf as [Hwf _]. apply andb_prop in Hwf as [_ Hwf].
    cbn [treeP valP]. now apply IH.
  - intros p IH Hwf Hlit Hreg. cbn [wfM litsM regularM] in *.
    specialize (IH Hwf Hlit Hreg). split; [exact IH|].
    intros a va Ha. cbn [treeMwith mulFrom].
    now rewrite eval_mul, Ha, IH, u64_mul.
  - intros p IHp ws rest IHrest Hwf Hlit Hreg.
    cbn [wfM litsM regularM] in *.
    apply andb_prop in Hwf as [Hwf Hwr]. apply andb_prop in Hwf as [Hwp _].
    apply andb_prop in Hlit as [Hlp Hlr]. apply andb_prop in Hreg as [Hrp Hrr].
    specialize (IHp Hwp Hlp Hrp).
    destruct (IHrest Hwr Hlr Hrr) as [IH1 IH2].
    split.
    + rewrite treeM_cons. cbn [valM]. now apply IH2.
    + intros a va Ha. cbn [treeMwith mulFrom].
      rewrite !eval_mul, Ha, IHp, IH1, (u64_mul va (valP p)), u64_mul.
      now rewrite mulFrom_valM.
  - intros m IH Hwf Hlit. cbn [wfA litsA regularA regularTail] in *.
    split.
    + intros Hreg. now apply IH.
    + intros Hreg a va op Ha. cbn [treeAwith addFrom].
      rewrite eval_addOp, Ha, (proj1 (IH Hwf Hlit Hreg)).
      apply u64_applyOp.
  - intros m IHm ws op' rest IHrest Hwf Hlit.
    cbn [wfA litsA regularA regularTail] in *.
    apply andb_prop in Hwf as [Hwf Hwr]. apply andb_prop in Hwf as [Hwm _].
    apply andb_prop in Hlit as [Hlm Hlr].
    destruct (IHrest Hwr Hlr) as [IH1 IH2].
    split.
    + intros Hreg. apply andb_prop in Hreg as [Hrm Hrt].
      rewrite treeA_cons. cbn [valA].
      apply IH2; [exact Hrt|]. now apply IHm.
    + intros Hreg a va op Ha.
      apply andb_prop in Hreg as [Hreg Hrr]. apply andb_prop in Hreg as [Hrm Hop].
      cbn [treeAwith addFrom].
      rewrite !eval_addOp, Ha, (proj1 (IHm Hwm Hlm Hrm)), (IH1 Hrr).
      rewrite (u64_applyOp op va (valM m)), u64_applyOp. f_equal.
      apply orb_prop in Hop as [Hop | Hop].
      * destruct op'; [|discriminate]. cbn [applyOp]. now rewrite addFrom_add.
      * destruct rest; [|discriminate]. reflexivity.
Qed.

(** X9.  The value is right for chains of any length whenever the
    grouping of the parser does not matter: for every well-formed
    expression text with literals of at most 2^63 - 1 in which, in every
    additive chain, each operator at an even place is '+' or is the last
    one, evaluating the parsed tree gives the value of the expression
    modulo 2^64.  Chains of '*' and chains of '+' of any length are among
    them. *)
Theorem evaluate_regular_chains (e : AddE) (trail : list ascii) :
  wfA e = true -> litsA e = true -> regularA e = true ->
  allSpaces trail = true ->
  evaluate (renderA e ++ trail) = Some (u64 (valA e)).
Proof.
  intros Hwf Hlit Hreg Hsp. unfold evaluate.
  destruct (parse_wellformed_spaces e trail Hwf Hsp) as [w ->].
  now rewrite (proj1 (proj2 (proj2 eval_regular) e Hwf Hlit) Hreg).
Qed.

Lemma evaluate_regular_chains_witness :
  wfA exprLongChains = true /\ litsA exprLongChains = true /\
  regularA exprLongChains = true /\ allSpaces [] = true /\
  evaluate (str "2 * 3 * 4 * 5 - 1 + 2 + 3 - 4" ++ []) = Some (u64 120).
Proof.
  refine (conj eq_refl (conj eq_refl (conj eq_refl (conj eq_refl _)))).
  exact (evaluate_regular_chains exprLongChains [] eq_refl eq_refl eq_refl
                                 eq_refl).
Defined.

(** ** An operator without its right operand *)

Lemma dangling_additive m ws op trail :
  wfM m = true -> blank ws = true -> allSpaces trail = true ->
  parsedTree (renderM m ++ ws ++ addOpChar op :: trail)
  = Some (bin (addOpType op) (treeM m) nullptr).
Proof.
  intros Hm Hws Hsp.
  set (buf := renderM m ++ ws ++ addOpChar op :: trail).
  assert (Hbuf : buf = [] ++ renderM m ++ ws ++ addOpChar op :: trail)
    by reflexivity.
  destruct (parse_total buf) as (tree & w & Hparse).
  unfold parsedTree. rewrite Hparse. unfold parse in Hparse.
  rewrite parseFuel_S in Hparse. cbn [parseExpression] in Hparse.
  set (w0 := snd (setBuffer buf initialWorld)) in *.
  assert (Hat0 : atPos buf 0 w0) by (split; reflexivity).
  assert (Hop : tokenAt buf (0 + length (renderM m))
                = mkToken [addOpChar op] (addOpType op)).
  { apply (tokenAt_symbol buf (renderM m) ws _ _ trail);
      [reflexivity | reflexivity | exact Hws | apply addOp_symbol]. }
  destruct (tokenAt_spaces buf (renderM m ++ ws ++ [addOpChar op]) trail
              (0 + length (renderM m) + length ws + 1)%nat) as [Hnull _];
    [unfold buf; now rewrite <- !app_assoc
    | rewrite !length_app; cbn [length]; lia | exact Hsp |].
  remember (S (S (4 * length buf))) as f eqn:Hf.
  cbn [parseAdditiveExpression] in Hparse. unfold pbind, lift in Hparse.
  destruct (parseMultiplicativeExpression f w0) as [[a w1]|] eqn:HM;
    [|discriminate].
  destruct (proj1 (proj2 (parse_sound f)) m [] (ws ++ addOpChar op :: trail)
              buf 0%nat w0 _ Hm
              (delimited_symbol ws _ _ trail Hws (addOp_symbol op))
              ltac:(rewrite Hop; destruct op; reflexivity)
              Hbuf eq_refl Hat0 HM) as [Ha Hat1].
  cbn [fst snd] in Ha, Hat1. subst a.
  destruct (peek_symbol_i w1 buf (0 + length (renderM m))%nat (renderM m) ws
              (addOpChar op) (addOpType op) trail eq_refl eq_refl Hat1 Hws
              (addOp_symbol op)) as (Ht & Hat2 & Hnx2).
  destruct (peekToken w1) as [tok w2]. cbn [fst snd] in Ht, Hat2, Hnx2.
  subst tok.
  assert (Hterm : matchTerm (mkToken [addOpChar op] (addOpType op)) = true)
    by (destruct op; reflexivity).
  rewrite Hterm in Hparse. cbn [nextToken withScanner] in Hparse.
  pose proof (atPos_nextToken _ _ _ w2 Hat2 Hnx2) as Hat3.
  cbn [nextToken withScanner snd] in Hat3.
  set (w3 := mkWorld (Scanner_nextToken (s w2)) _ _) in *.
  subst f.
  destruct (parseMultiplicative_null (S (4 * length buf)) w3 buf _ _ Hnull
              (parsePrimary_null (4 * length buf) w3 buf _ Hat3 Hnull))
    as (w4 & E4 & Hat4 & _).
  rewrite E4 in Hparse.
  cbn [createBinaryExpressionTree bind new_node] in Hparse. unfold ret in Hparse.
  set (w5 := mkWorld (s w4) _ _) in *.
  assert (Hat5 : atPos buf (0 + length (renderM m) + length ws + 1) w5)
    by exact Hat4.
  pose proof (peekToken_token w5 _ _ Hat5) as Ht5.
  destruct (peekToken w5) as [tok w6]. cbn [fst snd] in Ht5. subst tok.
  rewrite (null_not_term _ Hnull) in Hparse.
  injection Hparse as <- _. reflexivity.
Qed.

Lemma dangling_star p ws trail :
  wfP p = true -> blank ws = true -> allSpaces trail = true ->
  parsedTree (renderP p ++ ws ++ "*"%char :: trail)
  = Some (bin TOKEN_TYPE_MUL (treeP p) nullptr).
Proof.
  intros Hp Hws Hsp.
  set (buf := renderP p ++ ws ++ "*"%char :: trail).
  assert (Hbuf : buf = [] ++ renderP p ++ ws ++ "*"%char :: trail)
    by reflexivity.
  destruct (parse_total buf) as (tree & w & Hparse).
  unfold parsedTree. rewrite Hparse. unfold parse in Hparse.
  rewrite parseFuel_S in Hparse. cbn [parseExpression] in Hparse.
  set (w0 := snd (setBuffer buf initialWorld)) in *.
  assert (Hat0 : atPos buf 0 w0) by (split; reflexivity).
  destruct (tokenAt_spaces buf (renderP p ++ ws ++ ["*"%char]) trail
              (0 + length (renderP p) + length ws + 1)%nat) as [Hnull _];
    [unfold buf; now rewrite <- !app_assoc
    | rewrite !length_app; cbn [length]; lia | exact Hsp |].
  remember (S (4 * length buf)) as f eqn:Hf.
  cbn [parseAdditiveExpression] in Hparse. unfold pbind at 1, lift in Hparse.
  cbn [parseMultiplicativeExpression] in Hparse.
  unfold pbind, lift in Hparse.
  destruct (parsePrimary f w0) as [[a w1]|] eqn:HP; [|discriminate].
  destruct (proj1 (parse_sound f) p [] (ws ++ "*"%char :: trail)
              buf 0%nat w0 _ Hp
              (delimited_symbol ws "*"%char TOKEN_TYPE_MUL trail Hws eq_refl)
              Hbuf eq_refl Hat0 HP) as [Ha Hat1].
  cbn [fst snd] in Ha, Hat1. subst a.
  destruct (peek_symbol_i w1 buf (0 + length (renderP p))%nat (renderP p) ws
              "*"%char TOKEN_TYPE_MUL trail eq_refl eq_refl Hat1 Hws eq_refl)
    as (Ht & Hat2 & Hnx2).
  destruct (peekToken w1) as [tok w2]. cbn [fst snd] in Ht, Hat2, Hnx2.
  subst tok.
  cbn [matchFactor type TokenType_eqb TokenType_to_int Z.eqb Pos.eqb] in Hparse.
  cbn [nextToken withScanner] in Hparse.
  pose proof (atPos_nextToken _ _ _ w2 Hat2 Hnx2) as Hat3.
  cbn [nextToken withScanner snd] in Hat3.
  set (w3 := mkWorld (Scanner_nextToken (s w2)) _ _) in *.
  subst f.
  destruct (parsePrimary_null (4 * length buf) w3 buf _ Hat3 Hnull)
    as (w4 & E4 & Hat4 & _).
  rewrite E4 in Hparse.
  cbn [createBinaryExpressionTree bind new_node] in Hparse. unfold ret in Hparse.
  set (w5 := mkWorld (s w4) _ _) in *.
  assert (Hat5 : atPos buf (0 + length (renderP p) + length ws + 1) w5)
    by exact Hat4.
  pose proof (peekToken_token w5 _ _ Hat5) as Ht5.
  pose proof (peekToken_atPos w5 _ _ Hat5) as Hat6.
  destruct (peekToken w5) as [tok w6]. cbn [fst snd] in Ht5, Hat6. subst tok.
  rewrite (null_not_factor _ Hnull) in Hparse. unfold pret in Hparse.
  pose proof (peekToken_token w6 _ _ Hat6) as Ht6.
  destruct (peekToken w6) as [tok w7]. cbn [fst snd] in Ht6. subst tok.
  rewrite (null_not_term _ Hnull) in Hparse.
  injection Hparse as <- _. reflexivity.
Qed.

(** X10.  An operator at the end of the input gets a null right child: a
    well-formed multiplicative chain followed by '+' or '-' parses to
    Binary(op, chain, null) and evaluates to the value of the chain, and a
    well-formed primary followed by '*' parses to Binary('*', primary,
    null) and evaluates to 0. *)
Theorem dangling_operator :
  (forall m ws op trail,
      wfM m = true -> blank ws = true -> allSpaces trail = true ->
      parsedTree (renderM m ++ ws ++ addOpChar op :: trail)
      = Some (bin (addOpType op) (treeM m) nullptr) /\
      evaluate (renderM m ++ ws ++ addOpChar op :: trail)
      = Some (evaluateConstantExpressionTree (treeM m))) /\
  (forall p ws trail,
      wfP p = true -> blank ws = true -> allSpaces trail = true ->
      parsedTree (renderP p ++ ws ++ "*"%char :: trail)
      = Some (bin TOKEN_TYPE_MUL (treeP p) nullptr) /\
      evaluate (renderP p ++ ws ++ "*"%char :: trail) = Some 0).
Proof.
  split.
  - intros m ws op trail Hm Hws Hsp.
    pose proof (dangling_additive m ws op trail Hm Hws Hsp) as H.
    split; [exact H|]. unfold parsedTree in H. unfold evaluate.
    destruct (parse _) as [[tree w]|]; [|discriminate].
    cbn in H. injection H as ->. f_equal.
    rewrite eval_addOp. cbn [evaluateConstantExpressionTree].
    pose proof (eval_range (treeM m)) as R.
    unfold u64. destruct op; cbn [applyOp];
      rewrite ?Z.add_0_r, ?Z.sub_0_r; now apply Z.mod_small.
  - intros p ws trail Hp Hws Hsp.
    pose proof (dangling_star p ws trail Hp Hws Hsp) as H.
    split; [exact H|]. unfold parsedTree in H. unfold evaluate.
    destruct (parse _) as [[tree w]|]; [|discriminate].
    cbn in H. injection H as ->. f_equal.
    rewrite eval_mul. cbn [evaluateConstantExpressionTree].
    now rewrite Z.mul_0_r.
Qed.

Lemma dangling_operator_witness :
  wfP (num "5") = true /\ blank (str " ") = true /\ allSpaces [] = true /\
  parsedTree (str "5" ++ str " " ++ "*"%char :: [])
  = Some (bin TOKEN_TYPE_MUL (lit "5") nullptr) /\
  evaluate (str "5" ++ str " " ++ "*"%char :: []) = Some 0.
Proof.
  refine (conj eq_refl (conj eq_refl (conj eq_refl _))).
  exact (proj2 dangling_operator (num "5") (str " ") [] eq_refl eq_refl eq_refl).
Defined.

(** ** The text of an Integer token *)

Lemma while_advance_token (cond : Locals -> bool) fuel st :
  l_t (while cond advanceChar fuel st) = l_t st.
Proof.
  revert st. induction fuel as [|fuel IH]; intros st; cbn [while];
    [reflexivity|].
  destruct (cond st); [|reflexivity]. now rewrite IH.
Qed.

Lemma digit_roundtrip c :
  beginsWithDigit c = true -> charToInt (intToChar c) = c.
Proof.
  intros H. rewrite beginsWithDigit_eq in H. apply andb_prop in H as [H1 H2].
  apply Z.leb_le in H1, H2.
  assert (E : c = 48 \/ c = 49 \/ c = 50 \/ c = 51 \/ c = 52 \/ c = 53 \/
              c = 54 \/ c = 55 \/ c = 56 \/ c = 57) by lia.
  repeat destruct E as [-> | E]; try reflexivity. now subst c.
Qed.

Lemma while_digits_token fuel st :
  forallb (fun a => beginsWithDigit (charToInt a)) (name (l_t st)) = true ->
  let st' := while (fun st => beginsWithDigit (l_c st)) appendDigit fuel st in
  forallb (fun a => beginsWithDigit (charToInt a)) (name (l_t st')) = true /\
  type (l_t st') = type (l_t st) /\
  (fuel <> O -> beginsWithDigit (l_c st) = true -> name (l_t st') <> []).
Proof.
  revert st. induction fuel as [|fuel IH]; intros st Hall; cbn [while].
  - repeat split; [exact Hall | congruence].
  - destruct (beginsWithDigit (l_c st)) eqn:Hc.
    + destruct (IH (appendDigit st)) as (H1 & H2 & H3).
      { cbn [appendDigit advanceChar l_t name].
        rewrite forallb_app, Hall. cbn [forallb].
        now rewrite (digit_roundtrip _ Hc), Hc. }
      split; [exact H1|]. split; [exact H2|]. intros _ _.
      clear - Hc IH Hall.
      assert (Hne : name (l_t (appendDigit st)) <> [])
        by (cbn; now destruct (name (l_t st))).
      revert Hne. generalize (appendDigit st). clear.
      induction fuel as [|fuel IHf]; intros st Hne; cbn [while]; [exact Hne|].
      destruct (beginsWithDigit (l_c st)); [|exact Hne].
      apply IHf. cbn. now destruct (name (l_t st)).
    + repeat split; [exact Hall | congruence].
Qed.

Lemma while_bound_sync (sc : Scanner) :
  let st := while (fun st => isspace (l_c st)) advanceChar (length (buffer sc))
                  (mkLocals (mkToken [] TOKEN_TYPE_NULL) (getCharacter sc) sc) in
  inSync st /\ buffer (l_s st) = buffer sc.
Proof.
  cbn zeta. split.
  - generalize (length (buffer sc)).
    assert (H : inSync (mkLocals (mkToken [] TOKEN_TYPE_NULL) (getCharacter sc) sc))
      by reflexivity.
    revert H. generalize (mkLocals (mkToken [] TOKEN_TYPE_NULL) (getCharacter sc) sc).
    intros st H n. revert st H.
    induction n as [|n IH]; intros st H; cbn [while]; [exact H|].
    destruct (isspace (l_c st)); [|exact H]. apply IH, advanceChar_inSync.
  - apply (while_frame _ advanceChar advanceChar_buffer advanceChar_next
                       advanceChar_index).
Qed.

(** An Integer token carries a non-empty run of digits. *)
Lemma scan_integer_text (sc : Scanner) :
  type (fst (fst (Scanner_peekToken sc))) = TOKEN_TYPE_INTEGER ->
  isDigits (name (fst (fst (Scanner_peekToken sc)))) = true.
Proof.
  unfold Scanner_peekToken.
  destruct (getCharacter sc =? 0) eqn:Hz; [discriminate|].
  destruct (negb (isprint (getCharacter sc))); [discriminate|].
  destruct (while_bound_sync sc) as [S1 F1].
  pose proof (while_advance_token (fun st => isspace (l_c st))
                (length (buffer sc))
                (mkLocals (mkToken [] TOKEN_TYPE_NULL) (getCharacter sc) sc))
    as T1.
  cbn [l_t] in T1.
  set (st1 := while _ advanceChar _ _) in *.
  destruct (beginsWithDigit (l_c st1)) eqn:Hd.
  - intros _. rewrite T1. cbn [name].
    destruct (while_digits_token (length (buffer sc))
                (mkLocals (mkToken [] TOKEN_TYPE_INTEGER) (l_c st1) (l_s st1))
                eq_refl) as (H1 & _ & H3).
    cbn [l_c] in H3.
    assert (Hfuel : length (buffer sc) <> O).
    { assert (Hin : (currentCharacterIndex (l_s st1)
                     < length (buffer (l_s st1)))%nat).
      { apply getCharacter_inside. rewrite <- S1. intros E.
        rewrite E in Hd. discriminate. }
      rewrite F1 in Hin. lia. }
    specialize (H3 Hfuel Hd).
    set (st2 := while _ appendDigit _ _) in *.
    assert (Hok : isDigits (name (l_t st2)) = true).
    { unfold isDigits. destruct (name (l_t st2)); [congruence | exact H1]. }
    destruct (isTrailing (l_c st2)); cbn [fst]; [|exact Hok].
    now rewrite while_advance_token.
  - repeat match goal with
           | |- context [if ?b then _ else _] => destruct b
           end; cbn [fst type l_t]; discriminate.
Qed.

Lemma matchToken_true t ty : matchToken t ty = true -> type t = ty.
Proof. destruct t as [nm []]; destruct ty; cbn; congruence. Qed.

Lemma peek_integer_text w t w1 :
  peekToken w = (t, w1) -> matchToken t TOKEN_TYPE_INTEGER = true ->
  fromParser (LiteralTree t) = true.
Proof.
  intros E H. cbn [fromParser]. unfold matchToken in H. rewrite H.
  cbn [andb]. unfold peekToken in E.
  pose proof (scan_integer_text (s w)) as T.
  destruct (Scanner_peekToken (s w)) as [[t' sc] lines]. cbn [fst] in T.
  injection E as -> _. apply T. now apply matchToken_true.
Qed.

Lemma factor_tag tok l r :
  matchFactor tok = true -> fromParser l = true -> fromParser r = true ->
  fromParser (BinaryExpressionTree (TokenType_to_int (type tok)) l r) = true.
Proof.
  intros H Hl Hr. cbn [fromParser]. rewrite Hl, Hr.
  destruct tok as [nm []]; cbn in *; congruence.
Qed.

Lemma term_tag tok l r :
  matchTerm tok = true -> fromParser l = true -> fromParser r = true ->
  fromParser (BinaryExpressionTree (TokenType_to_int (type tok)) l r) = true.
Proof.
  intros H Hl Hr. cbn [fromParser]. rewrite Hl, Hr.
  destruct tok as [nm []]; cbn in *; congruence.
Qed.

Ltac shape_call g f IH r w' H' :=
  match goal with
  | H : context [g f ?w] |- _ =>
      let E := fresh "E" in
      destruct (g f w) as [[r w']|] eqn:E; [|discriminate H];
      pose proof (IH _ _ E) as H'; cbn [fst] in H'
  end.

Ltac shape_done H :=
  cbn [nextToken withScanner createLiteralTree createBinaryExpressionTree
       bind new_node printf] in H;
  unfold ret, pret in H;
  repeat match type of H with
         | context [destroyExpressionTreeWithChildren ?t ?w] =>
             destruct (destroyExpressionTreeWithChildren t w)
         end;
  injection H as <-; cbn [fst];
  first [ reflexivity | assumption
        | apply factor_tag; assumption | apply term_tag; assumption
        | eapply peek_integer_text; eassumption ].

Section ShapeStep.
Variable f : nat.
Hypothesis IHP : shaped parsePrimary f.
Hypothesis IHM : shaped parseMultiplicativeExpression f.
Hypothesis IHA : shaped parseAdditiveExpression f.
Hypothesis IHE : shaped parseExpression f.

Lemma shapeP_step : shaped parsePrimary (S f).
Proof.
  intros w r H. cbn [parsePrimary] in H. unfold pbind, lift in H.
  destruct (peekToken w) as [t w1] eqn:Ep.
  destruct (matchToken t TOKEN_TYPE_INTEGER) eqn:Hint; [shape_done H|].
  destruct (matchToken t TOKEN_TYPE_LPAREN); [|shape_done H].
  cbn [nextToken withScanner] in H.
  shape_call parseExpression f IHE tree w3 Ht.
  destruct (peekToken w3) as [t' w4].
  destruct (negb (TokenType_eqb (type t') TOKEN_TYPE_RPAREN)); shape_done H.
Qed.

Lemma shapeM_step : shaped parseMultiplicativeExpression (S f).
Proof.
  intros w r H. cbn [parseMultiplicativeExpression] in H.
  unfold pbind, lift in H.
  shape_call parsePrimary f IHP a w1 Ha.
  destruct (peekToken w1) as [tok w2].
  destruct (matchFactor tok) eqn:Hf1; [|shape_done H].
  cbn [nextToken withScanner] in H.
  shape_call parsePrimary f IHP b w4 Hb.
  cbn [createBinaryExpressionTree bind new_node] in H. unfold ret in H.
  destruct (peekToken _) as [tok' w6].
  pose proof (factor_tag tok a b Hf1 Ha Hb) as Hab.
  destruct (matchFactor tok') eqn:Hf2; [|shape_done H].
  cbn [nextToken withScanner] in H.
  shape_call parseMultiplicativeExpression f IHM c w8 Hc.
  shape_done H.
Qed.

Lemma shapeA_step : shaped parseAdditiveExpression (S f).
Proof.
  intros w r H. cbn [parseAdditiveExpression] in H.
  unfold pbind, lift in H.
  shape_call parseMultiplicativeExpression f IHM a w1 Ha.
  destruct (peekToken w1) as [tok w2].
  destruct (matchTerm tok) eqn:Hf1; [|shape_done H].
  cbn [nextToken withScanner] in H.
  shape_call parseMultiplicativeExpression f IHM b w4 Hb.
  cbn [createBinaryExpressionTree bind new_node] in H. unfold ret in H.
  destruct (peekToken _) as [tok' w6].
  pose proof (term_tag tok a b Hf1 Ha Hb) as Hab.
  destruct (matchTerm tok') eqn:Hf2; [|shape_done H].
  cbn [nextToken withScanner] in H.
  shape_call parseAdditiveExpression f IHA c w8 Hc.
  shape_done H.
Qed.

Lemma shapeE_step : shaped parseExpression (S f).
Proof. intros w r H. cbn [parseExpression] in H. exact (IHA w r H). Qed.
End ShapeStep.

Lemma parse_shaped (fuel : nat) :
  shaped parsePrimary fuel /\ shaped parseMultiplicativeExpression fuel /\
  shaped parseAdditiveExpression fuel /\ shaped parseExpression fuel.
Proof.
  induction fuel as [|f (IHP & IHM & IHA & IHE)].
  - unfold shaped. repeat split; intros; discriminate.
  - split; [|split; [|split]];
      [apply shapeP_step | apply shapeM_step | apply shapeA_step
       | apply shapeE_step]; assumption.
Qed.

(** X11.  Whatever the buffer holds, the tree that [parse] returns has no
    Unary node, its Binary nodes are tagged '+', '-' or '*' only, and the
    token of every Literal node is an Integer token whose text is a
    non-empty run of digits: the evaluator never reaches its untagged
    cases, and [atoll] only reads digits. *)
Theorem parse_builds_evaluable_trees (buf : list ascii) :
  exists tree w, parse buf = Some (tree, w) /\ fromParser tree = true.
Proof.
  destruct (parse_total buf) as (tree & w & E).
  exists tree, w. split; [exact E|].
  exact (proj2 (proj2 (proj2 (parse_shaped _))) _ _ E).
Qed.

(** ** Layout *)

Lemma strip_tree :
  (forall p, treeP (stripP p) = treeP p) /\
  (forall m, treeM (stripM m) = treeM m /\
             forall a, treeMwith a (stripM m) = treeMwith a m) /\
  (forall e, treeA (stripA e) = treeA e /\
             forall a op, treeAwith a op (stripA e) = treeAwith a op e).
Proof.
  apply Expr_mutind.
  - reflexivity.
  - intros ws1 e [IH _] ws2. exact IH.
  - intros p IH. cbn [stripM treeM treeMwith]. split; [exact IH|].
    intros a. now rewrite IH.
  - intros p IHp ws rest [IH1 IH2]. cbn [stripM]. split.
    + now rewrite !treeM_cons, IHp, IH2.
    + intros a. cbn [treeMwith]. now rewrite IHp, IH1.
  - intros m [IH _]. cbn [stripA treeA treeAwith]. split; [exact IH|].
    intros a op. now rewrite IH.
  - intros m [IHm _] ws op rest [IH1 IH2]. cbn [stripA]. split.
    + now rewrite !treeA_cons, IHm, IH2.
    + intros a op'. cbn [treeAwith]. now rewrite IHm, IH1.
Qed.

Lemma strip_wf :
  (forall p, wfP p = true -> wfP (stripP p) = true) /\
  (forall m, wfM m = true -> wfM (stripM m) = true) /\
  (forall e, wfA e = true -> wfA (stripA e) = true).
Proof.
  apply Expr_mutind; cbn [wfP wfM wfA stripP stripM stripA blank andb].
  - intros ws ds H. now apply andb_prop in H as [_ ->].
  - intros ws1 e IH ws2 H. apply andb_prop in H as [H _].
    apply andb_prop in H as [_ H]. now rewrite IH.
  - auto.
  - intros p IHp ws rest IHr H. apply andb_prop in H as [H Hr].
    apply andb_prop in H as [Hp _]. now rewrite IHp, IHr.
  - auto.
  - intros m IHm ws op rest IHr H. apply andb_prop in H as [H Hr].
    apply andb_prop in H as [Hm _]. now rewrite IHm, IHr.
Qed.

(** X12.  The layout of a well-formed expression does not matter: the tree
    parsed from its text, with any blank space before the tokens and any
    white space at the end, is the tree parsed from the same expression
    written without blank space, and a pair of parentheses around the
    whole expression does not change the tree. *)
Theorem layout_does_not_matter (e : AddE) :
  wfA e = true ->
  (forall trail, allSpaces trail = true ->
                 parsedTree (renderA e ++ trail) = parsedTree (renderA (stripA e))) /\
  (forall ws1 ws2 trail,
      blank ws1 = true -> blank ws2 = true -> allSpaces trail = true ->
      parsedTree (ws1 ++ "("%char :: renderA e ++ ws2 ++ ")"%char :: trail)
      = parsedTree (renderA e)).
Proof.
  intros Hwf.
  assert (He : parsedTree (renderA e) = Some (treeA e)).
  { rewrite <- (app_nil_r (renderA e)). now apply parsedTree_wellformed. }
  split.
  - intros trail Hsp. rewrite (parsedTree_wellformed e trail Hwf Hsp).
    rewrite <- (app_nil_r (renderA (stripA e))).
    rewrite (parsedTree_wellformed (stripA e) []);
      [| now apply strip_wf | reflexivity].
    now rewrite (proj1 (proj2 (proj2 strip_tree) e)).
  - intros ws1 ws2 trail H1 H2 Hsp. rewrite He.
    pose proof (parsedTree_wellformed (AOne (MOne (PParen ws1 e ws2))) trail)
      as H.
    cbn [renderA renderM renderP wfA wfM wfP treeA treeM treeP] in H.
    rewrite H1, Hwf, H2 in H. specialize (H eq_refl Hsp).
    rewrite <- H. f_equal. rewrite <- !app_assoc. cbn [app].
    now rewrite <- !app_assoc.
Qed.

Lemma layout_does_not_matter_witness :
  wfA exprTest3 = true /\ allSpaces (str "  ") = true /\
  parsedTree (str "(4 + 3 * 8) + 8 * 8 + (4 * 4)" ++ str "  ")
  = parsedTree (str "(4+3*8)+8*8+(4*4)").
Proof.
  refine (conj eq_refl (conj eq_refl _)).
  exact (proj1 (layout_does_not_matter exprTest3 eq_refl) (str "  ") eq_refl).
Defined.

(** ** Diagnostics *)

Lemma peekToken_lines w buf i :
  atPos buf i w -> stdout (snd (peekToken w)) = stdout w ++ linesAt buf i.
Proof.
  intros [Hb Hi]. destruct w as [[b j nx] out live]; cbn in Hb, Hi; subst b j.
  unfold peekToken, linesAt. cbn [s stdout].
  pose proof (proj2 (scan_setNext (mkScanner buf i 0) nx)) as H.
  change (setNext nx (mkScanner buf i 0)) with (mkScanner buf i nx) in H.
  rewrite <- H.
  destruct (Scanner_peekToken (mkScanner buf i nx)) as [[t sc] lines].
  reflexivity.
Qed.

Lemma peek_quiet w buf i :
  atPos buf i w -> linesAt buf i = [] ->
  stdout (snd (peekToken w)) = stdout w.
Proof.
  intros Hat Hl. rewrite (peekToken_lines w buf i Hat), Hl. apply app_nil_r.
Qed.

Lemma linesAt_symbol buf pre ws a ty post i :
  buf = pre ++ ws ++ a :: post -> i = length pre ->
  blank ws = true -> symbolType a = Some ty ->
  linesAt buf i = [].
Proof.
  intros -> -> Hws Hty. unfold linesAt.
  now rewrite (scan_symbol pre ws a ty post 0 Hws Hty).
Qed.

Lemma linesAt_digits buf pre ws ds post i :
  buf = pre ++ ws ++ ds ++ post -> i = length pre ->
  blank ws = true -> isDigits ds = true -> delimited post = true ->
  linesAt buf i = [].
Proof.
  intros -> -> Hws Hds Hpost. unfold linesAt.
  now rewrite (scan_digits pre ws ds post 0 Hws Hds Hpost).
Qed.

Lemma linesAt_end buf : linesAt buf (length buf) = [].
Proof.
  unfold linesAt. rewrite scan_end; [reflexivity|]. cbn. lia.
Qed.

Ltac q_symbol H Hbuf Hi pre ws a ty post Hat w' Hat' Hnx' Q :=
  match type of Hat with
  | atPos ?buf ?i ?w =>
      pose proof (peek_quiet w buf i Hat
                    (linesAt_symbol buf pre ws a ty post i
                       ltac:(side_buf Hbuf) ltac:(side_idx Hi)
                       ltac:(assumption)
                       ltac:(first [reflexivity | apply addOp_symbol]))) as Q;
      peek_symbol H Hbuf Hi pre ws a ty post Hat w' Hat' Hnx';
      cbn [snd] in Q
  end.

Ltac q_follow H Hat Hln w' Hat' Q :=
  match type of Hat with
  | atPos ?buf ?i ?w =>
      pose proof (peek_quiet w buf i Hat Hln) as Q;
      peek_follow H Hat w' Hat'; cbn [snd] in Q
  end.

Ltac q_next H Hat Hnx w' Hat' Q :=
  match type of Hat with
  | atPos _ _ ?w =>
      run_next H Hat Hnx w' Hat';
      assert (Q : stdout w' = stdout w) by reflexivity
  end.

Ltac q_create H Hat w' Hat' Q :=
  match type of Hat with
  | atPos _ _ ?w =>
      run_create H Hat w' Hat';
      assert (Q : stdout w' = stdout w) by reflexivity
  end.

Section QuietStep.
Variable f : nat.
Hypothesis IHP : quietP f.
Hypothesis IHM : quietM f.
Hypothesis IHA : quietA f.
Hypothesis IHE : quietE f.

Lemma quietP_step : quietP (S f).
Proof.
  intros p pre post buf i w r Hwf Hpost Hbuf Hi Hat Hrun.
  cbn [parsePrimary] in Hrun. unfold pbind, lift in Hrun.
  destruct p as [ws ds | ws1 e ws2]; cbn [wfP] in Hwf.
  - apply andb_prop in Hwf as [Hws Hds].
    pose proof (peek_quiet w buf i Hat
                  (linesAt_digits buf pre ws ds post i
                     ltac:(subst; norm_lists) Hi Hws Hds Hpost)) as Q1.
    destruct (peek_digits_at w buf pre ws ds post) as (Ht & Hat1 & Hnx);
      try assumption; [subst; norm_lists | subst; exact Hat |].
    destruct (peekToken w) as [t w1]. cbn [fst snd] in *. subst t.
    cbn in Hrun. injection Hrun as <-. cbn [fst snd stdout]. exact Q1.
  - apply andb_prop in Hwf as [Hwf Hws2]. apply andb_prop in Hwf as [Hws1 He].
    q_symbol Hrun Hbuf Hi pre ws1 "("%char TOKEN_TYPE_LPAREN
             (renderA e ++ ws2 ++ ")"%char :: post) Hat w1 Hat1 Hnx1 Q1.
    token_bools.
    q_next Hrun Hat1 Hnx1 w2 Hat2 Q2.
    destruct (parseExpression f w2) as [[tree w3]|] eqn:HE; [|discriminate].
    assert (Hrp : tokenAt buf (i + length ws1 + 1 + length (renderA e))
                  = mkToken [")"%char] TOKEN_TYPE_RPAREN).
    { apply (tokenAt_symbol buf ((pre ++ ws1 ++ ["("%char]) ++ renderA e) ws2 _ _ post);
        try assumption; try reflexivity; [side_buf Hbuf | side_idx Hi]. }
    assert (Hd : delimited (ws2 ++ ")"%char :: post) = true)
      by exact (delimited_symbol ws2 ")"%char TOKEN_TYPE_RPAREN post Hws2 eq_refl).
    assert (Hb : buf = (pre ++ ws1 ++ ["("%char]) ++ renderA e
                       ++ ws2 ++ ")"%char :: post) by side_buf Hbuf.
    assert (Hj : (i + length ws1 + 1)%nat = length (pre ++ ws1 ++ ["("%char]))
      by side_idx Hi.
    assert (Hnf : matchFactor (tokenAt buf (i + length ws1 + 1
                                            + length (renderA e))) = false)
      by (rewrite Hrp; reflexivity).
    assert (Hnt : matchTerm (tokenAt buf (i + length ws1 + 1
                                          + length (renderA e))) = false)
      by (rewrite Hrp; reflexivity).
    pose proof (IHE e _ _ buf _ w2 _ He Hd Hnf Hnt
                  (linesAt_symbol buf ((pre ++ ws1 ++ ["("%char]) ++ renderA e)
                     ws2 _ _ post (i + length ws1 + 1 + length (renderA e))%nat
                     ltac:(side_buf Hbuf) ltac:(side_idx Hi) Hws2 eq_refl)
                  Hb Hj Hat2 HE) as Q3.
    destruct (proj2 (proj2 (proj2 (parse_sound f))) e _ _ buf _ w2 _ He Hd
                Hnf Hnt Hb Hj Hat2 HE) as [Htree Hat3].
    cbn [fst snd] in Htree, Hat3, Q3. subst tree.
    q_symbol Hrun Hbuf Hi ((pre ++ ws1 ++ ["("%char]) ++ renderA e)
             ws2 ")"%char TOKEN_TYPE_RPAREN post Hat3 w4 Hat4 Hnx4 Q4.
    cbn in Hrun. injection Hrun as <-. cbn [fst snd stdout]. congruence.
Qed.

Ltac q_primary H Hbuf Hi p pre post Hwf Hat tree w' Hat' Q :=
  let HP := fresh "HP" in
  let Ht := fresh "Ht" in
  match type of Hat with
  | atPos ?buf ?i ?w =>
      destruct (parsePrimary f w) as [[tree w']|] eqn:HP; [|discriminate];
      pose proof (IHP p pre post buf i w _ Hwf
                    ltac:(side_delimited) ltac:(side_buf Hbuf)
                    ltac:(side_idx Hi) Hat HP) as Q;
      destruct (proj1 (parse_sound f) p pre post buf i w _ Hwf
                    ltac:(side_delimited) ltac:(side_buf Hbuf)
                    ltac:(side_idx Hi) Hat HP)
        as [Ht Hat'];
      cbn [fst snd] in Ht, Hat', Q; subst tree
  end.

Lemma quietM_step : quietM (S f).
Proof.
  intros m pre post buf i w r Hwf Hpost Hnf Hln Hbuf Hi Hat Hrun.
  cbn [parseMultiplicativeExpression] in Hrun. unfold pbind, lift in Hrun.
  destruct m as [p | p1 ws rest]; cbn [wfM] in Hwf.
  - q_primary Hrun Hbuf Hi p pre post Hwf Hat a w1 Hat1 Q1.
    cbn [renderM] in Hnf, Hln.
    q_follow Hrun Hat1 Hln w2 Hat2 Q2.
    rewrite Hnf in Hrun. injection Hrun as <-. unfold ret; cbn [snd]; congruence.
  - apply andb_prop in Hwf as [Hwf Hrest]. apply andb_prop in Hwf as [Hp1 Hws].
    q_primary Hrun Hbuf Hi p1 pre (ws ++ "*"%char :: renderM rest ++ post)
              Hp1 Hat a w1 Hat1 Q1.
    q_symbol Hrun Hbuf Hi (pre ++ renderP p1) ws "*"%char TOKEN_TYPE_MUL
             (renderM rest ++ post) Hat1 w2 Hat2 Hnx2 Q2.
    token_bools.
    q_next Hrun Hat2 Hnx2 w3 Hat3 Q3.
    destruct rest as [p2 | p2 ws' rest']; cbn [wfM] in Hrest.
    + q_primary Hrun Hbuf Hi p2 (pre ++ renderP p1 ++ ws ++ ["*"%char]) post
                Hrest Hat3 b w4 Hat4 Q4.
      q_create Hrun Hat4 w5 Hat5 Q5.
      replace (i + length (renderM (MCons p1 ws (MOne p2))))%nat
        with (i + length (renderP p1) + length ws + 1 + length (renderP p2))%nat
        in * by idx.
      q_follow Hrun Hat5 Hln w6 Hat6 Q6.
      rewrite Hnf in Hrun. injection Hrun as <-. unfold ret; cbn [snd]; congruence.
    + apply andb_prop in Hrest as [Hrest Hrest'].
      apply andb_prop in Hrest as [Hp2 Hws'].
      q_primary Hrun Hbuf Hi p2 (pre ++ renderP p1 ++ ws ++ ["*"%char])
                (ws' ++ "*"%char :: renderM rest' ++ post)
                Hp2 Hat3 b w4 Hat4 Q4.
      q_create Hrun Hat4 w5 Hat5 Q5.
      q_symbol Hrun Hbuf Hi
               (pre ++ renderP p1 ++ ws ++ "*"%char :: renderP p2)
               ws' "*"%char TOKEN_TYPE_MUL (renderM rest' ++ post)
               Hat5 w6 Hat6 Hnx6 Q6.
      token_bools.
      q_next Hrun Hat6 Hnx6 w7 Hat7 Q7.
      destruct (parseMultiplicativeExpression f w7) as [[c w8]|] eqn:HM;
        [|discriminate].
      assert (Hnf' : matchFactor
                       (tokenAt buf
                          (i + length (renderP p1) + length ws + 1
                           + length (renderP p2) + length ws' + 1
                           + length (renderM rest'))) = false)
        by (rewrite <- Hnf; f_equal; f_equal; idx).
      assert (Hln' : linesAt buf
                       (i + length (renderP p1) + length ws + 1
                        + length (renderP p2) + length ws' + 1
                        + length (renderM rest')) = [])
        by (rewrite <- Hln; f_equal; idx).
      assert (Hb : buf = (pre ++ renderP p1 ++ ws ++ "*"%char :: renderP p2
                              ++ ws' ++ ["*"%char]) ++ renderM rest' ++ post)
        by side_buf Hbuf.
      assert (Hj : (i + length (renderP p1) + length ws + 1
                    + length (renderP p2) + length ws' + 1)%nat
                   = length (pre ++ renderP p1 ++ ws ++ "*"%char :: renderP p2
                                 ++ ws' ++ ["*"%char]))
        by side_idx Hi.
      pose proof (IHM rest' _ post buf _ w7 _ Hrest' Hpost Hnf' Hln' Hb Hj
                      Hat7 HM) as Q8.
      destruct (proj1 (proj2 (parse_sound f)) rest' _ post buf _ w7 _
                  Hrest' Hpost Hnf' Hb Hj Hat7 HM) as [Hc Hat8].
      cbn [fst snd] in Hc, Hat8, Q8. subst c.
      q_create Hrun Hat8 w9 Hat9 Q9.
      injection Hrun as <-. unfold ret; cbn [snd]; congruence.
Qed.

Lemma quietA_step : quietA (S f).
Proof.
  intros e pre post buf i w r Hwf Hpost Hnf Hnt Hln Hbuf Hi Hat Hrun.
  cbn [parseAdditiveExpression] in Hrun. unfold pbind, lift in Hrun.
  destruct e as [m | m1 ws op1 rest]; cbn [wfA] in Hwf.
  - destruct (parseMultiplicativeExpression f w) as [[a w1]|] eqn:HM;
      [|discriminate].
    cbn [renderA] in Hnf, Hnt, Hln.
    pose proof (IHM m pre post buf i w _ Hwf Hpost Hnf Hln Hbuf Hi Hat HM)
      as Q1.
    destruct (proj1 (proj2 (parse_sound f)) m pre post buf i w _ Hwf Hpost
                Hnf Hbuf Hi Hat HM) as [Ha Hat1].
    cbn [fst snd] in Ha, Hat1, Q1. subst a.
    q_follow Hrun Hat1 Hln w2 Hat2 Q2.
    rewrite Hnt in Hrun. injection Hrun as <-. unfold ret; cbn [snd]; congruence.
  - apply andb_prop in Hwf as [Hwf Hrest]. apply andb_prop in Hwf as [Hm1 Hws].
    destruct (parseMultiplicativeExpression f w) as [[a w1]|] eqn:HM;
      [|discriminate].
    assert (Hop1 : tokenAt buf (i + length (renderM m1))
                   = mkToken [addOpChar op1] (addOpType op1)).
    { apply (tokenAt_symbol buf (pre ++ renderM m1) ws _ _
                            (renderA rest ++ post));
        [side_buf Hbuf | side_idx Hi | exact Hws | apply addOp_symbol]. }
    assert (Hd1 : delimited (ws ++ addOpChar op1 :: renderA rest ++ post) = true)
      by side_delimited.
    assert (Hnf1 : matchFactor (tokenAt buf (i + length (renderM m1))) = false)
      by (rewrite Hop1; destruct op1; reflexivity).
    assert (Hb1 : buf = pre ++ renderM m1 ++ ws ++ addOpChar op1
                            :: renderA rest ++ post) by side_buf Hbuf.
    pose proof (IHM m1 pre _ buf i w _ Hm1 Hd1 Hnf1
                  (linesAt_symbol buf (pre ++ renderM m1) ws _ _
                     (renderA rest ++ post) (i + length (renderM m1))%nat
                     ltac:(side_buf Hbuf) ltac:(side_idx Hi) Hws
                     (addOp_symbol op1))
                  Hb1 Hi Hat HM) as Q1.
    destruct (proj1 (proj2 (parse_sound f)) m1 pre _ buf i w _ Hm1 Hd1 Hnf1
                Hb1 Hi Hat HM) as [Ha Hat1].
    cbn [fst snd] in Ha, Hat1, Q1. subst a.
    q_symbol Hrun Hbuf Hi (pre ++ renderM m1) ws (addOpChar op1)
             (addOpType op1) (renderA rest ++ post) Hat1 w2 Hat2 Hnx2 Q2.
    assert (Hterm : forall nm op, matchTerm (mkToken nm (addOpType op)) = true)
      by (intros ? []; reflexivity).
    rewrite Hterm in Hrun.
    q_next Hrun Hat2 Hnx2 w3 Hat3 Q3.
    destruct (parseMultiplicativeExpression f w3) as [[b w4]|] eqn:HM2;
      [|discriminate].
    destruct rest as [m2 | m2 ws' op2 rest']; cbn [wfA] in Hrest.
    + replace (i + length (renderA (ACons m1 ws op1 (AOne m2))))%nat
        with (i + length (renderM m1) + length ws + 1 + length (renderM m2))%nat
        in * by idx.
      assert (Hb2 : buf = (pre ++ renderM m1 ++ ws ++ [addOpChar op1])
                            ++ renderM m2 ++ post) by side_buf Hbuf.
      assert (Hj2 : (i + length (renderM m1) + length ws + 1)%nat
                    = length (pre ++ renderM m1 ++ ws ++ [addOpChar op1]))
        by side_idx Hi.
      pose proof (IHM m2 _ post buf _ w3 _ Hrest Hpost Hnf Hln Hb2 Hj2 Hat3 HM2)
        as Q4.
      destruct (proj1 (proj2 (parse_sound f)) m2 _ post buf _ w3 _ Hrest Hpost
                  Hnf Hb2 Hj2 Hat3 HM2) as [Hb Hat4].
      cbn [fst snd] in Hb, Hat4, Q4. subst b.
      q_create Hrun Hat4 w5 Hat5 Q5.
      q_follow Hrun Hat5 Hln w6 Hat6 Q6.
      rewrite Hnt in Hrun. injection Hrun as <-. unfold ret; cbn [snd]; congruence.
    + apply andb_prop in Hrest as [Hrest Hrest'].
      apply andb_prop in Hrest as [Hm2 Hws'].
      assert (Hop2 : tokenAt buf (i + length (renderM m1) + length ws + 1
                                  + length (renderM m2))
                     = mkToken [addOpChar op2] (addOpType op2)).
      { apply (tokenAt_symbol buf
                 (pre ++ renderM m1 ++ ws ++ addOpChar op1 :: renderM m2)
                 ws' _ _ (renderA rest' ++ post));
          [side_buf Hbuf | side_idx Hi | exact Hws' | apply addOp_symbol]. }
      assert (Hd2 : delimited (ws' ++ addOpChar op2 :: renderA rest' ++ post)
                    = true) by side_delimited.
      assert (Hnf2 : matchFactor
                       (tokenAt buf (i + length (renderM m1) + length ws + 1
                                     + length (renderM m2))) = false)
        by (rewrite Hop2; destruct op2; reflexivity).
      assert (Hb2 : buf = (pre ++ renderM m1 ++ ws ++ [addOpChar op1])
                            ++ renderM m2 ++ ws' ++ addOpChar op2
                            :: renderA rest' ++ post) by side_buf Hbuf.
      assert (Hj2 : (i + length (renderM m1) + length ws + 1)%nat
                    = length (pre ++ renderM m1 ++ ws ++ [addOpChar op1]))
        by side_idx Hi.
      pose proof (IHM m2 _ _ buf _ w3 _ Hm2 Hd2 Hnf2
                    (linesAt_symbol buf
                       (pre ++ renderM m1 ++ ws ++ addOpChar op1 :: renderM m2)
                       ws' _ _ (renderA rest' ++ post)
                       (i + length (renderM m1) + length ws + 1
                        + length (renderM m2))%nat
                       ltac:(side_buf Hbuf) ltac:(side_idx Hi) Hws'
                       (addOp_symbol op2))
                    Hb2 Hj2 Hat3 HM2) as Q4.
      destruct (proj1 (proj2 (parse_sound f)) m2 _ _ buf _ w3 _ Hm2 Hd2 Hnf2
                  Hb2 Hj2 Hat3 HM2) as [Hb Hat4].
      cbn [fst snd] in Hb, Hat4, Q4. subst b.
      q_create Hrun Hat4 w5 Hat5 Q5.
      q_symbol Hrun Hbuf Hi
               (pre ++ renderM m1 ++ ws ++ addOpChar op1 :: renderM m2)
               ws' (addOpChar op2) (addOpType op2) (renderA rest' ++ post)
               Hat5 w6 Hat6 Hnx6 Q6.
      rewrite Hterm in Hrun.
      q_next Hrun Hat6 Hnx6 w7 Hat7 Q7.
      destruct (parseAdditiveExpression f w7) as [[c w8]|] eqn:HA;
        [|discriminate].
      assert (Hnf' : matchFactor
                       (tokenAt buf
                          (i + length (renderM m1) + length ws + 1
                           + length (renderM m2) + length ws' + 1
                           + length (renderA rest'))) = false)
        by (rewrite <- Hnf; f_equal; f_equal; idx).
      assert (Hnt' : matchTerm
                       (tokenAt buf
                          (i + length (renderM m1) + length ws + 1
                           + length (renderM m2) + length ws' + 1
                           + length (renderA rest'))) = false)
        by (rewrite <- Hnt; f_equal; f_equal; idx).
      assert (Hln' : linesAt buf
                       (i + length (renderM m1) + length ws + 1
                        + length (renderM m2) + length ws' + 1
                        + length (renderA rest')) = [])
        by (rewrite <- Hln; f_equal; idx).
      assert (Hb3 : buf = (pre ++ renderM m1 ++ ws ++ addOpChar op1
                               :: renderM m2 ++ ws' ++ [addOpChar op2])
                            ++ renderA rest' ++ post) by side_buf Hbuf.
      assert (Hj3 : (i + length (renderM m1) + length ws + 1
                     + length (renderM m2) + length ws' + 1)%nat
                    = length (pre ++ renderM m1 ++ ws ++ addOpChar op1
                                  :: renderM m2 ++ ws' ++ [addOpChar op2]))
        by side_idx Hi.
      pose proof (IHA rest' _ post buf _ w7 _ Hrest' Hpost Hnf' Hnt' Hln'
                      Hb3 Hj3 Hat7 HA) as Q8.
      destruct (proj1 (proj2 (proj2 (parse_sound f))) rest' _ post buf _ w7 _
                  Hrest' Hpost Hnf' Hnt' Hb3 Hj3 Hat7 HA) as [Hc Hat8].
      cbn [fst snd] in Hc, Hat8, Q8. subst c.
      q_create Hrun Hat8 w9 Hat9 Q9.
      injection Hrun as <-. unfold ret; cbn [snd]; congruence.
Qed.

Lemma quietE_step : quietE (S f).
Proof.
  intros e pre post buf i w r Hwf Hpost Hnf Hnt Hln Hbuf Hi Hat Hrun.
  cbn [parseExpression] in Hrun.
  exact (IHA e pre post buf i w r Hwf Hpost Hnf Hnt Hln Hbuf Hi Hat Hrun).
Qed.
End QuietStep.

Lemma parse_quiet (fuel : nat) :
  quietP fuel /\ quietM fuel /\ quietA fuel /\ quietE fuel.
Proof.
  induction fuel as [|f (IHP & IHM & IHA & IHE)].
  - unfold quietP, quietM, quietA, quietE. repeat split; intros;
      match goal with H : _ = Some _ |- _ => discriminate H end.
  - split; [|split; [|split]];
      [apply quietP_step | apply quietM_step | apply quietA_step
       | apply quietE_step]; assumption.
Qed.

Lemma parse_quiet_top e post :
  wfA e = true -> delimited post = true ->
  matchFactor (tokenAt (renderA e ++ post) (length (renderA e))) = false ->
  matchTerm (tokenAt (renderA e ++ post) (length (renderA e))) = false ->
  linesAt (renderA e ++ post) (length (renderA e)) = [] ->
  exists w, parse (renderA e ++ post) = Some (treeA e, w) /\ stdout w = [].
Proof.
  intros Hwf Hdel Hnf Hnt Hln.
  destruct (parse_total (renderA e ++ post)) as (tree & w & Hparse).
  exists w. rewrite Hparse. unfold parse in Hparse.
  destruct (proj2 (proj2 (proj2 (parse_sound (parseFuel (length (renderA e ++ post))))))
              e [] post (renderA e ++ post) 0%nat
              (snd (setBuffer (renderA e ++ post) initialWorld)) _ Hwf Hdel
              Hnf Hnt eq_refl eq_refl (conj eq_refl eq_refl) Hparse) as [Ht _].
  pose proof (proj2 (proj2 (proj2 (parse_quiet (parseFuel (length (renderA e ++ post))))))
              e [] post (renderA e ++ post) 0%nat
              (snd (setBuffer (renderA e ++ post) initialWorld)) _ Hwf Hdel
              Hnf Hnt Hln eq_refl eq_refl (conj eq_refl eq_refl) Hparse) as Q.
  cbn [fst snd] in Ht, Q. subst tree. split; [reflexivity | exact Q].
Qed.

(** X13.  On the text of a well-formed expression the parser prints no
    diagnostic at all, and the same holds when the text is followed by a
    closing parenthesis that matches nothing: the stray ')' and everything
    after it are dropped without a message. *)
Theorem wellformed_input_prints_nothing (e : AddE) :
  wfA e = true ->
  (exists w, parse (renderA e) = Some (treeA e, w) /\ stdout w = []) /\
  (forall ws rest, blank ws = true ->
     exists w, parse (renderA e ++ ws ++ ")"%char :: rest) = Some (treeA e, w)
               /\ stdout w = []).
Proof.
  intros Hwf. split.
  - rewrite <- (app_nil_r (renderA e)).
    apply parse_quiet_top; try assumption; try reflexivity.
    + rewrite null_not_factor; [reflexivity|].
      now apply (tokenAt_spaces _ (renderA e) []); rewrite ?app_nil_r.
    + rewrite null_not_term; [reflexivity|].
      now apply (tokenAt_spaces _ (renderA e) []); rewrite ?app_nil_r.
    + rewrite <- (linesAt_end (renderA e ++ [])). f_equal.
      rewrite length_app. cbn. lia.
  - intros ws rest Hws.
    assert (Hrp : tokenAt (renderA e ++ ws ++ ")"%char :: rest) (length (renderA e))
                  = mkToken [")"%char] TOKEN_TYPE_RPAREN)
      by (apply (tokenAt_symbol _ (renderA e) ws _ _ rest); auto).
    apply parse_quiet_top; try assumption.
    + now apply (delimited_symbol ws ")"%char TOKEN_TYPE_RPAREN).
    + now rewrite Hrp.
    + now rewrite Hrp.
    + now apply (linesAt_symbol _ (renderA e) ws ")"%char TOKEN_TYPE_RPAREN rest).
Qed.

Lemma wellformed_input_prints_nothing_witness :
  wfA exprTest3 = true /\
  exists w, parse (str "(4 + 3 * 8) + 8 * 8 + (4 * 4)")
            = Some (treeA exprTest3, w) /\ stdout w = [].
Proof.
  refine (conj eq_refl _).
  exact (proj1 (wellformed_input_prints_nothing exprTest3 eq_refl)).
Defined.
